(** * libgpiod: the line-configuration object ([lib/line-config.c])

    A shallow embedding of [struct gpiod_line_config], of its setters and of
    its compilation to the kernel's [struct gpio_v2_line_config], followed by
    the properties of the specification that concern them.

    Conventions of the embedding.
    - C [int], [unsigned int], [unsigned long] and [uint64_t] values are
      integers of [Z]; wrap-around and narrowing are written out where the
      code relies on them ([offset_compare], the 64-bit line masks, the store
      of an [unsigned long] in the 32-bit member [debounce_period_us]).
    - Array lengths and loop counters ([num_secondary], [num_output_values],
      [num_offsets], [attr_idx], ...) are [nat]: the code never lets them wrap.
    - A fixed-size C array is a [list] of that size together with the counter
      the code keeps next to it; a pointer into such an array is the index.
    - A caller's array argument and its length ([num_offsets], [offsets]) are
      one list; [num_lines] and [offsets] of the compilation likewise.
    - A function that reads or writes an array through an index returns an
      [option] around its C result: [None] stands for an access outside the
      array, which is undefined behaviour in C. A C result of [-1] or [NULL]
      is an inner [None], and [-1] with [errno] set is [Fail].
    - What the code takes from outside the repository is a parameter: the
      constants of <linux/gpio.h> ([gpio_v2_uapi]) and the [qsort] of the C
      library ([libc]). Statements hold for every value of the parameters
      unless they name one; evaluations on concrete inputs name the kernel's
      constants ([linux_uapi]) and one [qsort] ([libc_insertion]). *)

From Stdlib Require Import ZArith Lia.
From stdpp Require Import base option list sorting.

(** ** Kernel uAPI constants *)

(** Modelled from the spec: [GPIO_V2_LINES_MAX] and
    [GPIO_V2_LINE_NUM_ATTRS_MAX] come from <linux/gpio.h>, which is not part of
    the repository; section 6 of the specification gives the request record as
    [offsets[64]] and [attrs[10]]. *)
Definition GPIO_V2_LINES_MAX : nat := 64.
Definition GPIO_V2_LINE_NUM_ATTRS_MAX : nat := 10.

(** The flag bits and attribute identifiers of <linux/gpio.h>. The header is
    outside the repository and the specification only names them, so the
    embedding takes them as parameters. *)
Class gpio_v2_uapi := {
  GPIO_V2_LINE_FLAG_ACTIVE_LOW : Z;
  GPIO_V2_LINE_FLAG_INPUT : Z;
  GPIO_V2_LINE_FLAG_OUTPUT : Z;
  GPIO_V2_LINE_FLAG_EDGE_RISING : Z;
  GPIO_V2_LINE_FLAG_EDGE_FALLING : Z;
  GPIO_V2_LINE_FLAG_OPEN_DRAIN : Z;
  GPIO_V2_LINE_FLAG_OPEN_SOURCE : Z;
  GPIO_V2_LINE_FLAG_BIAS_PULL_UP : Z;
  GPIO_V2_LINE_FLAG_BIAS_PULL_DOWN : Z;
  GPIO_V2_LINE_FLAG_BIAS_DISABLED : Z;
  GPIO_V2_LINE_FLAG_EVENT_CLOCK_REALTIME : Z;
  GPIO_V2_LINE_ATTR_ID_FLAGS : Z;
  GPIO_V2_LINE_ATTR_ID_OUTPUT_VALUES : Z;
  GPIO_V2_LINE_ATTR_ID_DEBOUNCE : Z
}.

(** The values the Linux kernel assigns (uAPI v2, fixed ABI): flag [k] is
    [1 << k] in the order used, active-low, input, output, edge-rising,
    edge-falling, open-drain, open-source, pull-up, pull-down, bias-disabled,
    realtime clock. Used wherever the code is evaluated on a concrete input. *)
Definition linux_uapi : gpio_v2_uapi := {|
  GPIO_V2_LINE_FLAG_ACTIVE_LOW := 2;
  GPIO_V2_LINE_FLAG_INPUT := 4;
  GPIO_V2_LINE_FLAG_OUTPUT := 8;
  GPIO_V2_LINE_FLAG_EDGE_RISING := 16;
  GPIO_V2_LINE_FLAG_EDGE_FALLING := 32;
  GPIO_V2_LINE_FLAG_OPEN_DRAIN := 64;
  GPIO_V2_LINE_FLAG_OPEN_SOURCE := 128;
  GPIO_V2_LINE_FLAG_BIAS_PULL_UP := 256;
  GPIO_V2_LINE_FLAG_BIAS_PULL_DOWN := 512;
  GPIO_V2_LINE_FLAG_BIAS_DISABLED := 1024;
  GPIO_V2_LINE_FLAG_EVENT_CLOCK_REALTIME := 2048;
  GPIO_V2_LINE_ATTR_ID_FLAGS := 1;
  GPIO_V2_LINE_ATTR_ID_OUTPUT_VALUES := 2;
  GPIO_V2_LINE_ATTR_ID_DEBOUNCE := 3
|}.

(** ** Library enumerations ([include/gpiod.h]) *)

Definition GPIOD_LINE_CONFIG_DIRECTION_AS_IS : Z := 1.
Definition GPIOD_LINE_CONFIG_DIRECTION_INPUT : Z := 2.
Definition GPIOD_LINE_CONFIG_DIRECTION_OUTPUT : Z := 3.

Definition GPIOD_LINE_CONFIG_EDGE_NONE : Z := 1.
Definition GPIOD_LINE_CONFIG_EDGE_FALLING : Z := 2.
Definition GPIOD_LINE_CONFIG_EDGE_RISING : Z := 3.
Definition GPIOD_LINE_CONFIG_EDGE_BOTH : Z := 4.

Definition GPIOD_LINE_CONFIG_BIAS_AS_IS : Z := 1.
Definition GPIOD_LINE_CONFIG_BIAS_DISABLED : Z := 2.
Definition GPIOD_LINE_CONFIG_BIAS_PULL_UP : Z := 3.
Definition GPIOD_LINE_CONFIG_BIAS_PULL_DOWN : Z := 4.

Definition GPIOD_LINE_CONFIG_DRIVE_PUSH_PULL : Z := 1.
Definition GPIOD_LINE_CONFIG_DRIVE_OPEN_DRAIN : Z := 2.
Definition GPIOD_LINE_CONFIG_DRIVE_OPEN_SOURCE : Z := 3.

Definition GPIOD_LINE_CONFIG_EVENT_CLOCK_MONOTONIC : Z := 1.
Definition GPIOD_LINE_CONFIG_EVENT_CLOCK_REALTIME : Z := 2.

(** The two [errno] values the file sets. *)
Inductive errno_t := EINVAL | E2BIG.

Global Instance errno_eq_dec : EqDecision errno_t.
Proof. solve_decision. Defined.

(** ** Data model *)

Record base_config := mk_base_config {
  direction : Z;
  edge : Z;
  drive : Z;
  bias : Z;
  active_low : bool;
  clock : Z;
  debounce_period : Z
}.

Record secondary_config := mk_secondary_config {
  config : base_config;
  offsets : list Z;          (* unsigned int offsets[GPIO_V2_LINES_MAX] *)
  num_offsets : nat
}.

Record output_value := mk_output_value {
  offset : Z;
  value : Z
}.

Record gpiod_line_config := mk_line_config {
  too_complex : bool;
  primary : base_config;
  secondary : list secondary_config;   (* [GPIO_V2_LINE_NUM_ATTRS_MAX] *)
  num_secondary : nat;
  output_values : list output_value;   (* [GPIO_V2_LINES_MAX] *)
  num_output_values : nat;
  sorted_offsets : list Z;             (* [GPIO_V2_LINES_MAX] *)
  num_sorted_offsets : nat
}.

Global Instance base_config_eq_dec : EqDecision base_config.
Proof. solve_decision. Defined.
Global Instance secondary_config_eq_dec : EqDecision secondary_config.
Proof. solve_decision. Defined.
Global Instance output_value_eq_dec : EqDecision output_value.
Proof. solve_decision. Defined.
Global Instance gpiod_line_config_eq_dec : EqDecision gpiod_line_config.
Proof. solve_decision. Defined.

(** Field assignments, one per field the code writes. *)

Definition with_direction (v : Z) (b : base_config) : base_config :=
  mk_base_config v (edge b) (drive b) (bias b) (active_low b) (clock b)
                 (debounce_period b).
Definition with_edge (v : Z) (b : base_config) : base_config :=
  mk_base_config (direction b) v (drive b) (bias b) (active_low b) (clock b)
                 (debounce_period b).
Definition with_drive (v : Z) (b : base_config) : base_config :=
  mk_base_config (direction b) (edge b) v (bias b) (active_low b) (clock b)
                 (debounce_period b).
Definition with_bias (v : Z) (b : base_config) : base_config :=
  mk_base_config (direction b) (edge b) (drive b) v (active_low b) (clock b)
                 (debounce_period b).
Definition with_active_low (v : bool) (b : base_config) : base_config :=
  mk_base_config (direction b) (edge b) (drive b) (bias b) v (clock b)
                 (debounce_period b).
Definition with_clock (v : Z) (b : base_config) : base_config :=
  mk_base_config (direction b) (edge b) (drive b) (bias b) (active_low b) v
                 (debounce_period b).
Definition with_debounce_period (v : Z) (b : base_config) : base_config :=
  mk_base_config (direction b) (edge b) (drive b) (bias b) (active_low b)
                 (clock b) v.

Definition with_config (f : base_config → base_config) (s : secondary_config)
  : secondary_config :=
  mk_secondary_config (f (config s)) (offsets s) (num_offsets s).

Definition with_too_complex (v : bool) (c : gpiod_line_config) :=
  mk_line_config v (primary c) (secondary c) (num_secondary c)
    (output_values c) (num_output_values c)
    (sorted_offsets c) (num_sorted_offsets c).
Definition with_primary (f : base_config → base_config) (c : gpiod_line_config) :=
  mk_line_config (too_complex c) (f (primary c)) (secondary c) (num_secondary c)
    (output_values c) (num_output_values c)
    (sorted_offsets c) (num_sorted_offsets c).
Definition with_secondary (v : list secondary_config) (c : gpiod_line_config) :=
  mk_line_config (too_complex c) (primary c) v (num_secondary c)
    (output_values c) (num_output_values c)
    (sorted_offsets c) (num_sorted_offsets c).
Definition with_num_secondary (v : nat) (c : gpiod_line_config) :=
  mk_line_config (too_complex c) (primary c) (secondary c) v
    (output_values c) (num_output_values c)
    (sorted_offsets c) (num_sorted_offsets c).
Definition with_output_values (v : list output_value) (c : gpiod_line_config) :=
  mk_line_config (too_complex c) (primary c) (secondary c) (num_secondary c)
    v (num_output_values c)
    (sorted_offsets c) (num_sorted_offsets c).
Definition with_num_output_values (v : nat) (c : gpiod_line_config) :=
  mk_line_config (too_complex c) (primary c) (secondary c) (num_secondary c)
    (output_values c) v
    (sorted_offsets c) (num_sorted_offsets c).
Definition with_sorted_offsets (v : list Z) (c : gpiod_line_config) :=
  mk_line_config (too_complex c) (primary c) (secondary c) (num_secondary c)
    (output_values c) (num_output_values c)
    v (num_sorted_offsets c).
Definition with_num_sorted_offsets (v : nat) (c : gpiod_line_config) :=
  mk_line_config (too_complex c) (primary c) (secondary c) (num_secondary c)
    (output_values c) (num_output_values c)
    (sorted_offsets c) v.

(** [arr[i] = v]; outside the array the C code has no defined behaviour. *)
Definition store {A} (i : nat) (v : A) (arr : list A) : option (list A) :=
  if decide (i < length arr) then Some (<[i := v]> arr) else None.

(** [gpiod_line_config_new]: [malloc] then [memset] to zero. The allocation
    failure ([NULL]) is the [None] argument of the compilation. *)
Definition zero_base_config : base_config := mk_base_config 0 0 0 0 false 0 0.
Definition zero_secondary_config : secondary_config :=
  mk_secondary_config zero_base_config (replicate GPIO_V2_LINES_MAX 0%Z) 0.
Definition gpiod_line_config_new : gpiod_line_config :=
  mk_line_config false zero_base_config
    (replicate GPIO_V2_LINE_NUM_ATTRS_MAX zero_secondary_config) 0
    (replicate GPIO_V2_LINES_MAX (mk_output_value 0 0)) 0
    (replicate GPIO_V2_LINES_MAX 0%Z) 0.

(** ** Memory of an [unsigned int] array

    [memcpy], [memmove] and [memcmp] count bytes, and the code passes them
    byte counts that are not multiples of [sizeof(unsigned int)]; so the three
    are modelled on the bytes of the array (little-endian, four per element). *)

Definition le_bytes (w : Z) : list Z :=
  [w mod 256; (w / 256) mod 256; (w / 65536) mod 256; (w / 16777216) mod 256]%Z.

Definition le_word (bs : list Z) : Z :=
  foldr (λ b acc, b + 256 * acc)%Z 0%Z bs.

Definition bytes_of_words (ws : list Z) : list Z := concat (map le_bytes ws).

Fixpoint words_of_bytes (n : nat) (bs : list Z) : list Z :=
  match n with
  | O => []
  | S n' => le_word (take 4 bs) :: words_of_bytes n' (drop 4 bs)
  end.

(** [memcpy(dst, src, n)]: the first [n] bytes of [dst] become those of [src]. *)
Definition memcpy (dst src : list Z) (n : nat) : option (list Z) :=
  let d := bytes_of_words dst in
  let s := bytes_of_words src in
  if decide (n ≤ length d ∧ n ≤ length s)
  then Some (words_of_bytes (length dst) (take n s ++ drop n d))
  else None.

(** [memmove(arr + dst, arr + src, n)] inside one array, [dst] and [src] being
    element indices and [n] a byte count. *)
Definition memmove (arr : list Z) (dst src n : nat) : option (list Z) :=
  let b := bytes_of_words arr in
  if decide (4 * src + n ≤ length b ∧ 4 * dst + n ≤ length b)
  then Some (words_of_bytes (length arr)
               (take (4 * dst) b ++ take n (drop (4 * src) b)
                  ++ drop (4 * dst + n) b))
  else None.

(** [memcmp(a, b, n) == 0]. *)
Definition memcmp_eq (a b : list Z) (n : nat) : option bool :=
  let x := bytes_of_words a in
  let y := bytes_of_words b in
  if decide (n ≤ length x ∧ n ≤ length y)
  then Some (bool_decide (take n x = take n y))
  else None.

(** [offset_compare]: [return a - b;] the unsigned difference converted to
    [int] (two's complement, 32 bits). *)
Definition offset_compare (a b : Z) : Z :=
  let d := ((a - b) mod 2 ^ 32)%Z in
  if (d <? 2 ^ 31)%Z then d else (d - 2 ^ 32)%Z.

(** [qsort] belongs to the C library, which is outside the repository: it
    is a parameter of the embedding, with what the code may expect of it. A
    [qsort] rearranges the elements of the array, so its result is a
    permutation of the array whatever the comparator answers; and the result
    is sorted when the answers of the comparator order the elements of the
    array totally, the condition under which the C standard describes the
    function. [offset_compare] does not order offsets that lie 2^31 or more
    apart, and nothing is assumed of the order of the result then. *)
Definition orders_totally (cmp : Z → Z → Z) (l : list Z) : Prop :=
  (∀ a b, a ∈ l → b ∈ l → (cmp a b < 0)%Z ↔ (0 < cmp b a)%Z)
  ∧ (∀ a b c, a ∈ l → b ∈ l → c ∈ l →
       (cmp a b ≤ 0)%Z → (cmp b c ≤ 0)%Z → (cmp a c ≤ 0)%Z).

Class libc := {
  qsort : (Z → Z → Z) → list Z → list Z;
  qsort_Permutation cmp l : qsort cmp l ≡ₚ l;
  qsort_Sorted cmp l :
    orders_totally cmp l → Sorted (λ a b, (cmp a b ≤ 0)%Z) (qsort cmp l)
}.

(** One such [qsort], a stable insertion sort. It is the library the code is
    evaluated with on concrete inputs; on an array that the comparator orders
    every other [qsort] returns the same list ([qsort_determined] below). *)
Fixpoint qsort_insert (cmp : Z → Z → Z) (x : Z) (l : list Z) : list Z :=
  match l with
  | [] => [x]
  | y :: l' => if (cmp x y <=? 0)%Z then x :: l else y :: qsort_insert cmp x l'
  end.

Definition insertion_sort (cmp : Z → Z → Z) (l : list Z) : list Z :=
  foldr (qsort_insert cmp) [] l.

Lemma qsort_insert_Permutation cmp x l : qsort_insert cmp x l ≡ₚ x :: l.
Proof.
  induction l as [|y l IH]; simpl; [done|].
  destruct (cmp x y <=? 0)%Z; [done|]. rewrite IH. apply Permutation_swap.
Qed.

Lemma insertion_sort_Permutation cmp l : insertion_sort cmp l ≡ₚ l.
Proof.
  induction l as [|x l IH]; simpl; [done|].
  by rewrite qsort_insert_Permutation, IH.
Qed.

Lemma qsort_insert_Sorted cmp x l :
  (∀ y, y ∈ l → (cmp x y ≤ 0)%Z ∨ (cmp y x ≤ 0)%Z) →
  Sorted (λ a b, (cmp a b ≤ 0)%Z) l →
  Sorted (λ a b, (cmp a b ≤ 0)%Z) (qsort_insert cmp x l).
Proof.
  intros Htot Hs. induction Hs as [|y l Hs IH Hhd]; simpl.
  { by repeat constructor. }
  destruct (cmp x y <=? 0)%Z eqn:Hxy.
  - apply Z.leb_le in Hxy. by repeat constructor.
  - apply Z.leb_gt in Hxy. constructor.
    + apply IH. intros z Hz. apply Htot. by right.
    + destruct (Htot y) as [?|Hyx]; [by left|lia|].
      destruct Hhd as [|z l Hyz]; simpl; [by constructor|].
      destruct (cmp x z <=? 0)%Z; by constructor.
Qed.

Lemma insertion_sort_Sorted cmp l :
  orders_totally cmp l →
  Sorted (λ a b, (cmp a b ≤ 0)%Z) (insertion_sort cmp l).
Proof.
  intros [Hrev _].
  assert (∀ l', l' ⊆ l →
            Sorted (λ a b, (cmp a b ≤ 0)%Z) (insertion_sort cmp l')) as H.
  { induction l' as [|x l' IH]; intros Hsub; simpl; [constructor|].
    apply qsort_insert_Sorted.
    - intros y Hy. rewrite insertion_sort_Permutation in Hy.
      assert (x ∈ l) as Hx by (apply Hsub; by left).
      assert (y ∈ l) as Hy' by (apply Hsub; by right).
      destruct (decide (cmp x y ≤ 0)%Z); [by left|right].
      pose proof (proj2 (Hrev y x Hy' Hx)). lia.
    - apply IH. intros z Hz. apply Hsub. by right. }
  by apply H.
Qed.

Definition libc_insertion : libc := {|
  qsort := insertion_sort;
  qsort_Permutation := insertion_sort_Permutation;
  qsort_Sorted := insertion_sort_Sorted
|}.

(** The test that a comparator orders the elements of [l], as a function:
    swapping its arguments reverses its sign, it is transitive, and it
    answers 0 for equal elements only. *)
Definition comparator_orders (cmp : Z → Z → Z) (l : list Z) : bool :=
  forallb (λ a,
    forallb (λ b,
      Bool.eqb (cmp a b <? 0)%Z (0 <? cmp b a)%Z
      && implb (cmp a b =? 0)%Z (a =? b)%Z
      && forallb (λ c,
           implb ((cmp a b <=? 0)%Z && (cmp b c <=? 0)%Z)
                 (cmp a c <=? 0)%Z) l) l) l.

(** ** Offset normalisation and secondary lookup *)

Section Normalisation.
Context {L : libc}.

(** One iteration of the loop of [sanitize_offsets] at index [i]; the state is
    the scratch array and [config->num_sorted_offsets]. *)
Definition sanitize_step (num_offsets count i : nat) (st : list Z * nat)
  : option (list Z * nat) :=
  let '(sorted, n) := st in
  a ← sorted !! i;
  b ← sorted !! (i + 1);
  if decide (a = b) then
    sorted' ← (if decide (i < count - 2)
               then memmove sorted (i + 1) (i + 2) (4 * num_offsets - i)
               else Some sorted);
    Some (sorted', n - 1)
  else Some (sorted, n).

Fixpoint sanitize_loop (num_offsets count : nat) (idxs : list nat)
    (st : list Z * nat) : option (list Z * nat) :=
  match idxs with
  | [] => Some st
  | i :: idxs' =>
      st' ← sanitize_step num_offsets count i st;
      sanitize_loop num_offsets count idxs' st'
  end.

Definition sanitize_offsets (c : gpiod_line_config) (offs : list Z)
  : option gpiod_line_config :=
  let num_offsets := length offs in
  if decide (num_offsets = 0 ∨ num_offsets = 1) then Some c else
  let count := if decide (GPIO_V2_LINES_MAX < num_offsets)
               then GPIO_V2_LINES_MAX else num_offsets in
  copied ← memcpy (sorted_offsets c) offs count;
  let sorted := qsort offset_compare (take count copied) ++ drop count copied in
  '(sorted', n) ← sanitize_loop num_offsets count (seq 0 (count - 1))
                    (sorted, num_offsets);
  Some (with_num_sorted_offsets n (with_sorted_offsets sorted' c)).

(** [find_matching_secondary_config]: the loop from index [i] with [fuel]
    iterations left; the result is the index of the matching secondary, or
    [None] for the [NULL] pointer. *)
Fixpoint find_matching_from (c : gpiod_line_config) (i fuel : nat)
  : option (option nat) :=
  match fuel with
  | O => Some None
  | S fuel' =>
      sec ← secondary c !! i;
      if decide (num_sorted_offsets c ≠ num_offsets sec)
      then find_matching_from c (S i) fuel'
      else
        same ← memcmp_eq (offsets sec) (sorted_offsets c)
                  (4 * num_sorted_offsets c);
        if same : bool then Some (Some i)
        else find_matching_from c (S i) fuel'
  end.

Definition find_matching_secondary_config (c : gpiod_line_config)
  : option (option nat) :=
  find_matching_from c 0 (num_secondary c).

(** [get_secondary_config]: the updated object and the secondary returned
    (its index, [None] for [NULL]). *)
Definition get_secondary_config (c : gpiod_line_config) (offs : list Z)
  : option (gpiod_line_config * option nat) :=
  if too_complex c then Some (c, None) else
  c1 ← sanitize_offsets c offs;
  found ← find_matching_secondary_config c1;
  match found with
  | Some i => Some (c1, Some i)
  | None =>
      if decide (num_secondary c1 = GPIO_V2_LINE_NUM_ATTRS_MAX)
      then Some (with_too_complex true c1, None)
      else Some (with_num_secondary (S (num_secondary c1)) c1,
                 Some (num_secondary c1))
  end.

(** ** Setters *)

(** The body shared by the eight [..._subset] setters: fetch the secondary,
    return if there is none, else assign one field of [secondary->config]. *)
Definition subset_setter (f : base_config → base_config)
    (c : gpiod_line_config) (offs : list Z) : option gpiod_line_config :=
  '(c1, sec) ← get_secondary_config c offs;
  match sec with
  | None => Some c1
  | Some i =>
      s ← secondary c1 !! i;
      arr ← store i (with_config f s) (secondary c1);
      Some (with_secondary arr c1)
  end.

Definition gpiod_line_config_set_direction c (v : Z) : gpiod_line_config :=
  with_primary (with_direction v) c.
Definition gpiod_line_config_set_direction_subset c (v : Z) offs :=
  subset_setter (with_direction v) c offs.
Definition gpiod_line_config_set_direction_offset c (v : Z) (off : Z) :=
  gpiod_line_config_set_direction_subset c v [off].

Definition gpiod_line_config_set_edge_detection c (v : Z) : gpiod_line_config :=
  with_primary (with_edge v) c.
Definition gpiod_line_config_set_edge_detection_subset c (v : Z) offs :=
  subset_setter (with_edge v) c offs.
Definition gpiod_line_config_set_edge_detection_offset c (v : Z) (off : Z) :=
  gpiod_line_config_set_edge_detection_subset c v [off].

Definition gpiod_line_config_set_bias c (v : Z) : gpiod_line_config :=
  with_primary (with_bias v) c.
Definition gpiod_line_config_set_bias_subset c (v : Z) offs :=
  subset_setter (with_bias v) c offs.
Definition gpiod_line_config_set_bias_offset c (v : Z) (off : Z) :=
  gpiod_line_config_set_bias_subset c v [off].

Definition gpiod_line_config_set_drive c (v : Z) : gpiod_line_config :=
  with_primary (with_drive v) c.
Definition gpiod_line_config_set_drive_subset c (v : Z) offs :=
  subset_setter (with_drive v) c offs.
Definition gpiod_line_config_set_drive_offset c (v : Z) (off : Z) :=
  gpiod_line_config_set_drive_subset c v [off].

Definition gpiod_line_config_set_active_low c : gpiod_line_config :=
  with_primary (with_active_low true) c.
Definition gpiod_line_config_set_active_low_subset c offs :=
  subset_setter (with_active_low true) c offs.
Definition gpiod_line_config_set_active_low_offset c (off : Z) :=
  gpiod_line_config_set_active_low_subset c [off].

Definition gpiod_line_config_set_active_high c : gpiod_line_config :=
  with_primary (with_active_low false) c.
Definition gpiod_line_config_set_active_high_subset c offs :=
  subset_setter (with_active_low false) c offs.
Definition gpiod_line_config_set_active_high_offset c (off : Z) :=
  gpiod_line_config_set_active_high_subset c [off].

Definition gpiod_line_config_set_debounce_period c (v : Z) : gpiod_line_config :=
  with_primary (with_debounce_period v) c.
Definition gpiod_line_config_set_debounce_period_subset c (v : Z) offs :=
  subset_setter (with_debounce_period v) c offs.
Definition gpiod_line_config_set_debounce_period_offset c (v : Z) (off : Z) :=
  gpiod_line_config_set_debounce_period_subset c v [off].

Definition gpiod_line_config_set_event_clock c (v : Z) : gpiod_line_config :=
  with_primary (with_clock v) c.
Definition gpiod_line_config_set_event_clock_subset c (v : Z) offs :=
  subset_setter (with_clock v) c offs.
Definition gpiod_line_config_set_event_clock_offset c (v : Z) (off : Z) :=
  gpiod_line_config_set_event_clock_subset c v [off].

End Normalisation.

(** [output_value_find_offset]: the loop from index [i]; [None] is [-1]. *)
Fixpoint output_value_find_from (c : gpiod_line_config) (off : Z)
    (i fuel : nat) : option (option nat) :=
  match fuel with
  | O => Some None
  | S fuel' =>
      ov ← output_values c !! i;
      if decide (offset ov = off) then Some (Some i)
      else output_value_find_from c off (S i) fuel'
  end.

Definition output_value_find_offset (c : gpiod_line_config) (off : Z)
  : option (option nat) :=
  output_value_find_from c off 0 (num_output_values c).

Definition set_output_value (c : gpiod_line_config) (idx : nat)
    (off : Z) (val : Z) (inc : bool) : option gpiod_line_config :=
  arr ← store idx (mk_output_value off val) (output_values c);
  let c1 := with_output_values arr c in
  Some (if inc then with_num_output_values (S (num_output_values c1)) c1
        else c1).

(** The loop of [gpiod_line_config_set_output_values] over the pairs
    [(offsets[i], values[i])] that remain. *)
Fixpoint set_output_values_loop (c : gpiod_line_config)
    (vals : list (Z * Z)) : option gpiod_line_config :=
  match vals with
  | [] => Some c
  | (off, val) :: vals' =>
      pos ← output_value_find_offset c off;
      match pos with
      | None =>
          if decide (num_output_values c = GPIO_V2_LINES_MAX)
          then Some (with_too_complex true c)
          else
            c1 ← set_output_value c (num_output_values c) off val true;
            set_output_values_loop c1 vals'
      | Some p =>
          c1 ← set_output_value c p off val false;
          set_output_values_loop c1 vals'
      end
  end.

(** The arrays [offsets] and [values] of length [num_values] are one list of
    pairs. *)
Definition gpiod_line_config_set_output_values (c : gpiod_line_config)
    (vals : list (Z * Z)) : option gpiod_line_config :=
  if too_complex c then Some c else set_output_values_loop c vals.

Definition gpiod_line_config_set_output_value (c : gpiod_line_config)
    (off : Z) (val : Z) : option gpiod_line_config :=
  gpiod_line_config_set_output_values c [(off, val)].

(** ** Line masks *)

(** Modelled from the spec: the line-mask helpers are declared in
    [internal.h] and defined outside the files at hand. Section 4.1: a line
    mask is a 64-bit word with the operations zero, fill, set bit, clear bit
    and assign bit to a boolean; the compilation calls fill with the mask
    alone (section 4.2: fill-all). *)
Definition gpiod_line_mask_zero : Z := 0.
Definition gpiod_line_mask_fill : Z := Z.ones 64.
Definition gpiod_line_mask_set_bit (mask : Z) (nr : nat) : Z :=
  Z.land (Z.lor mask (Z.shiftl 1 (Z.of_nat nr))) (Z.ones 64).
Definition gpiod_line_mask_clear_bit (mask : Z) (nr : nat) : Z :=
  Z.ldiff mask (Z.shiftl 1 (Z.of_nat nr)).
Definition gpiod_line_mask_assign_bit (mask : Z) (nr : nat) (v : bool) : Z :=
  if v then gpiod_line_mask_set_bit mask nr
  else gpiod_line_mask_clear_bit mask nr.

(** ** Results of the fallible helpers: a value, or [-1] with [errno] set *)

Inductive result (A : Type) :=
  | Ok (a : A)
  | Fail (e : errno_t).
Arguments Ok {A} a.
Arguments Fail {A} e.

Global Instance result_ret : MRet result := λ A a, Ok a.
Global Instance result_bind : MBind result := λ A B f m,
  match m with Ok a => f a | Fail e => Fail e end.

(** ** Kernel configuration structure

    Modelled from the spec: the kernel structures are declared in
    <linux/gpio.h>, outside the repository. Section 6 of the specification
    gives the config as flags and [attrs[10]], each attribute being an id, a
    value and a mask, with the exact layouts of the uAPI; the field names are
    those the code assigns to.

    [struct gpio_v2_line_attribute] is [__u32 id], [__u32 padding] and an
    anonymous union of [__aligned_u64 flags], [__aligned_u64 values] and
    [__u32 debounce_period_us]. The union is one 64-bit word, [attr_union]:
    the three members are views of it. [flags] and [values] are the whole
    word; [debounce_period_us] is its first four bytes, the low half of the
    word in the little-endian layout used for the scratch array above. *)
Record gpio_v2_line_attribute := mk_line_attribute {
  id : Z;
  padding : Z;
  attr_union : Z
}.

(** Reading a member of the union. *)
Definition attr_flags (a : gpio_v2_line_attribute) : Z := attr_union a.
Definition attr_values (a : gpio_v2_line_attribute) : Z := attr_union a.
Definition debounce_period_us (a : gpio_v2_line_attribute) : Z :=
  (attr_union a mod 2 ^ 32)%Z.

Record gpio_v2_line_config_attribute := mk_config_attribute {
  attr : gpio_v2_line_attribute;
  mask : Z
}.

Record gpio_v2_line_config := mk_kernel_config {
  flags : Z;
  num_attrs : Z;
  attrs : list gpio_v2_line_config_attribute  (* [GPIO_V2_LINE_NUM_ATTRS_MAX] *)
}.

Definition with_id (v : Z) (a : gpio_v2_line_config_attribute) :=
  mk_config_attribute
    (mk_line_attribute v (padding (attr a)) (attr_union (attr a)))
    (mask a).

(** [attr->attr.flags = v] and [attr->attr.values = v]: a [uint64_t] stored
    in a 64-bit member replaces the whole word. *)
Definition with_attr_flags (v : Z) (a : gpio_v2_line_config_attribute) :=
  mk_config_attribute
    (mk_line_attribute (id (attr a)) (padding (attr a)) v)
    (mask a).
Definition with_attr_values (v : Z) (a : gpio_v2_line_config_attribute) :=
  mk_config_attribute
    (mk_line_attribute (id (attr a)) (padding (attr a)) v)
    (mask a).

(** [attr->attr.debounce_period_us = v]: the [unsigned long] is converted to
    [__u32], which keeps [v mod 2^32], and stored in the low half of the
    word; the high half keeps what it held. *)
Definition with_debounce_period_us (v : Z) (a : gpio_v2_line_config_attribute) :=
  mk_config_attribute
    (mk_line_attribute (id (attr a)) (padding (attr a))
       (attr_union (attr a) / 2 ^ 32 * 2 ^ 32 + v mod 2 ^ 32)%Z)
    (mask a).
Definition with_mask (v : Z) (a : gpio_v2_line_config_attribute) :=
  mk_config_attribute (attr a) v.

Definition with_flags (v : Z) (b : gpio_v2_line_config) :=
  mk_kernel_config v (num_attrs b) (attrs b).
Definition with_num_attrs (v : Z) (b : gpio_v2_line_config) :=
  mk_kernel_config (flags b) v (attrs b).
Definition with_attrs (v : list gpio_v2_line_config_attribute)
    (b : gpio_v2_line_config) :=
  mk_kernel_config (flags b) (num_attrs b) v.

(** Assignments through [attr = &cfgbuf->attrs[i]]: the element is updated
    in place by [f]. *)
Definition update_attr (i : nat)
    (f : gpio_v2_line_config_attribute → gpio_v2_line_config_attribute)
    (b : gpio_v2_line_config) : option gpio_v2_line_config :=
  a ← attrs b !! i;
  arr ← store i (f a) (attrs b);
  Some (with_attrs arr b).

Global Instance gpio_v2_line_attribute_eq_dec : EqDecision gpio_v2_line_attribute.
Proof. solve_decision. Defined.
Global Instance gpio_v2_line_config_attribute_eq_dec :
  EqDecision gpio_v2_line_config_attribute.
Proof. solve_decision. Defined.
Global Instance gpio_v2_line_config_eq_dec : EqDecision gpio_v2_line_config.
Proof. solve_decision. Defined.

(** ** Compilation to the kernel structure *)

Section Compile.
Context `{K : gpio_v2_uapi}.

(** The five [switch] statements of [gpiod_make_kernel_flags], each taking
    the flag word built so far and either extending it or jumping to
    [err_inval]. *)
Definition switch_direction (cfg : base_config) (flags : Z) : result Z :=
  if decide (direction cfg = GPIOD_LINE_CONFIG_DIRECTION_INPUT)
  then Ok (Z.lor flags GPIO_V2_LINE_FLAG_INPUT)
  else if decide (direction cfg = GPIOD_LINE_CONFIG_DIRECTION_OUTPUT)
  then Ok (Z.lor flags GPIO_V2_LINE_FLAG_OUTPUT)
  else if decide (direction cfg = GPIOD_LINE_CONFIG_DIRECTION_AS_IS
                  ∨ direction cfg = 0%Z)
  then Ok flags
  else Fail EINVAL.

Definition switch_edge (cfg : base_config) (flags : Z) : result Z :=
  if decide (edge cfg = GPIOD_LINE_CONFIG_EDGE_FALLING)
  then Ok (Z.land
             (Z.lor flags (Z.lor GPIO_V2_LINE_FLAG_EDGE_FALLING
                                 GPIO_V2_LINE_FLAG_INPUT))
             (Z.lnot GPIOD_LINE_CONFIG_DIRECTION_OUTPUT))
  else if decide (edge cfg = GPIOD_LINE_CONFIG_EDGE_RISING)
  then Ok (Z.land
             (Z.lor flags (Z.lor GPIO_V2_LINE_FLAG_EDGE_RISING
                                 GPIO_V2_LINE_FLAG_INPUT))
             (Z.lnot GPIOD_LINE_CONFIG_DIRECTION_OUTPUT))
  else if decide (edge cfg = GPIOD_LINE_CONFIG_EDGE_BOTH)
  then Ok (Z.land
             (Z.lor flags (Z.lor (Z.lor GPIO_V2_LINE_FLAG_EDGE_FALLING
                                        GPIO_V2_LINE_FLAG_EDGE_RISING)
                                 GPIO_V2_LINE_FLAG_INPUT))
             (Z.lnot GPIOD_LINE_CONFIG_DIRECTION_OUTPUT))
  else if decide (edge cfg = GPIOD_LINE_CONFIG_EDGE_NONE ∨ edge cfg = 0%Z)
  then Ok flags
  else Fail EINVAL.

Definition switch_drive (cfg : base_config) (flags : Z) : result Z :=
  if decide (drive cfg = GPIOD_LINE_CONFIG_DRIVE_OPEN_DRAIN)
  then Ok (Z.lor flags GPIO_V2_LINE_FLAG_OPEN_DRAIN)
  else if decide (drive cfg = GPIOD_LINE_CONFIG_DRIVE_OPEN_SOURCE)
  then Ok (Z.lor flags GPIO_V2_LINE_FLAG_OPEN_SOURCE)
  else if decide (drive cfg = GPIOD_LINE_CONFIG_DRIVE_PUSH_PULL
                  ∨ drive cfg = 0%Z)
  then Ok flags
  else Fail EINVAL.

Definition switch_bias (cfg : base_config) (flags : Z) : result Z :=
  if decide (bias cfg = GPIOD_LINE_CONFIG_BIAS_DISABLED)
  then Ok (Z.lor flags GPIO_V2_LINE_FLAG_BIAS_DISABLED)
  else if decide (bias cfg = GPIOD_LINE_CONFIG_BIAS_PULL_UP)
  then Ok (Z.lor flags GPIO_V2_LINE_FLAG_BIAS_PULL_UP)
  else if decide (bias cfg = GPIOD_LINE_CONFIG_BIAS_PULL_DOWN)
  then Ok (Z.lor flags GPIO_V2_LINE_FLAG_BIAS_PULL_DOWN)
  else if decide (bias cfg = GPIOD_LINE_CONFIG_BIAS_AS_IS ∨ bias cfg = 0%Z)
  then Ok flags
  else Fail EINVAL.

Definition switch_clock (cfg : base_config) (flags : Z) : result Z :=
  if decide (clock cfg = GPIOD_LINE_CONFIG_EVENT_CLOCK_REALTIME)
  then Ok (Z.lor flags GPIO_V2_LINE_FLAG_EVENT_CLOCK_REALTIME)
  else if decide (clock cfg = GPIOD_LINE_CONFIG_EVENT_CLOCK_MONOTONIC
                  ∨ clock cfg = 0%Z)
  then Ok flags
  else Fail EINVAL.

(** [gpiod_make_kernel_flags]: [*flags = 0], the switches in the order of
    the source with the test of [active_low] before the last, [return 0]. *)
Definition gpiod_make_kernel_flags (cfg : base_config) : result Z :=
  flags ← switch_direction cfg 0%Z;
  flags ← switch_edge cfg flags;
  flags ← switch_drive cfg flags;
  flags ← switch_bias cfg flags;
  let flags := if active_low cfg
               then Z.lor flags GPIO_V2_LINE_FLAG_ACTIVE_LOW else flags in
  flags ← switch_clock cfg flags;
  Ok flags.

End Compile.

(** [find_bitmap_index]: the first position of [needle] in the first
    [num_lines] elements of [haystack]; [None] is [-1]. *)
Fixpoint find_bitmap_index (needle : Z) (haystack : list Z) : option nat :=
  match haystack with
  | [] => None
  | h :: haystack' =>
      if decide (needle = h) then Some 0
      else S <$> find_bitmap_index needle haystack'
  end.

(** The loop of [set_kernel_output_values] from index [i]; it yields the pair
    [(mask, vals)]. *)
Fixpoint set_kernel_output_values_from (c : gpiod_line_config)
    (offs : list Z) (i fuel : nat) (mask vals : Z)
  : option (result (Z * Z)) :=
  match fuel with
  | O => Some (Ok (mask, vals))
  | S fuel' =>
      outval ← output_values c !! i;
      match find_bitmap_index (offset outval) offs with
      | None => Some (Fail EINVAL)
      | Some idx =>
          set_kernel_output_values_from c offs (S i) fuel'
            (gpiod_line_mask_set_bit mask idx)
            (gpiod_line_mask_assign_bit vals idx
               (bool_decide (value outval ≠ 0%Z)))
      end
  end.

Definition set_kernel_output_values (c : gpiod_line_config) (offs : list Z)
  : option (result (Z * Z)) :=
  set_kernel_output_values_from c offs 0 (num_output_values c)
    gpiod_line_mask_zero gpiod_line_mask_zero.

(** The loop of [set_secondary_mask] from index [i]. *)
Fixpoint set_secondary_mask_from (sec_cfg : secondary_config)
    (offs : list Z) (i fuel : nat) (mask : Z) : option (result Z) :=
  match fuel with
  | O => Some (Ok mask)
  | S fuel' =>
      o ← offsets sec_cfg !! i;
      match find_bitmap_index o offs with
      | None => Some (Fail EINVAL)
      | Some idx =>
          set_secondary_mask_from sec_cfg offs (S i) fuel'
            (gpiod_line_mask_set_bit mask idx)
      end
  end.

Definition set_secondary_mask (sec_cfg : secondary_config) (offs : list Z)
  : option (result Z) :=
  set_secondary_mask_from sec_cfg offs 0 (num_offsets sec_cfg)
    gpiod_line_mask_zero.

(** What a call of [gpiod_line_config_to_kernel] leaves behind: the value
    returned, the value stored in [errno] (if any), and the two objects the
    function can write through its pointer arguments. *)
Record to_kernel_result := mk_result {
  ret : Z;
  errno : option errno_t;
  cfgbuf : gpio_v2_line_config;
  config_after : option gpiod_line_config
}.

Global Instance to_kernel_result_eq_dec : EqDecision to_kernel_result.
Proof. solve_decision. Defined.

(** The label [err_2big]. *)
Definition err_2big (c : gpiod_line_config) (buf : gpio_v2_line_config)
  : to_kernel_result :=
  mk_result (-1) (Some E2BIG) buf (Some (with_too_complex true c)).

(** [return ret;] / [return -1;] after a helper has failed and set [errno]. *)
Definition err_return (e : errno_t) (c : gpiod_line_config)
    (buf : gpio_v2_line_config) : to_kernel_result :=
  mk_result (-1) (Some e) buf (Some c).

(** Sequencing of the phases of the function: a phase either returns from
    the function ([inl]) or hands its state to the next phase ([inr]). *)
Definition and_then {R S T} (m : option (R + S)) (k : S → option (R + T))
  : option (R + T) :=
  x ← m;
  match x with
  | inl r => Some (inl r)
  | inr s => k s
  end.

Section CompileConfig.
Context `{K : gpio_v2_uapi}.

(** The block [if (config->num_output_values) { ... }]. *)
Definition to_kernel_output_values (c : gpiod_line_config)
    (buf : gpio_v2_line_config) (offs : list Z)
  : option (to_kernel_result + (nat * gpio_v2_line_config)) :=
  if decide (num_output_values c ≠ 0) then
    if decide (length offs < num_output_values c)
    then Some (inl (err_2big c buf))
    else
      buf1 ← update_attr 0 (with_id GPIO_V2_LINE_ATTR_ID_OUTPUT_VALUES) buf;
      r ← set_kernel_output_values c offs;
      match r with
      | Fail e => Some (inl (err_return e c buf1))
      | Ok (mask, values) =>
          buf2 ← update_attr 0
                   (λ a, with_mask mask (with_attr_values values a)) buf1;
          Some (inr (1, buf2))
      end
  else Some (inr (0, buf)).

(** The block [if (config->primary.debounce_period) { ... }]. *)
Definition to_kernel_primary_debounce (c : gpiod_line_config)
    (attr_idx : nat) (buf : gpio_v2_line_config)
  : option (nat * gpio_v2_line_config) :=
  if decide (debounce_period (primary c) ≠ 0%Z) then
    buf1 ← update_attr attr_idx
             (λ a, with_mask gpiod_line_mask_fill
                     (with_debounce_period_us (debounce_period (primary c))
                        (with_id GPIO_V2_LINE_ATTR_ID_DEBOUNCE a))) buf;
    Some (S attr_idx, buf1)
  else Some (attr_idx, buf).

(** The body of the loop over the secondaries up to the call of
    [set_secondary_mask]: [id] and the payload of the attribute. *)
Definition to_kernel_secondary_payload (c : gpiod_line_config)
    (sec_cfg : secondary_config) (attr_idx : nat) (buf : gpio_v2_line_config)
  : option (to_kernel_result + gpio_v2_line_config) :=
  if decide (debounce_period (config sec_cfg) ≠ 0%Z) then
    buf1 ← update_attr attr_idx
             (λ a, with_debounce_period_us (debounce_period (config sec_cfg))
                     (with_id GPIO_V2_LINE_ATTR_ID_DEBOUNCE a)) buf;
    Some (inr buf1)
  else
    buf1 ← update_attr attr_idx (with_id GPIO_V2_LINE_ATTR_ID_FLAGS) buf;
    match gpiod_make_kernel_flags (config sec_cfg) with
    | Fail e => Some (inl (err_return e c buf1))
    | Ok f =>
        buf2 ← update_attr attr_idx (with_attr_flags f) buf1;
        Some (inr buf2)
    end.

(** The loop [for (i = 0; i < config->num_secondary; i++, attr_idx++)] from
    index [i] with [fuel] iterations left. *)
Fixpoint to_kernel_secondaries (c : gpiod_line_config) (offs : list Z)
    (i fuel attr_idx : nat) (buf : gpio_v2_line_config)
  : option (to_kernel_result + (nat * gpio_v2_line_config)) :=
  match fuel with
  | O => Some (inr (attr_idx, buf))
  | S fuel' =>
      if decide (attr_idx = GPIO_V2_LINE_NUM_ATTRS_MAX)
      then Some (inl (err_2big c buf))
      else
        sec_cfg ← secondary c !! i;
        if decide (length offs < num_offsets sec_cfg)
        then Some (inl (err_2big c buf))
        else
          and_then (to_kernel_secondary_payload c sec_cfg attr_idx buf)
            (λ buf1,
               m ← set_secondary_mask sec_cfg offs;
               match m with
               | Fail e => Some (inl (err_return e c buf1))
               | Ok mask =>
                   buf2 ← update_attr attr_idx (with_mask mask) buf1;
                   to_kernel_secondaries c offs (S i) fuel' (S attr_idx) buf2
               end)
  end.

(** [gpiod_line_config_to_kernel]; a [NULL] config is [None], and
    [num_lines] is the length of [offs]. *)
Definition gpiod_line_config_to_kernel (cfg : option gpiod_line_config)
    (buf : gpio_v2_line_config) (offs : list Z) : option to_kernel_result :=
  match cfg with
  | None =>
      Some (mk_result 0 None (with_flags GPIO_V2_LINE_FLAG_INPUT buf) None)
  | Some c =>
      if too_complex c then Some (err_2big c buf) else
      r ← and_then (to_kernel_output_values c buf offs)
            (λ '(attr_idx, buf1),
               and_then (inr <$> to_kernel_primary_debounce c attr_idx buf1)
                 (λ '(attr_idx, buf2),
                    to_kernel_secondaries c offs 0 (num_secondary c)
                      attr_idx buf2));
      match r with
      | inl res => Some res
      | inr (attr_idx, buf3) =>
          match gpiod_make_kernel_flags (primary c) with
          | Fail e => Some (err_return e c buf3)
          | Ok f =>
              Some (mk_result 0 None
                      (with_num_attrs (Z.of_nat attr_idx) (with_flags f buf3))
                      (Some c))
          end
      end
  end.

End CompileConfig.

(** A kernel structure filled with zeroes, as callers pass it. *)
Definition zero_attribute : gpio_v2_line_config_attribute :=
  mk_config_attribute (mk_line_attribute 0 0 0) 0.
Definition zero_kernel_config : gpio_v2_line_config :=
  mk_kernel_config 0 0 (replicate GPIO_V2_LINE_NUM_ATTRS_MAX zero_attribute).

(** ** The public setters as one family

    [line_option] names the option a setter writes together with the value
    passed; [setter_call] is one call of the public surface: the global form,
    the single-offset form, the subset form, and the two output-value
    setters. *)

Inductive line_option :=
  | OptDirection (v : Z)
  | OptEdgeDetection (v : Z)
  | OptBias (v : Z)
  | OptDrive (v : Z)
  | OptActiveLow
  | OptActiveHigh
  | OptDebouncePeriod (v : Z)
  | OptEventClock (v : Z).

Inductive setter_call :=
  | Global (o : line_option)
  | ForOffset (o : line_option) (off : Z)
  | ForSubset (o : line_option) (offs : list Z)
  | OutputValue (off val : Z)
  | OutputValues (vals : list (Z * Z)).

Definition call_global (o : line_option) (c : gpiod_line_config)
  : gpiod_line_config :=
  match o with
  | OptDirection v => gpiod_line_config_set_direction c v
  | OptEdgeDetection v => gpiod_line_config_set_edge_detection c v
  | OptBias v => gpiod_line_config_set_bias c v
  | OptDrive v => gpiod_line_config_set_drive c v
  | OptActiveLow => gpiod_line_config_set_active_low c
  | OptActiveHigh => gpiod_line_config_set_active_high c
  | OptDebouncePeriod v => gpiod_line_config_set_debounce_period c v
  | OptEventClock v => gpiod_line_config_set_event_clock c v
  end.

Section Calls.
Context {L : libc}.

Definition call_offset (o : line_option) (c : gpiod_line_config) (off : Z)
  : option gpiod_line_config :=
  match o with
  | OptDirection v => gpiod_line_config_set_direction_offset c v off
  | OptEdgeDetection v => gpiod_line_config_set_edge_detection_offset c v off
  | OptBias v => gpiod_line_config_set_bias_offset c v off
  | OptDrive v => gpiod_line_config_set_drive_offset c v off
  | OptActiveLow => gpiod_line_config_set_active_low_offset c off
  | OptActiveHigh => gpiod_line_config_set_active_high_offset c off
  | OptDebouncePeriod v => gpiod_line_config_set_debounce_period_offset c v off
  | OptEventClock v => gpiod_line_config_set_event_clock_offset c v off
  end.

Definition call_subset (o : line_option) (c : gpiod_line_config)
    (offs : list Z) : option gpiod_line_config :=
  match o with
  | OptDirection v => gpiod_line_config_set_direction_subset c v offs
  | OptEdgeDetection v => gpiod_line_config_set_edge_detection_subset c v offs
  | OptBias v => gpiod_line_config_set_bias_subset c v offs
  | OptDrive v => gpiod_line_config_set_drive_subset c v offs
  | OptActiveLow => gpiod_line_config_set_active_low_subset c offs
  | OptActiveHigh => gpiod_line_config_set_active_high_subset c offs
  | OptDebouncePeriod v => gpiod_line_config_set_debounce_period_subset c v offs
  | OptEventClock v => gpiod_line_config_set_event_clock_subset c v offs
  end.

Definition apply_setter (call : setter_call) (c : gpiod_line_config)
  : option gpiod_line_config :=
  match call with
  | Global o => Some (call_global o c)
  | ForOffset o off => call_offset o c off
  | ForSubset o offs => call_subset o c offs
  | OutputValue off val => gpiod_line_config_set_output_value c off val
  | OutputValues vals => gpiod_line_config_set_output_values c vals
  end.

(** A sequence of calls on one object, first call first. *)
Fixpoint apply_setters (calls : list setter_call) (c : gpiod_line_config)
  : option gpiod_line_config :=
  match calls with
  | [] => Some c
  | call :: calls' => c1 ← apply_setter call c; apply_setters calls' c1
  end.

End Calls.

(** The field of [base_config] an option stands for. *)
Definition option_field (o : line_option) : base_config → base_config :=
  match o with
  | OptDirection v => with_direction v
  | OptEdgeDetection v => with_edge v
  | OptBias v => with_bias v
  | OptDrive v => with_drive v
  | OptActiveLow => with_active_low true
  | OptActiveHigh => with_active_low false
  | OptDebouncePeriod v => with_debounce_period v
  | OptEventClock v => with_clock v
  end.

(** ** Notions used by the statements *)

(** The offset list a secondary block holds. *)
Definition secondary_offset_list (s : secondary_config) : list Z :=
  take (num_offsets s) (offsets s).

(** The normalisation the specification describes, in its words: the first 64
    entries, sorted ascending, adjacent duplicates removed. *)
Fixpoint remove_adjacent_duplicates (l : list Z) : list Z :=
  match l with
  | [] => []
  | x :: l' =>
      match l' with
      | [] => [x]
      | y :: _ =>
          if decide (x = y) then remove_adjacent_duplicates l'
          else x :: remove_adjacent_duplicates l'
      end
  end.

Definition spec_normalize (A : list Z) : list Z :=
  remove_adjacent_duplicates (merge_sort Z.le (take 64 A)).

(** The attribute slots a config asks for: one for the output values if any
    is stored, one for a primary debounce period, one per secondary. *)
Definition attr_slots (c : gpiod_line_config) : nat :=
  (if decide (num_output_values c ≠ 0) then 1 else 0)
  + (if decide (debounce_period (primary c) ≠ 0%Z) then 1 else 0)
  + num_secondary c.

(** The slot the first secondary goes to. *)
Definition first_secondary_slot (c : gpiod_line_config) : nat :=
  (if decide (num_output_values c ≠ 0) then 1 else 0)
  + (if decide (debounce_period (primary c) ≠ 0%Z) then 1 else 0).

(** The stored output values. *)
Definition stored_output_values (c : gpiod_line_config) : list output_value :=
  take (num_output_values c) (output_values c).

(** The secondaries in use. *)
Definition used_secondaries (c : gpiod_line_config) : list secondary_config :=
  take (num_secondary c) (secondary c).

(** The values a base config may hold for [gpiod_make_kernel_flags] to
    accept it: the tags of [gpiod.h] or 0. *)
Definition recognized (cfg : base_config) : Prop :=
  (direction cfg = 0 ∨ direction cfg = GPIOD_LINE_CONFIG_DIRECTION_AS_IS
   ∨ direction cfg = GPIOD_LINE_CONFIG_DIRECTION_INPUT
   ∨ direction cfg = GPIOD_LINE_CONFIG_DIRECTION_OUTPUT)%Z
  ∧ (edge cfg = 0 ∨ edge cfg = GPIOD_LINE_CONFIG_EDGE_NONE
     ∨ edge cfg = GPIOD_LINE_CONFIG_EDGE_FALLING
     ∨ edge cfg = GPIOD_LINE_CONFIG_EDGE_RISING
     ∨ edge cfg = GPIOD_LINE_CONFIG_EDGE_BOTH)%Z
  ∧ (drive cfg = 0 ∨ drive cfg = GPIOD_LINE_CONFIG_DRIVE_PUSH_PULL
     ∨ drive cfg = GPIOD_LINE_CONFIG_DRIVE_OPEN_DRAIN
     ∨ drive cfg = GPIOD_LINE_CONFIG_DRIVE_OPEN_SOURCE)%Z
  ∧ (bias cfg = 0 ∨ bias cfg = GPIOD_LINE_CONFIG_BIAS_AS_IS
     ∨ bias cfg = GPIOD_LINE_CONFIG_BIAS_DISABLED
     ∨ bias cfg = GPIOD_LINE_CONFIG_BIAS_PULL_UP
     ∨ bias cfg = GPIOD_LINE_CONFIG_BIAS_PULL_DOWN)%Z
  ∧ (clock cfg = 0 ∨ clock cfg = GPIOD_LINE_CONFIG_EVENT_CLOCK_MONOTONIC
     ∨ clock cfg = GPIOD_LINE_CONFIG_EVENT_CLOCK_REALTIME)%Z.

(** The shape [gpiod_line_config_new] establishes and every setter keeps:
    arrays of their declared sizes and counters within them. *)
Record wf_config (c : gpiod_line_config) : Prop := mk_wf_config {
  wf_secondary_length : length (secondary c) = GPIO_V2_LINE_NUM_ATTRS_MAX;
  wf_num_secondary : num_secondary c ≤ GPIO_V2_LINE_NUM_ATTRS_MAX;
  wf_output_values_length : length (output_values c) = GPIO_V2_LINES_MAX;
  wf_num_output_values : num_output_values c ≤ GPIO_V2_LINES_MAX;
  wf_offsets :
    Forall (λ s, num_offsets s ≤ length (offsets s)) (secondary c)
}.

Definition wf_cfgbuf (b : gpio_v2_line_config) : Prop :=
  length (attrs b) = GPIO_V2_LINE_NUM_ATTRS_MAX.

(** The kernel structure with element [i] of [attrs] replaced. *)
Definition put (i : nat) (a : gpio_v2_line_config_attribute)
    (b : gpio_v2_line_config) : gpio_v2_line_config :=
  with_attrs (<[i := a]> (attrs b)) b.

(** What one pass of the loop over the secondaries leaves in the slot it
    writes, given the previous content [a0] of the slot and the mask [m]
    computed for the block: a debounce attribute if the block has a debounce
    period, else a flags attribute. *)
Definition secondary_attribute `{K : gpio_v2_uapi} (s : secondary_config)
    (a0 : gpio_v2_line_config_attribute) (m : Z)
  : option gpio_v2_line_config_attribute :=
  if decide (debounce_period (config s) ≠ 0%Z)
  then Some (with_mask m
               (with_debounce_period_us (debounce_period (config s))
                  (with_id GPIO_V2_LINE_ATTR_ID_DEBOUNCE a0)))
  else match gpiod_make_kernel_flags (config s) with
       | Ok f => Some (with_mask m
                         (with_attr_flags f
                            (with_id GPIO_V2_LINE_ATTR_ID_FLAGS a0)))
       | Fail _ => None
       end.

(** What the compilation keeps of the kernel structure it was given: the
    two scalar fields, the size of [attrs] and the slots below [k]. *)
Definition frame (buf b' : gpio_v2_line_config) (k : nat) : Prop :=
  flags b' = flags buf ∧ num_attrs b' = num_attrs buf
  ∧ length (attrs b') = length (attrs buf)
  ∧ ∀ j, j < k → attrs b' !! j = attrs buf !! j.

(** A config driven into overflow through the public surface: 65 output
    values for the offsets 0..64. *)
Definition sixty_five_values : list (Z * Z) :=
  (λ k, (Z.of_nat k, 1%Z)) <$> seq 0 65.

(** Ten subset-setter calls with ten different offset lists. *)
Definition ten_subsets : list setter_call :=
  (λ k, ForSubset (OptDirection GPIOD_LINE_CONFIG_DIRECTION_INPUT)
          [Z.of_nat k; (Z.of_nat k + 100)%Z]) <$> seq 0 10.

(** A block that holds both a debounce period and a bias, built with two
    single-offset setters on a new config. *)
Definition debounce_and_bias_config : gpiod_line_config :=
  default gpiod_line_config_new
    (apply_setters (L := libc_insertion)
       [ForOffset (OptDebouncePeriod 10000) 5;
        ForOffset (OptBias GPIOD_LINE_CONFIG_BIAS_PULL_UP) 5]
       gpiod_line_config_new).

Definition debounce_and_bias_block : secondary_config :=
  mk_secondary_config
    (mk_base_config 0 0 0 GPIOD_LINE_CONFIG_BIAS_PULL_UP false 0 10000)
    (replicate GPIO_V2_LINES_MAX 0%Z) 0.

(** The loop of [set_kernel_output_values] read as a recursion over the
    stored values that remain. *)
Fixpoint output_bits (offs : list Z) (l : list output_value) (mask vals : Z)
  : result (Z * Z) :=
  match l with
  | [] => Ok (mask, vals)
  | outval :: l' =>
      match find_bitmap_index (offset outval) offs with
      | None => Fail EINVAL
      | Some idx =>
          output_bits offs l' (gpiod_line_mask_set_bit mask idx)
            (gpiod_line_mask_assign_bit vals idx
               (bool_decide (value outval ≠ 0%Z)))
      end
  end.

(** The first scenario of the specification: direction output, and the
    output values 1, 0, 1 for the offsets 2, 4, 7. *)
Definition three_outputs_config : gpiod_line_config :=
  default gpiod_line_config_new
    (apply_setters (L := libc_insertion)
       [Global (OptDirection GPIOD_LINE_CONFIG_DIRECTION_OUTPUT);
        OutputValues [(2, 1); (4, 0); (7, 1)]%Z]
       gpiod_line_config_new).

Section CompileNotions.
Context `{K : gpio_v2_uapi}.

(** The outcome of the loop over the secondaries started at block [i] and
    slot [attr_idx] with [fuel] blocks to go. Either every block was emitted
    into its own slot, or the loop left the function: through [err_2big],
    when the slots run out or a block holds more offsets than there are
    lines, or with [EINVAL]. *)
Definition secondaries_post (c : gpiod_line_config) (offs : list Z)
    (i fuel attr_idx : nat) (buf : gpio_v2_line_config)
    (out : to_kernel_result + (nat * gpio_v2_line_config)) : Prop :=
  match out with
  | inr (a', b') =>
      a' = attr_idx + fuel ∧ a' ≤ GPIO_V2_LINE_NUM_ATTRS_MAX
      ∧ frame buf b' attr_idx
      ∧ (∀ k, a' ≤ k → attrs b' !! k = attrs buf !! k)
      ∧ ∀ j, j < fuel →
          ∃ s a0 m, secondary c !! (i + j) = Some s
                    ∧ attrs buf !! (attr_idx + j) = Some a0
                    ∧ num_offsets s ≤ length offs
                    ∧ set_secondary_mask s offs = Some (Ok m)
                    ∧ attrs b' !! (attr_idx + j) = secondary_attribute s a0 m
  | inl res =>
      frame buf (cfgbuf res) attr_idx
      ∧ ((res = err_2big c (cfgbuf res)
          ∧ (GPIO_V2_LINE_NUM_ATTRS_MAX < attr_idx + fuel
             ∨ ∃ j s, j < fuel ∧ secondary c !! (i + j) = Some s
                      ∧ length offs < num_offsets s))
         ∨ res = err_return EINVAL c (cfgbuf res))
  end.

(** The slot of the output values, if any value is stored. *)
Definition output_values_slot (c : gpiod_line_config) : nat :=
  if decide (num_output_values c ≠ 0) then 1 else 0.

(** The state at the head of the loop over the secondaries: the two blocks
    before the loop have written the slots below [first_secondary_slot] and
    nothing else. *)
Definition before_secondaries (c : gpiod_line_config) (offs : list Z)
    (buf b2 : gpio_v2_line_config) : Prop :=
  frame buf b2 0
  ∧ (∀ j, first_secondary_slot c ≤ j → attrs b2 !! j = attrs buf !! j)
  ∧ (num_output_values c ≠ 0 →
     ∃ a0 m v, attrs buf !! 0 = Some a0
       ∧ set_kernel_output_values c offs = Some (Ok (m, v))
       ∧ attrs b2 !! 0
         = Some (with_mask m
                   (with_attr_values v
                      (with_id GPIO_V2_LINE_ATTR_ID_OUTPUT_VALUES a0))))
  ∧ (debounce_period (primary c) ≠ 0%Z →
     ∃ a0, attrs buf !! output_values_slot c = Some a0
       ∧ attrs b2 !! output_values_slot c
         = Some (with_mask gpiod_line_mask_fill
                   (with_debounce_period_us (debounce_period (primary c))
                      (with_id GPIO_V2_LINE_ATTR_ID_DEBOUNCE a0)))).

(** Everything the properties below use about one call of the compilation
    on a non-[NULL] config. *)
Definition to_kernel_post (c : gpiod_line_config) (buf : gpio_v2_line_config)
    (offs : list Z) (r : to_kernel_result) : Prop :=
  (* how the function returns *)
  ((ret r = 0%Z ∧ errno r = None ∧ config_after r = Some c
    ∧ too_complex c = false ∧ num_output_values c ≤ length offs)
   ∨ (r = err_2big c (cfgbuf r)
      ∧ (too_complex c = true ∨ length offs < num_output_values c
         ∨ GPIO_V2_LINE_NUM_ATTRS_MAX < attr_slots c
         ∨ ∃ s, s ∈ used_secondaries c ∧ length offs < num_offsets s))
   ∨ (r = err_return EINVAL c (cfgbuf r)
      ∧ too_complex c = false ∧ num_output_values c ≤ length offs))
  (* the two guards in front *)
  ∧ (too_complex c = true ∨ length offs < num_output_values c →
     r = err_2big c buf)
  (* the output values *)
  ∧ (too_complex c = false → num_output_values c ≠ 0 →
     num_output_values c ≤ length offs →
     ∃ a0, attrs buf !! 0 = Some a0
       ∧ match set_kernel_output_values c offs with
         | Some (Ok (m, v)) =>
             attrs (cfgbuf r) !! 0
             = Some (with_mask m
                       (with_attr_values v
                          (with_id GPIO_V2_LINE_ATTR_ID_OUTPUT_VALUES a0)))
         | _ =>
             r = err_return EINVAL c
                   (put 0 (with_id GPIO_V2_LINE_ATTR_ID_OUTPUT_VALUES a0) buf)
         end)
  (* a successful compilation *)
  ∧ (ret r = 0%Z →
     attr_slots c ≤ GPIO_V2_LINE_NUM_ATTRS_MAX
     ∧ num_attrs (cfgbuf r) = Z.of_nat (attr_slots c)
     ∧ gpiod_make_kernel_flags (primary c) = Ok (flags (cfgbuf r))
     ∧ length (attrs (cfgbuf r)) = length (attrs buf)
     ∧ (∀ k, attr_slots c ≤ k → attrs (cfgbuf r) !! k = attrs buf !! k)
     ∧ (debounce_period (primary c) ≠ 0%Z →
        ∃ a0, attrs buf !! output_values_slot c = Some a0
          ∧ attrs (cfgbuf r) !! output_values_slot c
            = Some (with_mask gpiod_line_mask_fill
                      (with_debounce_period_us (debounce_period (primary c))
                         (with_id GPIO_V2_LINE_ATTR_ID_DEBOUNCE a0))))
     ∧ ∀ i, i < num_secondary c →
         ∃ s a0 m, secondary c !! i = Some s
           ∧ attrs buf !! (first_secondary_slot c + i) = Some a0
           ∧ num_offsets s ≤ length offs
           ∧ set_secondary_mask s offs = Some (Ok m)
           ∧ attrs (cfgbuf r) !! (first_secondary_slot c + i)
             = secondary_attribute s a0 m).

End CompileNotions.

(** What holds of every config built from [gpiod_line_config_new] by the
    setters: the shape of [wf_config], a scratch array of its declared size,
    and blocks whose [num_offsets] is still 0. *)
Definition built (c : gpiod_line_config) : Prop :=
  wf_config c
  ∧ length (sorted_offsets c) = GPIO_V2_LINES_MAX
  ∧ Forall (λ s, num_offsets s = 0) (secondary c).

(** The loop of [set_secondary_mask] read as a recursion over the offsets of
    the block that remain. *)
Fixpoint mask_bits (offs : list Z) (l : list Z) (mask : Z) : result Z :=
  match l with
  | [] => Ok mask
  | o :: l' =>
      match find_bitmap_index o offs with
      | None => Fail EINVAL
      | Some idx => mask_bits offs l' (gpiod_line_mask_set_bit mask idx)
      end
  end.

(** What a config must satisfy to compile against the lines [offs]. *)
Definition compilable (c : gpiod_line_config) (offs : list Z) : Prop :=
  too_complex c = false
  ∧ num_output_values c ≤ length offs
  ∧ attr_slots c ≤ GPIO_V2_LINE_NUM_ATTRS_MAX
  ∧ (∀ ov, ov ∈ stored_output_values c → offset ov ∈ offs)
  ∧ recognized (primary c)
  ∧ Forall (λ s, num_offsets s ≤ length offs
                 ∧ (debounce_period (config s) = 0%Z → recognized (config s))
                 ∧ ∀ o, o ∈ secondary_offset_list s → o ∈ offs)
      (used_secondaries c).

(** What one secondary must satisfy to pass the loop of the compilation: it
    holds no more offsets than there are lines ([block_fits]), and its
    options translate unless it carries a debounce period and its offsets are
    all among the lines ([block_translates]). *)
Definition block_fits (offs : list Z) (s : secondary_config) : Prop :=
  num_offsets s ≤ length offs.

Definition block_translates (offs : list Z) (s : secondary_config) : Prop :=
  (debounce_period (config s) = 0%Z → recognized (config s))
  ∧ ∀ o, o ∈ secondary_offset_list s → o ∈ offs.

Definition blocks_pass_before (c : gpiod_line_config) (offs : list Z)
    (j : nat) : Prop :=
  ∀ j' s', j' < j → secondary c !! j' = Some s' →
           block_fits offs s' ∧ block_translates offs s'.

(** The cases in which the first check to fail is one that reports "too
    big": the flag, the number of output values, or, the stored output values
    being all among the lines, the first secondary not to pass is one that
    finds the slots used up or holds more offsets than there are lines. *)
Definition e2big_first (c : gpiod_line_config) (offs : list Z) : Prop :=
  too_complex c = true
  ∨ length offs < num_output_values c
  ∨ ((∀ ov, ov ∈ stored_output_values c → offset ov ∈ offs)
     ∧ ∃ j, j < num_secondary c
         ∧ (first_secondary_slot c + j = GPIO_V2_LINE_NUM_ATTRS_MAX
            ∨ ∃ s, secondary c !! j = Some s ∧ length offs < num_offsets s)
         ∧ blocks_pass_before c offs j).

(** The cases in which a step fails with [EINVAL] before the slots are used
    up: neither guard in front fires, and a stored output value is not among
    the lines, or the first secondary not to pass still has a slot, fits, and
    does not translate. *)
Definition einval_before_slot_limit (c : gpiod_line_config) (offs : list Z)
  : Prop :=
  too_complex c = false
  ∧ num_output_values c ≤ length offs
  ∧ ((∃ ov, ov ∈ stored_output_values c ∧ offset ov ∉ offs)
     ∨ ∃ j s, first_secondary_slot c + j < GPIO_V2_LINE_NUM_ATTRS_MAX
         ∧ secondary c !! j = Some s
         ∧ block_fits offs s ∧ ¬ block_translates offs s
         ∧ blocks_pass_before c offs j).

(** The array that [sanitize_offsets] hands to [qsort] passes the test of
    [comparator_orders], if the call gets as far as sorting. *)
Definition sort_determined (c : gpiod_line_config) (offs : list Z) : bool :=
  let num_offsets := length offs in
  if decide (num_offsets = 0 ∨ num_offsets = 1) then true else
  let count := if decide (GPIO_V2_LINES_MAX < num_offsets)
               then GPIO_V2_LINES_MAX else num_offsets in
  match memcpy (sorted_offsets c) offs count with
  | Some copied => comparator_orders offset_compare (take count copied)
  | None => true
  end.

Definition setter_determined (call : setter_call) (c : gpiod_line_config)
  : bool :=
  match call with
  | ForOffset _ off => too_complex c || sort_determined c [off]
  | ForSubset _ offs => too_complex c || sort_determined c offs
  | _ => true
  end.

(** The same of every call of a sequence, each taken in the state the calls
    before it leave. *)
Fixpoint setters_determined (calls : list setter_call)
    (c : gpiod_line_config) : bool :=
  match calls with
  | [] => true
  | call :: calls' =>
      setter_determined call c
      && match apply_setter (L := libc_insertion) call c with
         | Some c1 => setters_determined calls' c1
         | None => true
         end
  end.

(** A primary debounce period and ten secondaries: eleven attribute slots,
    and nothing that fails before the slots are used up. *)
Definition eleven_slots_config : gpiod_line_config :=
  default gpiod_line_config_new
    (apply_setters (L := libc_insertion)
       (Global (OptDebouncePeriod 100) :: ten_subsets) gpiod_line_config_new).

(** A block whose debounce period does not fit 32 bits: 2^32 + 5. *)
Definition long_debounce_config : gpiod_line_config :=
  default gpiod_line_config_new
    (apply_setters (L := libc_insertion)
       [ForOffset (OptDebouncePeriod 4294967301) 5] gpiod_line_config_new).

(** A config with all 64 output-value entries in use (offsets 0..63). *)
Definition full_outputs_config : gpiod_line_config :=
  default gpiod_line_config_new
    (gpiod_line_config_set_output_values gpiod_line_config_new
       ((λ k, (Z.of_nat k, 1%Z)) <$> seq 0 64)).

(** A new config after one output value has been set. *)
Definition one_output_config : gpiod_line_config :=
  default gpiod_line_config_new
    (apply_setter (L := libc_insertion) (OutputValue 7 1)
       gpiod_line_config_new).

(** A block for the offsets 3 and 5. *)
Definition block_3_5 : secondary_config :=
  mk_secondary_config zero_base_config
    ([3; 5]%Z ++ replicate 62 0%Z) 2.

(** ** [tools/gpiofind.c]

    The program is a function of what its environment returns: the values
    [getopt_long] yields before it yields a negative one, the arguments left
    after the options, the sorted entries [scandir] finds (or its failure),
    and the library functions that open a chip and look a line up in it.
    These functions are defined outside the files at hand and are taken as
    parameters; a failed open is the value of [errno] it leaves. The text the
    program prints is named by the constructor of its outcome. *)

Inductive gpiofind_outcome (name : Type) :=
  | PrintedHelp                       (* print_help(); EXIT_SUCCESS *)
  | PrintedVersion                    (* print_version(); EXIT_SUCCESS *)
  | DiedTryHelp                       (* die("try %s --help") *)
  | Aborted                           (* abort() *)
  | DiedOneName                       (* die("exactly one GPIO line name...") *)
  | DiedScan                          (* die_perror("unable to scan /dev") *)
  | DiedOpen (entry : name)           (* die_perror("unable to open %s") *)
  | PrintedLine (chip_name : name) (offset : Z)  (* "%s %u\n"; EXIT_SUCCESS *)
  | ExitFailure.                      (* EXIT_FAILURE *)
Arguments PrintedHelp {name}.
Arguments PrintedVersion {name}.
Arguments DiedTryHelp {name}.
Arguments Aborted {name}.
Arguments DiedOneName {name}.
Arguments DiedScan {name}.
Arguments DiedOpen {name} entry.
Arguments PrintedLine {name} chip_name offset.
Arguments ExitFailure {name}.

Section Gpiofind.
Context {name chip line : Type}.
Variable EACCES : Z.
Variable gpiod_chip_open_by_name : name → Z + chip.
Variable gpiod_chip_find_line_unique : chip → name → option line.
Variable gpiod_chip_name : chip → name.
Variable gpiod_line_offset : line → Z.

(** The loop [for (i = 0; i < num_chips; i++)] over the entries that
    remain. *)
Fixpoint gpiofind_search (entries : list name) (line_name : name)
  : gpiofind_outcome name :=
  match entries with
  | [] => ExitFailure
  | entry :: entries' =>
      match gpiod_chip_open_by_name entry with
      | inl errno =>
          if decide (errno = EACCES)
          then gpiofind_search entries' line_name
          else DiedOpen entry
      | inr chip =>
          match gpiod_chip_find_line_unique chip line_name with
          | Some l => PrintedLine (gpiod_chip_name chip) (gpiod_line_offset l)
          | None => gpiofind_search entries' line_name
          end
      end
  end.

(** [main]: [optcs] are the non-negative values [getopt_long] returns, in
    order; [args] is [argv] after [optind]; [scandir] is the list of entries
    or [None] for a negative count. The characters are ['h'] = 104,
    ['v'] = 118 and ['?'] = 63. *)
Definition gpiofind_main (optcs : list Z) (args : list name)
    (scandir : option (list name)) : gpiofind_outcome name :=
  match optcs with
  | optc :: _ =>
      if decide (optc = 104%Z) then PrintedHelp
      else if decide (optc = 118%Z) then PrintedVersion
      else if decide (optc = 63%Z) then DiedTryHelp
      else Aborted
  | [] =>
      match args with
      | [line_name] =>
          match scandir with
          | None => DiedScan
          | Some entries => gpiofind_search entries line_name
          end
      | _ => DiedOneName
      end
  end.

(** An entry the search passes over: a chip that cannot be opened for lack
    of permission, or one that opens and has no line of that name. *)
Definition passed_over (line_name : name) (entry : name) : Prop :=
  gpiod_chip_open_by_name entry = inl EACCES
  ∨ ∃ ch, gpiod_chip_open_by_name entry = inr ch
          ∧ gpiod_chip_find_line_unique ch line_name = None.

End Gpiofind.

(** * Properties *)

(** ** Frame lemmas for the setters *)

Section SetterFrames.
Context {L : libc}.

Lemma call_global_eq o c : call_global o c = with_primary (option_field o) c.
Proof. by destruct o. Qed.

Lemma call_subset_eq o c offs :
  call_subset o c offs = subset_setter (option_field o) c offs.
Proof. by destruct o. Qed.

Lemma call_offset_eq o c off :
  call_offset o c off = subset_setter (option_field o) c [off].
Proof. by destruct o. Qed.

(** [sanitize_offsets] writes the scratch array and its counter only. *)
Lemma sanitize_offsets_frame c offs c1 :
  sanitize_offsets c offs = Some c1 →
  ∃ sorted n, c1 = with_num_sorted_offsets n (with_sorted_offsets sorted c).
Proof.
  unfold sanitize_offsets. intros H.
  case_decide.
  - injection H as <-. exists (sorted_offsets c), (num_sorted_offsets c).
    by destruct c.
  - destruct (memcpy _ _ _) as [copied|]; [|done]. simpl in H.
    destruct (sanitize_loop _ _ _ _) as [[sorted' n]|]; [|done].
    injection H as <-. by exists sorted', n.
Qed.

(** With the flag set, [get_secondary_config] returns [NULL] at once. *)
Lemma get_secondary_config_too_complex c offs :
  too_complex c = true → get_secondary_config c offs = Some (c, None).
Proof. unfold get_secondary_config. by intros ->. Qed.

Lemma subset_setter_too_complex f c offs :
  too_complex c = true → subset_setter f c offs = Some c.
Proof.
  intros H. unfold subset_setter.
  by rewrite get_secondary_config_too_complex.
Qed.

(** What [get_secondary_config] may change: the scratch array, the flag (only
    towards [true]) and the number of secondaries (only by allocating the
    next block). *)
Lemma get_secondary_config_frame c offs c1 sec :
  get_secondary_config c offs = Some (c1, sec) →
  primary c1 = primary c ∧ secondary c1 = secondary c
  ∧ output_values c1 = output_values c
  ∧ num_output_values c1 = num_output_values c
  ∧ (too_complex c = true → too_complex c1 = true)
  ∧ match sec with
    | None => num_secondary c1 = num_secondary c
    | Some i =>
        (i < num_secondary c ∧ num_secondary c1 = num_secondary c)
        ∨ (i = num_secondary c ∧ num_secondary c1 = S (num_secondary c)
           ∧ num_secondary c ≠ GPIO_V2_LINE_NUM_ATTRS_MAX)
    end.
Proof.
  unfold get_secondary_config. intros H.
  destruct (too_complex c) eqn:Htc.
  { injection H as <- <-. done. }
  destruct (sanitize_offsets c offs) as [c2|] eqn:Hs; [|done]. simpl in H.
  apply sanitize_offsets_frame in Hs as (sorted & n & ->).
  destruct (find_matching_secondary_config _) as [found|] eqn:Hf; [|done].
  simpl in H. destruct found as [i|].
  - injection H as <- <-. repeat split; try done. left. split; [|done].
    unfold find_matching_secondary_config in Hf. simpl in Hf.
    assert (∀ fuel j k, find_matching_from
              (with_num_sorted_offsets n (with_sorted_offsets sorted c)) j fuel
              = Some (Some k) → k < j + fuel) as Hlt.
    { clear. induction fuel as [|fuel IH]; intros j k Hk; [done|].
      simpl in Hk.
      destruct (secondary c !! j) as [s|]; [|done]. simpl in Hk.
      case_decide.
      - apply IH in Hk. lia.
      - destruct (memcmp_eq _ _ _) as [[]|]; simpl in Hk; [|apply IH in Hk; lia|done].
        injection Hk as <-. lia. }
    apply Hlt in Hf. lia.
  - case_decide; injection H as <- <-; repeat split; try done.
    right. done.
Qed.

(** The subset setters never write [offsets] or [num_offsets] of any block:
    a block keeps the offset list it had, allocated or not. *)
Lemma subset_setter_offsets f c offs c' :
  subset_setter f c offs = Some c' →
  offsets <$> secondary c' = offsets <$> secondary c
  ∧ num_offsets <$> secondary c' = num_offsets <$> secondary c.
Proof.
  unfold subset_setter. intros H.
  destruct (get_secondary_config c offs) as [[c1 sec]|] eqn:Hg; [|done].
  simpl in H. apply get_secondary_config_frame in Hg as (_ & Hsec & _).
  destruct sec as [i|]; [|injection H as <-; by rewrite Hsec].
  destruct (secondary c1 !! i) as [s|] eqn:Hi; [|done]. simpl in H.
  unfold store in H. case_decide; [|done]. simpl in H. injection H as <-.
  simpl. rewrite <- Hsec, !list_fmap_insert. simpl.
  split; apply list_insert_id; by rewrite list_lookup_fmap, Hi.
Qed.

Lemma set_output_values_too_complex c vals :
  too_complex c = true → gpiod_line_config_set_output_values c vals = Some c.
Proof. unfold gpiod_line_config_set_output_values. by intros ->. Qed.

End SetterFrames.

(** ** Kernel-flag translation *)

Section Flags.
Context `{K : gpio_v2_uapi}.

Ltac unfold_tags :=
  unfold GPIOD_LINE_CONFIG_DIRECTION_AS_IS, GPIOD_LINE_CONFIG_DIRECTION_INPUT,
    GPIOD_LINE_CONFIG_DIRECTION_OUTPUT, GPIOD_LINE_CONFIG_EDGE_NONE,
    GPIOD_LINE_CONFIG_EDGE_FALLING, GPIOD_LINE_CONFIG_EDGE_RISING,
    GPIOD_LINE_CONFIG_EDGE_BOTH, GPIOD_LINE_CONFIG_BIAS_AS_IS,
    GPIOD_LINE_CONFIG_BIAS_DISABLED, GPIOD_LINE_CONFIG_BIAS_PULL_UP,
    GPIOD_LINE_CONFIG_BIAS_PULL_DOWN, GPIOD_LINE_CONFIG_DRIVE_PUSH_PULL,
    GPIOD_LINE_CONFIG_DRIVE_OPEN_DRAIN, GPIOD_LINE_CONFIG_DRIVE_OPEN_SOURCE,
    GPIOD_LINE_CONFIG_EVENT_CLOCK_MONOTONIC,
    GPIOD_LINE_CONFIG_EVENT_CLOCK_REALTIME in *.

(** Each switch either accepts its tag and yields a flag word, or rejects it
    with [EINVAL]. *)
Ltac switch_cases :=
  unfold_tags; repeat case_decide;
  first [ left; split; [eauto | lia] | right; split; [done | lia] ].

Lemma switch_direction_cases cfg f :
  ((∃ g, switch_direction cfg f = Ok g)
   ∧ (direction cfg = 0 ∨ direction cfg = 1 ∨ direction cfg = 2
      ∨ direction cfg = 3)%Z)
  ∨ (switch_direction cfg f = Fail EINVAL
     ∧ ¬ (direction cfg = 0 ∨ direction cfg = 1 ∨ direction cfg = 2
          ∨ direction cfg = 3)%Z).
Proof. unfold switch_direction. switch_cases. Qed.

Lemma switch_edge_cases cfg f :
  ((∃ g, switch_edge cfg f = Ok g)
   ∧ (edge cfg = 0 ∨ edge cfg = 1 ∨ edge cfg = 2 ∨ edge cfg = 3
      ∨ edge cfg = 4)%Z)
  ∨ (switch_edge cfg f = Fail EINVAL
     ∧ ¬ (edge cfg = 0 ∨ edge cfg = 1 ∨ edge cfg = 2 ∨ edge cfg = 3
          ∨ edge cfg = 4)%Z).
Proof. unfold switch_edge. switch_cases. Qed.

Lemma switch_drive_cases cfg f :
  ((∃ g, switch_drive cfg f = Ok g)
   ∧ (drive cfg = 0 ∨ drive cfg = 1 ∨ drive cfg = 2 ∨ drive cfg = 3)%Z)
  ∨ (switch_drive cfg f = Fail EINVAL
     ∧ ¬ (drive cfg = 0 ∨ drive cfg = 1 ∨ drive cfg = 2 ∨ drive cfg = 3)%Z).
Proof. unfold switch_drive. switch_cases. Qed.

Lemma switch_bias_cases cfg f :
  ((∃ g, switch_bias cfg f = Ok g)
   ∧ (bias cfg = 0 ∨ bias cfg = 1 ∨ bias cfg = 2 ∨ bias cfg = 3
      ∨ bias cfg = 4)%Z)
  ∨ (switch_bias cfg f = Fail EINVAL
     ∧ ¬ (bias cfg = 0 ∨ bias cfg = 1 ∨ bias cfg = 2 ∨ bias cfg = 3
          ∨ bias cfg = 4)%Z).
Proof. unfold switch_bias. switch_cases. Qed.

Lemma switch_clock_cases cfg f :
  ((∃ g, switch_clock cfg f = Ok g)
   ∧ (clock cfg = 0 ∨ clock cfg = 1 ∨ clock cfg = 2)%Z)
  ∨ (switch_clock cfg f = Fail EINVAL
     ∧ ¬ (clock cfg = 0 ∨ clock cfg = 1 ∨ clock cfg = 2)%Z).
Proof. unfold switch_clock. switch_cases. Qed.

(** The translation has two outcomes only: a flag word for a recognized
    config, [EINVAL] for any other. *)
Lemma make_kernel_flags_cases (cfg : base_config) :
  ((∃ f, gpiod_make_kernel_flags cfg = Ok f) ∧ recognized cfg)
  ∨ (gpiod_make_kernel_flags cfg = Fail EINVAL ∧ ¬ recognized cfg).
Proof.
  unfold gpiod_make_kernel_flags, recognized. unfold_tags.
  destruct (switch_direction_cases cfg 0) as [[[f1 ->] HD]|[-> HD]];
    [|right; split; [done|intros (?&?&?&?&?); auto]].
  simpl.
  destruct (switch_edge_cases cfg f1) as [[[f2 ->] HE]|[-> HE]];
    [|right; split; [done|intros (?&?&?&?&?); auto]].
  simpl.
  destruct (switch_drive_cases cfg f2) as [[[f3 ->] HR]|[-> HR]];
    [|right; split; [done|intros (?&?&?&?&?); auto]].
  simpl.
  destruct (switch_bias_cases cfg f3) as [[[f4 ->] HB]|[-> HB]];
    [|right; split; [done|intros (?&?&?&?&?); auto]].
  simpl.
  destruct (switch_clock_cases cfg
              (if active_low cfg
               then Z.lor f4 GPIO_V2_LINE_FLAG_ACTIVE_LOW else f4))
    as [[[f5 ->] HC]|[-> HC]]; [|right; split; [done|intros (?&?&?&?&?); auto]].
  simpl. left. split; [eauto|done].
Qed.

Lemma make_kernel_flags_errno (cfg : base_config) e :
  gpiod_make_kernel_flags cfg = Fail e → e = EINVAL.
Proof.
  destruct (make_kernel_flags_cases cfg) as [[[f ->] _]|[-> _]]; [done|].
  by intros [= <-].
Qed.

End Flags.

(** C8. [gpiod_make_kernel_flags] fails with [EINVAL] exactly on the base
    configs that hold a value outside the recognized tags (or 0) for
    direction, edge, drive, bias or event clock, and returns a flag word
    exactly on the base configs that hold recognized values only. *)
Theorem make_kernel_flags_einval_iff_unrecognized
    `{K : gpio_v2_uapi} (cfg : base_config) :
  (gpiod_make_kernel_flags cfg = Fail EINVAL ↔ ¬ recognized cfg)
  ∧ ((∃ f, gpiod_make_kernel_flags cfg = Ok f) ↔ recognized cfg).
Proof.
  destruct (make_kernel_flags_cases cfg) as [[[f Hf] Hr]|[Hf Hr]];
    rewrite Hf; split; split; intros H; try done; eauto.
  by destruct H.
Qed.

(** C3, evaluated. A primary config with direction output and edge rising:
    the edge case of the second switch clears the bits of
    [GPIOD_LINE_CONFIG_DIRECTION_OUTPUT] (the library tag 3) and not
    [GPIO_V2_LINE_FLAG_OUTPUT], so with the kernel's flag values the compiled
    word is [OUTPUT | EDGE_RISING | INPUT]: the input flag is set and the
    output flag is still set. *)
Theorem edge_rising_keeps_output_flag :
  let c := gpiod_line_config_set_edge_detection
             (gpiod_line_config_set_direction gpiod_line_config_new
                GPIOD_LINE_CONFIG_DIRECTION_OUTPUT)
             GPIOD_LINE_CONFIG_EDGE_RISING in
  gpiod_make_kernel_flags (K := linux_uapi) (primary c) = Ok 28%Z
  ∧ (flags ∘ cfgbuf <$>
       gpiod_line_config_to_kernel (K := linux_uapi) (Some c)
         zero_kernel_config [1%Z]) = Some 28%Z
  ∧ Z.land 28 (@GPIO_V2_LINE_FLAG_INPUT linux_uapi)
    = @GPIO_V2_LINE_FLAG_INPUT linux_uapi
  ∧ Z.land 28 (@GPIO_V2_LINE_FLAG_OUTPUT linux_uapi)
    = @GPIO_V2_LINE_FLAG_OUTPUT linux_uapi.
Proof. vm_compute. done. Qed.

(** ** Compilation of a [NULL] config *)

(** C10. With a [NULL] config the compilation returns 0 for every offset
    list, stores [GPIO_V2_LINE_FLAG_INPUT] in the [flags] field of the kernel
    structure and leaves [attrs], [num_attrs] and [errno] as they were. *)
Theorem to_kernel_null_config
    `{K : gpio_v2_uapi} (buf : gpio_v2_line_config) (offs : list Z) :
  ∃ r, gpiod_line_config_to_kernel None buf offs = Some r
       ∧ ret r = 0%Z
       ∧ errno r = None
       ∧ flags (cfgbuf r) = GPIO_V2_LINE_FLAG_INPUT
       ∧ attrs (cfgbuf r) = attrs buf
       ∧ num_attrs (cfgbuf r) = num_attrs buf.
Proof. eexists. by repeat split. Qed.

(** ** The result of [qsort] *)

Lemma comparator_orders_spec cmp l :
  comparator_orders cmp l = true →
  orders_totally cmp l
  ∧ ∀ a b, a ∈ l → b ∈ l → cmp a b = 0%Z → a = b.
Proof.
  unfold comparator_orders. rewrite forallb_forall. intros H.
  assert (∀ a b, a ∈ l → b ∈ l →
            Bool.eqb (cmp a b <? 0)%Z (0 <? cmp b a)%Z = true
            ∧ implb (cmp a b =? 0)%Z (a =? b)%Z = true
            ∧ ∀ c, c ∈ l →
                implb ((cmp a b <=? 0)%Z && (cmp b c <=? 0)%Z)
                      (cmp a c <=? 0)%Z = true) as H'.
  { intros a b Ha Hb. apply list_elem_of_In in Ha, Hb.
    specialize (H a Ha). rewrite forallb_forall in H. specialize (H b Hb).
    apply andb_prop in H as [H H3]. apply andb_prop in H as [H1 H2].
    split; [done|]. split; [done|]. intros c Hc.
    rewrite forallb_forall in H3. apply H3. by apply list_elem_of_In. }
  split; [split|].
  - intros a b Ha Hb. destruct (H' a b Ha Hb) as (H1 & _).
    apply Bool.eqb_prop in H1.
    rewrite <- Z.ltb_lt, <- (Z.ltb_lt 0). by rewrite H1.
  - intros a b c Ha Hb Hc Hab Hbc. destruct (H' a b Ha Hb) as (_ & _ & H3).
    specialize (H3 c Hc).
    apply Z.leb_le in Hab, Hbc. rewrite Hab, Hbc in H3. simpl in H3.
    by apply Z.leb_le.
  - intros a b Ha Hb Hz. destruct (H' a b Ha Hb) as (_ & H2 & _).
    apply Z.eqb_eq in Hz. rewrite Hz in H2. simpl in H2. by apply Z.eqb_eq.
Qed.

Lemma Sorted_StronglySorted_on (R : relation Z) (l0 l : list Z) :
  (∀ a b c, a ∈ l0 → b ∈ l0 → c ∈ l0 → R a b → R b c → R a c) →
  l ⊆ l0 → Sorted R l → StronglySorted R l.
Proof.
  intros Htrans Hsub Hs. induction Hs as [|x l Hs IH Hhd]; [constructor|].
  assert (l ⊆ l0) as Hsub' by (intros z Hz; apply Hsub; by right).
  specialize (IH Hsub'). constructor; [done|].
  destruct Hhd as [|y l Hxy]; [constructor|].
  apply StronglySorted_inv in IH as [_ Hall].
  constructor; [done|].
  rewrite Forall_forall in Hall |- *. intros z Hz.
  apply (Htrans x y z); [apply Hsub; by left|apply Hsub; by right; left| |done|].
  - apply Hsub. by right; right.
  - by apply Hall.
Qed.

Section SortResult.
Context {L : libc}.

Lemma length_qsort cmp l : length (qsort cmp l) = length l.
Proof. apply Permutation_length, qsort_Permutation. Qed.

(** On an array that the comparator orders, every [qsort] returns the list
    the insertion sort returns. *)
Lemma qsort_determined cmp l :
  comparator_orders cmp l = true → qsort cmp l = insertion_sort cmp l.
Proof.
  intros Hc. apply comparator_orders_spec in Hc as [Hord Hinj].
  pose proof Hord as [Hrev Htrans].
  apply (StronglySorted_unique_strong (λ a b, (cmp a b ≤ 0)%Z)).
  - intros x1 x2 Hx1 Hx2 H12 H21.
    rewrite qsort_Permutation in Hx1.
    rewrite insertion_sort_Permutation in Hx2.
    apply Hinj; [done..|].
    pose proof (proj1 (Hrev x1 x2 Hx1 Hx2)). lia.
  - apply (Sorted_StronglySorted_on _ l); [done| |by apply qsort_Sorted].
    intros z. by rewrite qsort_Permutation.
  - apply (Sorted_StronglySorted_on _ l);
      [done| |by apply insertion_sort_Sorted].
    intros z. by rewrite insertion_sort_Permutation.
  - by rewrite qsort_Permutation, insertion_sort_Permutation.
Qed.

(** So a setter call whose sort is determined does what it does with the
    insertion sort. *)
Lemma sanitize_offsets_reference c offs :
  sort_determined c offs = true →
  sanitize_offsets c offs = sanitize_offsets (L := libc_insertion) c offs.
Proof.
  unfold sort_determined, sanitize_offsets. intros H.
  case_decide; [done|].
  destruct (memcpy _ _ _) as [copied|]; [|done]. simpl.
  by rewrite (qsort_determined _ _ H).
Qed.

Lemma subset_setter_reference f c offs :
  too_complex c || sort_determined c offs = true →
  subset_setter f c offs = subset_setter (L := libc_insertion) f c offs.
Proof.
  intros H. unfold subset_setter, get_secondary_config.
  destruct (too_complex c); [done|]. simpl in H.
  by rewrite (sanitize_offsets_reference c offs H).
Qed.

Lemma apply_setter_reference call c :
  setter_determined call c = true →
  apply_setter call c = apply_setter (L := libc_insertion) call c.
Proof.
  destruct call as [o|o off|o offs|off val|vals]; intros H; simpl in H;
    unfold apply_setter; [done| | |done..].
  - rewrite !call_offset_eq. by apply subset_setter_reference.
  - rewrite !call_subset_eq. by apply subset_setter_reference.
Qed.

Lemma apply_setters_reference calls :
  ∀ c, setters_determined calls c = true →
       apply_setters calls c = apply_setters (L := libc_insertion) calls c.
Proof.
  induction calls as [|call calls IH]; intros c H; simpl; [done|].
  simpl in H. apply andb_prop in H as [H1 H2].
  rewrite (apply_setter_reference call c H1).
  destruct (apply_setter call c) as [c1|]; simpl; [|done].
  by apply IH.
Qed.

End SortResult.

(** ** Offset normalisation and coalescing *)

(** C1, evaluated. On a new config, the subset setter for the direction with
    the offsets 7, 3 allocates block 0 and stores the direction there, but the
    block's offset list stays empty where the normalisation of the
    specification gives 3, 7: nothing copies the scratch array into the block.
    The scratch array itself holds 0, 7, because [memcpy] is given the element
    count as its byte count and copies two bytes. This holds with every
    [qsort]: the array handed to it is 7, 0, which the comparator orders. *)
Theorem subset_setter_leaves_block_unseeded {L : libc} :
  ∃ c', gpiod_line_config_set_direction_subset gpiod_line_config_new
          GPIOD_LINE_CONFIG_DIRECTION_OUTPUT [7; 3]%Z = Some c'
        ∧ num_secondary c' = 1
        ∧ (direction ∘ config <$> secondary c' !! 0)
          = Some GPIOD_LINE_CONFIG_DIRECTION_OUTPUT
        ∧ (secondary_offset_list <$> secondary c' !! 0) = Some []
        ∧ spec_normalize [7; 3]%Z = [3; 7]%Z
        ∧ take (num_sorted_offsets c') (sorted_offsets c') = [0; 7]%Z.
Proof.
  (* the sort is handed 7, 0, which the comparator orders *)
  unfold gpiod_line_config_set_direction_subset.
  rewrite (subset_setter_reference (L := L)) by (by vm_compute).
  eexists. split; [vm_compute; reflexivity|]. by vm_compute.
Qed.

(** C2, evaluated. On a new config, setting the direction and then the bias
    for the same offsets 3, 5 allocates two blocks, the direction in block 0
    and the bias in block 1; setting the direction twice for 3, 5 allocates
    two blocks as well. No block ever holds an offset list of two elements,
    so the search for a matching block fails each time, with every
    [qsort]. *)
Theorem same_offsets_allocate_a_block_per_call {L : libc} :
  (∃ c', apply_setters
           [ForSubset (OptDirection GPIOD_LINE_CONFIG_DIRECTION_INPUT) [3; 5];
            ForSubset (OptBias GPIOD_LINE_CONFIG_BIAS_PULL_UP) [3; 5]]%Z
           gpiod_line_config_new = Some c'
         ∧ num_secondary c' = 2
         ∧ ((λ s, (direction (config s), bias (config s)))
              <$> used_secondaries c')
           = [(GPIOD_LINE_CONFIG_DIRECTION_INPUT, 0%Z);
              (0%Z, GPIOD_LINE_CONFIG_BIAS_PULL_UP)])
  ∧ (∃ c', apply_setters
             [ForSubset (OptDirection GPIOD_LINE_CONFIG_DIRECTION_INPUT) [3; 5];
              ForSubset (OptDirection GPIOD_LINE_CONFIG_DIRECTION_INPUT) [3; 5]]%Z
             gpiod_line_config_new = Some c'
           ∧ num_secondary c' = 2).
Proof.
  rewrite !(apply_setters_reference (L := L)) by (by vm_compute).
  split; eexists; (split; [vm_compute; reflexivity|]); by vm_compute.
Qed.

(** ** Mutation after overflow *)

(** C7, counterexample. After 65 output values have set [too_complex], the
    global direction setter still changes the stored primary block. *)
Lemma global_setter_writes_after_overflow :
  ∃ c, gpiod_line_config_set_output_values gpiod_line_config_new
         sixty_five_values = Some c
       ∧ too_complex c = true
       ∧ apply_setter (L := libc_insertion)
           (Global (OptDirection GPIOD_LINE_CONFIG_DIRECTION_INPUT)) c
         ≠ Some c.
Proof.
  eexists. split; [vm_compute; reflexivity|]. vm_compute.
  split; [done|]. discriminate.
Qed.

(** With the flag set a call changes nothing, except that a global setter
    assigns its option in the primary block. *)
Lemma apply_setter_too_complex {L : libc}
    (call : setter_call) (c : gpiod_line_config) :
  too_complex c = true →
  apply_setter call c
  = Some (match call with
          | Global o => with_primary (option_field o) c
          | _ => c
          end).
Proof.
  intros Htc. destruct call as [o|o off|o offs|off val|vals]; simpl.
  - by rewrite call_global_eq.
  - rewrite call_offset_eq. by apply subset_setter_too_complex.
  - rewrite call_subset_eq. by apply subset_setter_too_complex.
  - by apply set_output_values_too_complex.
  - by apply set_output_values_too_complex.
Qed.

(** C7, amended. Once [too_complex] is set, every single-offset setter,
    every subset setter and both output-value setters leave the whole object
    unchanged; a global setter still assigns its option in the primary block
    and changes nothing else, the flag included. *)
Theorem setters_after_overflow {L : libc}
    (call : setter_call) (c : gpiod_line_config) :
  too_complex c = true →
  apply_setter call c
  = Some (match call with
          | Global o => with_primary (option_field o) c
          | _ => c
          end).
Proof.
  intros Htc. destruct call as [o|o off|o offs|off val|vals]; simpl.
  - (* global: the assignment to the primary block is unconditional *)
    by rewrite call_global_eq.
  - (* single offset: [get_secondary_config] returns [NULL] *)
    rewrite call_offset_eq. unfold subset_setter.
    by rewrite get_secondary_config_too_complex.
  - (* subset: likewise *)
    rewrite call_subset_eq. unfold subset_setter.
    by rewrite get_secondary_config_too_complex.
  - (* output values: the function returns at its first test *)
    unfold gpiod_line_config_set_output_value,
      gpiod_line_config_set_output_values. by rewrite Htc.
  - unfold gpiod_line_config_set_output_values. by rewrite Htc.
Qed.

Lemma setters_after_overflow_witness :
  too_complex (with_too_complex true gpiod_line_config_new) = true
  ∧ apply_setter (L := libc_insertion)
      (ForSubset (OptBias GPIOD_LINE_CONFIG_BIAS_PULL_UP) [3; 5]%Z)
      (with_too_complex true gpiod_line_config_new)
    = Some (with_too_complex true gpiod_line_config_new).
Proof.
  split; [reflexivity|].
  apply (setters_after_overflow (L := libc_insertion)
           (ForSubset (OptBias GPIOD_LINE_CONFIG_BIAS_PULL_UP) [3; 5]%Z)
           (with_too_complex true gpiod_line_config_new)).
  reflexivity.
Defined.

(** ** The kernel structure under the writes of the compilation *)

Lemma update_attr_put i f b a0 :
  attrs b !! i = Some a0 → update_attr i f b = Some (put i (f a0) b).
Proof.
  intros H. unfold update_attr, store. rewrite H. simpl.
  apply lookup_lt_Some in H. by case_decide.
Qed.

Lemma put_put i a a' b : put i a (put i a' b) = put i a b.
Proof. unfold put, with_attrs. simpl. by rewrite list_insert_insert_eq. Qed.

Lemma lookup_put_eq i a b :
  i < length (attrs b) → attrs (put i a b) !! i = Some a.
Proof. intros H. simpl. by apply list_lookup_insert_eq. Qed.

Lemma lookup_put_ne i j a b : i ≠ j → attrs (put i a b) !! j = attrs b !! j.
Proof. intros H. simpl. by apply list_lookup_insert_ne. Qed.

Lemma length_put i a b : length (attrs (put i a b)) = length (attrs b).
Proof. simpl. apply length_insert. Qed.

Lemma frame_refl buf k : frame buf buf k.
Proof. by repeat split. Qed.

Lemma frame_put buf i a k : k ≤ i → frame buf (put i a buf) k.
Proof.
  intros H. repeat split; simpl; [apply length_insert|].
  intros j Hj. apply list_lookup_insert_ne. lia.
Qed.

Lemma frame_trans b1 b2 b3 k k' :
  k ≤ k' → frame b1 b2 k → frame b2 b3 k' → frame b1 b3 k.
Proof.
  intros Hk (F1 & N1 & L1 & A1) (F2 & N2 & L2 & A2).
  repeat split; [congruence..|].
  intros j Hj. rewrite A2 by lia. by apply A1.
Qed.

(** ** The helpers of the compilation are defined and fail with [EINVAL] only *)

Lemma set_secondary_mask_from_defined s offs fuel :
  ∀ i m, i + fuel ≤ length (offsets s) →
  ∃ r, set_secondary_mask_from s offs i fuel m = Some r
       ∧ (r = Fail EINVAL ∨ ∃ m', r = Ok m').
Proof.
  induction fuel as [|fuel IH]; intros i m Hlen; simpl.
  { eexists. split; [done|]. right. eauto. }
  destruct (lookup_lt_is_Some_2 (offsets s) i) as [o Ho]; [lia|].
  rewrite Ho. simpl.
  destruct (find_bitmap_index o offs) as [idx|].
  - apply IH. lia.
  - eexists. split; [done|]. by left.
Qed.

Lemma set_secondary_mask_defined s offs :
  num_offsets s ≤ length (offsets s) →
  ∃ r, set_secondary_mask s offs = Some r
       ∧ (r = Fail EINVAL ∨ ∃ m', r = Ok m').
Proof. intros H. by apply set_secondary_mask_from_defined. Qed.

Lemma set_kernel_output_values_from_defined c offs fuel :
  ∀ i m v, i + fuel ≤ length (output_values c) →
  ∃ r, set_kernel_output_values_from c offs i fuel m v = Some r
       ∧ (r = Fail EINVAL ∨ ∃ mv, r = Ok mv).
Proof.
  induction fuel as [|fuel IH]; intros i m v Hlen; simpl.
  { eexists. split; [done|]. right. eauto. }
  destruct (lookup_lt_is_Some_2 (output_values c) i) as [o Ho]; [lia|].
  rewrite Ho. simpl.
  destruct (find_bitmap_index (offset o) offs) as [idx|].
  - apply IH. lia.
  - eexists. split; [done|]. by left.
Qed.

Lemma set_kernel_output_values_defined c offs :
  wf_config c →
  ∃ r, set_kernel_output_values c offs = Some r
       ∧ (r = Fail EINVAL ∨ ∃ mv, r = Ok mv).
Proof.
  intros [_ _ Hlen Hnum _]. apply set_kernel_output_values_from_defined.
  simpl. lia.
Qed.

Section CompileProperties.
Context `{K : gpio_v2_uapi}.

(** The payload of one pass of the loop: the slot receives [id] and the
    member that goes with it, or the pass leaves the function with [EINVAL]
    after [id] has been written. *)
Lemma to_kernel_secondary_payload_spec c s attr_idx buf a0 :
  attrs buf !! attr_idx = Some a0 →
  ∃ a1,
    ((∀ m, secondary_attribute s a0 m = Some (with_mask m a1))
     ∧ to_kernel_secondary_payload c s attr_idx buf
       = Some (inr (put attr_idx a1 buf)))
    ∨ to_kernel_secondary_payload c s attr_idx buf
      = Some (inl (err_return EINVAL c (put attr_idx a1 buf))).
Proof.
  intros Ha0. unfold to_kernel_secondary_payload, secondary_attribute.
  case_decide as Hdb.
  - eexists. left. split; [done|]. by rewrite (update_attr_put _ _ _ a0).
  - rewrite (update_attr_put _ _ _ a0) by done. simpl.
    destruct (gpiod_make_kernel_flags (config s)) as [f|e] eqn:Hf.
    + eexists. left. split; [done|].
      rewrite (update_attr_put _ _ _ (with_id GPIO_V2_LINE_ATTR_ID_FLAGS a0)).
      * simpl. by rewrite put_put.
      * apply lookup_put_eq. by apply lookup_lt_Some in Ha0.
    + apply make_kernel_flags_errno in Hf as ->. eexists. by right.
Qed.

Lemma to_kernel_secondaries_spec c offs :
  wf_config c →
  ∀ fuel i attr_idx buf,
    i + fuel ≤ num_secondary c →
    wf_cfgbuf buf →
    attr_idx ≤ GPIO_V2_LINE_NUM_ATTRS_MAX →
    ∃ out, to_kernel_secondaries c offs i fuel attr_idx buf = Some out
           ∧ secondaries_post c offs i fuel attr_idx buf out.
Proof.
  intros Hwf. induction fuel as [|fuel IH]; intros i attr_idx buf Hi Hbuf Ha.
  { eexists. split; [done|]. simpl. repeat split; try done; try lia. }
  simpl. case_decide as Hmax.
  { eexists. split; [done|]. simpl. split; [apply frame_refl|].
    left. split; [done|]. left. lia. }
  destruct Hwf as [Hslen Hsnum Hvlen Hvnum Hoffs].
  destruct (lookup_lt_is_Some_2 (secondary c) i) as [s Hs]; [lia|].
  rewrite Hs. simpl.
  case_decide as Hlines.
  { eexists. split; [done|]. simpl. split; [apply frame_refl|].
    left. split; [done|]. right. exists 0, s. rewrite Nat.add_0_r.
    repeat split; [lia|done|done]. }
  assert (attr_idx < length (attrs buf)) as Hlt by (unfold wf_cfgbuf in Hbuf; lia).
  destruct (lookup_lt_is_Some_2 (attrs buf) attr_idx Hlt) as [a0 Ha0].
  assert (num_offsets s ≤ length (offsets s)) as Hso.
  { rewrite Forall_lookup in Hoffs. by apply (Hoffs i). }
  destruct (set_secondary_mask_defined s offs Hso) as (rm & Hrm & Hrm').
  unfold and_then.
  destruct (to_kernel_secondary_payload_spec c s attr_idx buf a0 Ha0)
    as [a1 [(Hattr & Hp)|Hp]]; rewrite Hp; simpl.
  2:{ eexists. split; [done|]. simpl. split; [by apply frame_put|]. by right. }
  rewrite Hrm. simpl.
  destruct Hrm' as [->|[m ->]].
  { eexists. split; [done|]. simpl. split; [by apply frame_put|]. by right. }
  rewrite (update_attr_put _ _ _ a1) by (by apply lookup_put_eq).
  simpl. rewrite put_put.
  destruct (IH (S i) (S attr_idx) (put attr_idx (with_mask m a1) buf))
    as (out & Hout & Hpost); [lia| |lia|].
  { unfold wf_cfgbuf. by rewrite length_put. }
  exists out. split; [done|].
  destruct out as [res|[a' b']]; simpl in *.
  - destruct Hpost as (Hfr & Hcase). split.
    { eapply frame_trans; [|by apply (frame_put buf attr_idx)|exact Hfr]. lia. }
    destruct Hcase as [(Hres & Hcase)|Hres]; [|by right].
    left. split; [done|]. destruct Hcase as [?|(j & s' & Hj & Hs' & Hn)].
    + left. lia.
    + right. exists (S j), s'. split; [lia|]. split; [|done].
      by replace (i + S j) with (S (i + j)) by lia.
  - destruct Hpost as (-> & Hle & Hfr & Hhigh & Hall).
    split; [lia|]. split; [lia|]. split.
    { eapply frame_trans; [|by apply (frame_put buf attr_idx)|exact Hfr]. lia. }
    split.
    { intros k Hk. rewrite Hhigh by lia. apply list_lookup_insert_ne. lia. }
    intros [|j] Hj.
    + exists s, a0, m. rewrite !Nat.add_0_r.
      split; [done|]. split; [done|]. split; [lia|]. split; [done|].
      destruct Hfr as (_ & _ & _ & Hlow). rewrite Hlow by lia.
      rewrite Hattr. by apply lookup_put_eq.
    + destruct (Hall j) as (s' & a0' & m' & Hs' & Ha0' & Hn' & Hm' & Hat');
        [lia|].
      exists s', a0', m'.
      replace (i + S j) with (S (i + j)) by lia.
      replace (attr_idx + S j) with (S (attr_idx + j)) by lia.
      split; [done|]. split; [|done].
      rewrite <- Ha0'. symmetry. apply list_lookup_insert_ne. lia.
Qed.

(** The block for the output values: it leaves through [err_2big] when
    there are more stored values than lines, with [EINVAL] when a stored
    offset is not among the lines, and otherwise fills slot 0. *)
Lemma to_kernel_output_values_spec c buf offs :
  wf_config c → wf_cfgbuf buf →
  ∃ out, to_kernel_output_values c buf offs = Some out
    ∧ match out with
      | inl res =>
          num_output_values c ≠ 0
          ∧ ((length offs < num_output_values c ∧ res = err_2big c buf)
             ∨ (num_output_values c ≤ length offs
                ∧ ∃ a0, attrs buf !! 0 = Some a0
                  ∧ set_kernel_output_values c offs = Some (Fail EINVAL)
                  ∧ res = err_return EINVAL c
                            (put 0 (with_id GPIO_V2_LINE_ATTR_ID_OUTPUT_VALUES a0)
                               buf)))
      | inr (k, b1) =>
          (num_output_values c = 0 ∧ k = 0 ∧ b1 = buf)
          ∨ (num_output_values c ≠ 0 ∧ num_output_values c ≤ length offs
             ∧ k = 1
             ∧ ∃ a0 m v, attrs buf !! 0 = Some a0
               ∧ set_kernel_output_values c offs = Some (Ok (m, v))
               ∧ b1 = put 0 (with_mask m
                               (with_attr_values v
                                  (with_id GPIO_V2_LINE_ATTR_ID_OUTPUT_VALUES a0)))
                        buf)
      end.
Proof.
  intros Hwf Hbuf. unfold to_kernel_output_values.
  case_decide as Hn; [|eexists; split; [done|]; left; split; [lia|done]].
  case_decide as Hl.
  { eexists. split; [done|]. split; [done|]. by left. }
  destruct (lookup_lt_is_Some_2 (attrs buf) 0) as [a0 Ha0].
  { unfold wf_cfgbuf in Hbuf. rewrite Hbuf. unfold GPIO_V2_LINE_NUM_ATTRS_MAX.
    lia. }
  rewrite (update_attr_put _ _ _ a0) by done. simpl.
  destruct (set_kernel_output_values_defined c offs Hwf) as (r & Hr & Hr').
  rewrite Hr. simpl. destruct Hr' as [->|[[m v] ->]].
  - eexists. split; [done|]. split; [done|]. right. split; [lia|].
    by exists a0.
  - rewrite (update_attr_put _ _ _
               (with_id GPIO_V2_LINE_ATTR_ID_OUTPUT_VALUES a0))
      by (apply lookup_put_eq; by apply lookup_lt_Some in Ha0).
    simpl. rewrite put_put. eexists. split; [done|]. right.
    split; [done|]. split; [lia|]. split; [done|].
    by exists a0, m, v.
Qed.

Lemma to_kernel_primary_debounce_spec c k buf :
  wf_cfgbuf buf → k ≤ 1 →
  ∃ k' b2, to_kernel_primary_debounce c k buf = Some (k', b2)
    ∧ ((debounce_period (primary c) = 0%Z ∧ k' = k ∧ b2 = buf)
       ∨ (debounce_period (primary c) ≠ 0%Z ∧ k' = S k
          ∧ ∃ a0, attrs buf !! k = Some a0
            ∧ b2 = put k (with_mask gpiod_line_mask_fill
                            (with_debounce_period_us
                               (debounce_period (primary c))
                               (with_id GPIO_V2_LINE_ATTR_ID_DEBOUNCE a0)))
                     buf)).
Proof.
  intros Hbuf Hk. unfold to_kernel_primary_debounce.
  case_decide as Hd.
  - destruct (lookup_lt_is_Some_2 (attrs buf) k) as [a0 Ha0].
    { unfold wf_cfgbuf in Hbuf. rewrite Hbuf.
      unfold GPIO_V2_LINE_NUM_ATTRS_MAX. lia. }
    rewrite (update_attr_put _ _ _ a0) by done. simpl.
    eexists _, _. split; [done|]. right. split; [done|]. split; [done|].
    by exists a0.
  - eexists _, _. split; [done|]. left. split; [|done].
    destruct (decide (debounce_period (primary c) = 0%Z)); [done|].
    by destruct Hd.
Qed.

Lemma before_secondaries_reached c buf offs k b1 :
  wf_config c → wf_cfgbuf buf →
  to_kernel_output_values c buf offs = Some (inr (k, b1)) →
  ∃ b2, to_kernel_primary_debounce c k b1
        = Some (first_secondary_slot c, b2)
        ∧ wf_cfgbuf b2 ∧ before_secondaries c offs buf b2
        ∧ num_output_values c ≤ length offs.
Proof.
  intros Hwf Hbuf H1.
  destruct (to_kernel_output_values_spec c buf offs Hwf Hbuf)
    as (out & Hout & P1).
  rewrite H1 in Hout. injection Hout as <-.
  assert (wf_cfgbuf b1 ∧ k ≤ 1 ∧ k = output_values_slot c) as (Hb1 & Hk & Hslot).
  { unfold output_values_slot.
    destruct P1 as [(Hn & -> & ->)|(Hn & _ & -> & a0 & m & v & _ & _ & ->)].
    - split; [done|]. split; [lia|]. by case_decide.
    - split; [unfold wf_cfgbuf; by rewrite length_put|]. split; [lia|].
      by case_decide. }
  destruct (to_kernel_primary_debounce_spec c k b1 Hb1 Hk)
    as (k' & b2 & H2 & P2).
  exists b2.
  assert (k' = first_secondary_slot c) as ->.
  { unfold first_secondary_slot. fold (output_values_slot c).
    rewrite <- Hslot.
    destruct P2 as [(Hd & -> & _)|(Hd & -> & _)]; case_decide; try done; lia. }
  split; [done|].
  assert (first_secondary_slot c
          = k + (if decide (debounce_period (primary c) ≠ 0%Z) then 1 else 0))
    as Hfirst.
  { unfold first_secondary_slot. fold (output_values_slot c). by rewrite Hslot. }
  assert (frame buf b1 0
          ∧ (∀ j, k ≤ j → attrs b1 !! j = attrs buf !! j)
          ∧ (num_output_values c ≠ 0 →
             ∃ a0 m v, attrs buf !! 0 = Some a0
               ∧ set_kernel_output_values c offs = Some (Ok (m, v))
               ∧ attrs b1 !! 0
                 = Some (with_mask m
                           (with_attr_values v
                              (with_id GPIO_V2_LINE_ATTR_ID_OUTPUT_VALUES a0))))
          ∧ num_output_values c ≤ length offs)
    as (Hfr1 & Hhigh1 & Hov1 & Hle).
  { destruct P1 as [(Hn & -> & ->)|(Hn & Hle & -> & a0 & m & v & Ha0 & Hs & ->)].
    - split; [apply frame_refl|]. split; [done|]. split; [done|]. lia.
    - split; [by apply frame_put|]. split.
      { intros j Hj. apply lookup_put_ne. lia. }
      split; [|done]. intros _. exists a0, m, v. split; [done|].
      split; [done|]. apply lookup_put_eq. by apply lookup_lt_Some in Ha0. }
  destruct P2 as [(Hd & _ & ->)|(Hd & _ & a0 & Ha0 & ->)].
  - split; [done|]. split; [|done]. split; [done|]. split.
    { intros j Hj. apply Hhigh1. rewrite Hfirst in Hj. lia. }
    split; [done|]. intros Hd'. by destruct Hd'.
  - split; [unfold wf_cfgbuf; by rewrite length_put|]. split; [|done]. split.
    { eapply frame_trans; [|exact Hfr1|by apply (frame_put b1 k)]. lia. }
    split.
    { intros j Hj. rewrite Hfirst in Hj. rewrite lookup_put_ne.
      - apply Hhigh1. lia.
      - case_decide; [lia|done]. }
    split.
    { intros Hn. destruct (Hov1 Hn) as (a1 & m & v & Ha1 & Hs & Hb).
      exists a1, m, v. split; [done|]. split; [done|].
      rewrite lookup_put_ne; [done|].
      rewrite Hslot. unfold output_values_slot.
      destruct (decide (num_output_values c ≠ 0)); [lia|contradiction]. }
    intros _. rewrite <- Hslot. exists a0. split.
    + rewrite <- Ha0. symmetry. apply Hhigh1. lia.
    + apply lookup_put_eq. by apply lookup_lt_Some in Ha0.
Qed.

Lemma first_secondary_slot_le c : first_secondary_slot c ≤ 2.
Proof. unfold first_secondary_slot. repeat case_decide; lia. Qed.

Lemma attr_slots_eq c : attr_slots c = first_secondary_slot c + num_secondary c.
Proof. done. Qed.

Lemma output_values_slot_lt c :
  debounce_period (primary c) ≠ 0%Z →
  output_values_slot c < first_secondary_slot c.
Proof.
  intros Hd. unfold first_secondary_slot, output_values_slot.
  destruct (decide (debounce_period (primary c) ≠ 0%Z)); [|done].
  case_decide; lia.
Qed.

Lemma first_secondary_slot_pos c :
  num_output_values c ≠ 0 → 0 < first_secondary_slot c.
Proof.
  intros Hn. unfold first_secondary_slot.
  destruct (decide (num_output_values c ≠ 0)); [lia|done].
Qed.

(** The compilation of a well-formed config into a well-formed kernel
    structure is defined, and [to_kernel_post] describes its result. *)
Lemma to_kernel_spec c buf offs :
  wf_config c → wf_cfgbuf buf →
  ∃ r, gpiod_line_config_to_kernel (Some c) buf offs = Some r
       ∧ to_kernel_post c buf offs r.
Proof.
  intros Hwf Hbuf. unfold gpiod_line_config_to_kernel.
  destruct (too_complex c) eqn:Htc.
  { exists (err_2big c buf). split; [done|]. unfold to_kernel_post.
    split; [right; left; split; [done|by left]|].
    split; [done|]. split; [congruence|]. simpl. lia. }
  destruct (to_kernel_output_values_spec c buf offs Hwf Hbuf)
    as (out1 & H1 & P1).
  unfold and_then. rewrite H1. simpl.
  destruct out1 as [res|[k b1]].
  { exists res. split; [done|].
    destruct P1 as (Hn & [(Hl & ->)|(Hle & a0 & Ha0 & Hs & ->)]).
    - split; [right; left; split; [done|right; by left]|].
      split; [done|]. split; [lia|]. simpl. lia.
    - split; [right; right; by repeat split|].
      split; [intros [?|?]; [congruence|lia]|].
      split; [|simpl; lia]. intros _ _ _. exists a0. by rewrite Hs. }
  destruct (before_secondaries_reached c buf offs k b1 Hwf Hbuf H1)
    as (b2 & H2 & Hb2 & (Hfr2 & Hhigh2 & Hov2 & Hdb2) & Hle).
  rewrite H2. simpl.
  pose proof (first_secondary_slot_le c) as Hfirst.
  destruct (to_kernel_secondaries_spec c offs Hwf (num_secondary c) 0
              (first_secondary_slot c) b2) as (out3 & H3 & P3);
    [lia|done|unfold GPIO_V2_LINE_NUM_ATTRS_MAX; lia|].
  rewrite H3. simpl.
  (* slot 0 holds the output values whatever comes after *)
  assert (∀ b3, frame b2 b3 (first_secondary_slot c) →
            num_output_values c ≠ 0 →
            ∃ a0, attrs buf !! 0 = Some a0
              ∧ match set_kernel_output_values c offs with
                | Some (Ok (m, v)) =>
                    attrs b3 !! 0
                    = Some (with_mask m
                              (with_attr_values v
                                 (with_id GPIO_V2_LINE_ATTR_ID_OUTPUT_VALUES a0)))
                | _ =>
                    False
                end) as Hslot0.
  { intros b3 (_ & _ & _ & Hlow) Hn.
    destruct (Hov2 Hn) as (a0 & m & v & Ha0 & Hs & Hb). exists a0.
    split; [done|]. rewrite Hs, Hlow; [done|].
    by apply first_secondary_slot_pos. }
  destruct out3 as [res|[a' b3]]; simpl in P3.
  { exists res. split; [done|]. destruct P3 as (Hfr3 & Hcase). split.
    { destruct Hcase as [(Hres & Hcase)|Hres].
      - right. left. split; [done|]. right. right.
        destruct Hcase as [?|(j & s & Hj & Hs & Hn)]; [by left|right].
        exists s. split; [|done]. apply elem_of_take. by exists j.
      - right. right. done. }
    split.
    { intros [?|?]; [congruence|lia]. }
    split.
    { intros _ Hn _. destruct (Hslot0 (cfgbuf res) Hfr3 Hn) as (a0 & Ha0 & Hm).
      exists a0. split; [done|].
      destruct (set_kernel_output_values c offs) as [[[m v]|?]|]; done. }
    intros Hret.
    destruct Hcase as [(Hres & _)|Hres]; rewrite Hres in Hret; simpl in Hret;
      lia. }
  destruct P3 as (-> & Ha' & Hfr3 & Hhigh3 & Hall).
  destruct (make_kernel_flags_cases (primary c)) as [[[f Hf] _]|[Hf _]];
    rewrite Hf.
  2:{ eexists. split; [done|].
      split; [right; right; by repeat split|].
      split; [intros [?|?]; [congruence|lia]|].
      split; [|simpl; lia].
      intros _ Hn _. destruct (Hslot0 b3 Hfr3 Hn) as (a0 & Ha0 & Hm).
      exists a0. split; [done|]. simpl.
      destruct (set_kernel_output_values c offs) as [[[m v]|?]|]; done. }
  eexists. split; [done|].
  split; [left; by repeat split|].
  split; [intros [?|?]; [congruence|lia]|].
  split.
  { intros _ Hn _. destruct (Hslot0 b3 Hfr3 Hn) as (a0 & Ha0 & Hm).
    exists a0. split; [done|]. simpl.
    destruct (set_kernel_output_values c offs) as [[[m v]|?]|]; done. }
  intros _. simpl. rewrite attr_slots_eq.
  split; [done|]. split; [done|]. split; [done|]. split.
  { destruct Hfr3 as (_ & _ & -> & _). by destruct Hfr2 as (_ & _ & -> & _). }
  split.
  { intros k' Hk'. rewrite Hhigh3 by done. apply Hhigh2. lia. }
  split.
  { intros Hd. destruct (Hdb2 Hd) as (a0 & Ha0 & Hb). exists a0.
    split; [done|]. destruct Hfr3 as (_ & _ & _ & Hlow).
    rewrite Hlow; [done|]. by apply output_values_slot_lt. }
  intros i Hi. destruct (Hall i Hi) as (s & a0 & m & Hs & Ha0 & Hn & Hm & Hat).
  exists s, a0, m. split; [done|]. split; [|done].
  rewrite <- Ha0. symmetry. apply Hhigh2. lia.
Qed.

End CompileProperties.

(** ** Well-formed objects *)

Ltac wf_new :=
  split;
  [ reflexivity
  | unfold GPIO_V2_LINE_NUM_ATTRS_MAX; simpl; lia
  | reflexivity
  | unfold GPIO_V2_LINES_MAX; simpl; lia
  | apply Forall_replicate; simpl; lia ].

Lemma wf_config_new : wf_config gpiod_line_config_new.
Proof. wf_new. Qed.

Lemma wf_zero_kernel_config : wf_cfgbuf zero_kernel_config.
Proof. done. Qed.

(** ** What the compilation does to the config object *)

(** C6, counterexample. Two output values compiled against a single line:
    the compilation fails with [E2BIG], and the config, whose flag was not
    set, comes back with [too_complex] set. *)
Lemma failed_compilation_sets_too_complex :
  ∃ c r, gpiod_line_config_set_output_values gpiod_line_config_new
           [(1, 1); (2, 0)]%Z = Some c
         ∧ too_complex c = false
         ∧ gpiod_line_config_to_kernel (K := linux_uapi) (Some c)
             zero_kernel_config [1%Z] = Some r
         ∧ errno r = Some E2BIG
         ∧ config_after r ≠ Some c
         ∧ (too_complex <$> config_after r) = Some true.
Proof.
  eexists _, _. split; [vm_compute; reflexivity|]. split; [reflexivity|].
  split; [vm_compute; reflexivity|]. vm_compute. repeat split. discriminate.
Qed.

(** C6, amended. The compilation never writes the primary block, the
    secondaries, the output values or the scratch array of the config. It
    leaves [too_complex] as it was unless it fails with [E2BIG], in which
    case the flag is set on return; so, short of that failure, the same
    object can be compiled again against another offset list. *)
Theorem to_kernel_config_effect `{K : gpio_v2_uapi}
    (c : gpiod_line_config) (buf : gpio_v2_line_config) (offs : list Z) :
  wf_config c → wf_cfgbuf buf →
  ∃ r, gpiod_line_config_to_kernel (Some c) buf offs = Some r
       ∧ config_after r
         = Some (if decide (errno r = Some E2BIG)
                 then with_too_complex true c else c).
Proof.
  intros Hwf Hbuf.
  destruct (to_kernel_spec c buf offs Hwf Hbuf) as (r & Hr & Hexit & _).
  exists r. split; [done|].
  destruct Hexit as [(_ & He & Hc & _)|[(Hres & _)|(Hres & _)]].
  - rewrite He, Hc. by case_decide.
  - rewrite Hres. unfold err_2big. cbn [config_after errno]. by case_decide.
  - rewrite Hres. unfold err_return. cbn [config_after errno]. by case_decide.
Qed.

Lemma to_kernel_config_effect_witness :
  wf_config gpiod_line_config_new ∧ wf_cfgbuf zero_kernel_config
  ∧ ∃ r, gpiod_line_config_to_kernel (K := linux_uapi)
           (Some gpiod_line_config_new) zero_kernel_config [2; 4; 7]%Z
         = Some r
         ∧ config_after r
           = Some (if decide (errno r = Some E2BIG)
                   then with_too_complex true gpiod_line_config_new
                   else gpiod_line_config_new).
Proof.
  assert (wf_config gpiod_line_config_new) as Hwf.
  { wf_new. }
  split; [exact Hwf|]. split; [reflexivity|].
  apply (to_kernel_config_effect (K := linux_uapi) gpiod_line_config_new
           zero_kernel_config [2; 4; 7]%Z Hwf).
  reflexivity.
Defined.

Ltac wf_by_compute :=
  split;
  [ vm_compute; reflexivity
  | apply (bool_decide_unpack _); vm_compute; exact I
  | vm_compute; reflexivity
  | apply (bool_decide_unpack _); vm_compute; exact I
  | apply (bool_decide_unpack _); vm_compute; exact I ].

(** ** Output values *)

Lemma find_bitmap_index_lookup needle haystack k :
  find_bitmap_index needle haystack = Some k → haystack !! k = Some needle.
Proof.
  revert k. induction haystack as [|h t IH]; intros k; simpl; [done|].
  case_decide as Hh.
  - intros [= <-]. by subst.
  - destruct (find_bitmap_index needle t) as [j|]; simpl; [|done].
    intros [= <-]. by apply IH.
Qed.

Lemma find_bitmap_index_lt needle haystack k :
  find_bitmap_index needle haystack = Some k → k < length haystack.
Proof.
  intros H. apply find_bitmap_index_lookup in H. by apply lookup_lt_Some in H.
Qed.

Lemma find_bitmap_index_None needle haystack :
  find_bitmap_index needle haystack = None ↔ needle ∉ haystack.
Proof.
  induction haystack as [|h t IH]; simpl.
  - split; [intros _; apply not_elem_of_nil|done].
  - rewrite not_elem_of_cons. case_decide as Hh.
    + split; [done|]. by intros [? _].
    + destruct (find_bitmap_index needle t) as [j|]; simpl.
      * split; [done|]. intros [_ Hn]. by apply IH in Hn.
      * split; [|done]. intros _. split; [done|]. by apply IH.
Qed.

(** Bits of a mask after [gpiod_line_mask_set_bit] and after
    [gpiod_line_mask_assign_bit], at the positions of a 64-bit word. *)
Lemma testbit_set_bit (m : Z) (idx k : nat) :
  Z.testbit (gpiod_line_mask_set_bit m idx) (Z.of_nat k)
  = (Z.testbit m (Z.of_nat k) || bool_decide (k = idx))
    && bool_decide (k < 64).
Proof.
  unfold gpiod_line_mask_set_bit.
  rewrite Z.land_spec, Z.lor_spec, Z.shiftl_1_l, Z.pow2_bits_eqb by lia.
  rewrite Z.testbit_ones_nonneg by lia.
  f_equal; [f_equal|].
  - destruct (Z.eqb_spec (Z.of_nat idx) (Z.of_nat k));
      case_bool_decide; try done; lia.
  - destruct (Z.ltb_spec (Z.of_nat k) 64); case_bool_decide; try done; lia.
Qed.

Lemma testbit_clear_bit (m : Z) (idx k : nat) :
  Z.testbit (gpiod_line_mask_clear_bit m idx) (Z.of_nat k)
  = Z.testbit m (Z.of_nat k) && negb (bool_decide (k = idx)).
Proof.
  unfold gpiod_line_mask_clear_bit.
  rewrite Z.ldiff_spec, Z.shiftl_1_l, Z.pow2_bits_eqb by lia.
  f_equal. f_equal.
  destruct (Z.eqb_spec (Z.of_nat idx) (Z.of_nat k));
    case_bool_decide; try done; lia.
Qed.

Lemma testbit_assign_bit_same (v : Z) (idx : nat) (b : bool) :
  idx < 64 →
  Z.testbit (gpiod_line_mask_assign_bit v idx b) (Z.of_nat idx) = b.
Proof.
  intros Hidx. unfold gpiod_line_mask_assign_bit. destruct b.
  - rewrite testbit_set_bit. rewrite (bool_decide_eq_true_2 (idx = idx)) by done.
    rewrite (bool_decide_eq_true_2 (idx < 64)) by done.
    by rewrite orb_true_r.
  - rewrite testbit_clear_bit.
    rewrite (bool_decide_eq_true_2 (idx = idx)) by done.
    by rewrite andb_false_r.
Qed.

Lemma testbit_assign_bit_other (v : Z) (idx k : nat) (b : bool) :
  k ≠ idx → k < 64 →
  Z.testbit (gpiod_line_mask_assign_bit v idx b) (Z.of_nat k)
  = Z.testbit v (Z.of_nat k).
Proof.
  intros Hk Hlt. unfold gpiod_line_mask_assign_bit. destruct b.
  - rewrite testbit_set_bit. rewrite (bool_decide_eq_false_2 (k = idx)) by done.
    rewrite (bool_decide_eq_true_2 (k < 64)) by done.
    by rewrite orb_false_r, andb_true_r.
  - rewrite testbit_clear_bit.
    rewrite (bool_decide_eq_false_2 (k = idx)) by done.
    by rewrite andb_true_r.
Qed.

(** The loop of [set_kernel_output_values] is [output_bits] over the stored
    values. *)
Lemma set_kernel_output_values_from_eq c offs fuel :
  ∀ i m v, i + fuel ≤ length (output_values c) →
  set_kernel_output_values_from c offs i fuel m v
  = Some (output_bits offs (take fuel (drop i (output_values c))) m v).
Proof.
  induction fuel as [|fuel IH]; intros i m v Hlen; simpl; [done|].
  destruct (lookup_lt_is_Some_2 (output_values c) i) as [o Ho]; [lia|].
  rewrite Ho. simpl. rewrite (drop_S _ _ _ Ho). simpl.
  destruct (find_bitmap_index (offset o) offs) as [idx|]; [|done].
  apply IH. lia.
Qed.

Lemma set_kernel_output_values_eq c offs :
  wf_config c →
  set_kernel_output_values c offs
  = Some (output_bits offs (stored_output_values c)
            gpiod_line_mask_zero gpiod_line_mask_zero).
Proof.
  intros [_ _ Hlen Hnum _]. unfold set_kernel_output_values.
  rewrite set_kernel_output_values_from_eq by (simpl; lia).
  by rewrite drop_0.
Qed.

Lemma output_bits_fail offs l :
  ∀ m v, (∃ ov, ov ∈ l ∧ offset ov ∉ offs) →
  output_bits offs l m v = Fail EINVAL.
Proof.
  induction l as [|o l IH]; intros m v (ov & Hin & Habs); simpl.
  { by apply elem_of_nil in Hin. }
  destruct (find_bitmap_index (offset o) offs) as [idx|] eqn:Hf; [|done].
  apply IH. exists ov. split; [|done].
  apply elem_of_cons in Hin as [->|Hin]; [|done].
  apply find_bitmap_index_None in Habs. congruence.
Qed.

Lemma output_bits_ok offs l :
  ∀ m v, (∀ ov, ov ∈ l → offset ov ∈ offs) →
  ∃ m' v', output_bits offs l m v = Ok (m', v').
Proof.
  induction l as [|o l IH]; intros m v Hall; simpl; [by eexists _, _|].
  destruct (find_bitmap_index (offset o) offs) as [idx|] eqn:Hf.
  - apply IH. intros ov Hov. apply Hall. by apply elem_of_cons; right.
  - apply find_bitmap_index_None in Hf. destruct Hf. apply Hall.
    by apply elem_of_cons; left.
Qed.

(** The mask has a bit exactly at the index of every stored offset. *)
Lemma output_bits_mask offs l :
  length offs ≤ 64 →
  ∀ m v m' v', output_bits offs l m v = Ok (m', v') →
  (∀ k : nat, 64 ≤ k → Z.testbit m (Z.of_nat k) = false) →
  ∀ k : nat,
    Z.testbit m' (Z.of_nat k) = true
    ↔ Z.testbit m (Z.of_nat k) = true
      ∨ ∃ ov, ov ∈ l ∧ find_bitmap_index (offset ov) offs = Some k.
Proof.
  intros Hlen. induction l as [|o l IH]; intros m v m' v' Hb Hhigh k;
    simpl in Hb.
  { injection Hb as <- <-. split; [by left|]. intros [?|(ov & Hin & _)]; [done|].
    by apply elem_of_nil in Hin. }
  destruct (find_bitmap_index (offset o) offs) as [idx|] eqn:Hf; [|done].
  pose proof (find_bitmap_index_lt _ _ _ Hf) as Hidx.
  rewrite (IH _ _ _ _ Hb).
  2:{ intros j Hj. rewrite testbit_set_bit.
      rewrite (bool_decide_eq_false_2 (j < 64)) by lia.
      by rewrite andb_false_r. }
  rewrite testbit_set_bit, andb_true_iff, orb_true_iff, !bool_decide_eq_true.
  split.
  - intros [[[?| ->] _]|(ov & Hin & Hov)].
    + by left.
    + right. exists o. split; [by apply elem_of_cons; left|done].
    + right. exists ov. split; [by apply elem_of_cons; right|done].
  - intros [Hm|(ov & Hin & Hov)].
    + left. split; [by left|].
      destruct (decide (k < 64)) as [|Hk]; [done|].
      rewrite Hhigh in Hm by lia. done.
    + apply elem_of_cons in Hin as [->|Hin].
      * left. split; [right; congruence|]. assert (k = idx) by congruence. lia.
      * right. by exists ov.
Qed.

(** With pairwise distinct stored offsets, the value word holds at the index
    of each stored offset whether the stored value is non-zero. *)
Lemma output_bits_values offs l :
  length offs ≤ 64 →
  ∀ m v m' v', output_bits offs l m v = Ok (m', v') →
  NoDup (offset <$> l) →
  (∀ k : nat, k < 64 →
     (∀ ov, ov ∈ l → find_bitmap_index (offset ov) offs ≠ Some k) →
     Z.testbit v' (Z.of_nat k) = Z.testbit v (Z.of_nat k))
  ∧ (∀ ov k, ov ∈ l → find_bitmap_index (offset ov) offs = Some k →
       Z.testbit v' (Z.of_nat k) = bool_decide (value ov ≠ 0%Z)).
Proof.
  intros Hlen. induction l as [|o l IH]; intros m v m' v' Hb Hnd; simpl in Hb.
  { injection Hb as <- <-. split; [done|]. intros ov k Hin.
    by apply elem_of_nil in Hin. }
  destruct (find_bitmap_index (offset o) offs) as [idx|] eqn:Hf; [|done].
  rewrite fmap_cons in Hnd. apply NoDup_cons in Hnd as [Hnotin Hnd].
  destruct (IH _ _ _ _ Hb Hnd) as [Hframe Hvals].
  pose proof (find_bitmap_index_lt _ _ _ Hf) as Hidx.
  (* no later entry shares the index of [o] *)
  assert (∀ ov, ov ∈ l → find_bitmap_index (offset ov) offs ≠ Some idx)
    as Hfresh.
  { intros ov Hin Hov. apply Hnotin.
    apply find_bitmap_index_lookup in Hf, Hov.
    assert (offset o = offset ov) as -> by congruence.
    by apply list_elem_of_fmap_2. }
  split.
  - intros k Hk Hno. rewrite Hframe; [|done|].
    + apply testbit_assign_bit_other; [|done].
      intros ->. apply (Hno o); [by apply elem_of_cons; left|done].
    + intros ov Hin. apply Hno. by apply elem_of_cons; right.
  - intros ov k Hin Hov. apply elem_of_cons in Hin as [->|Hin].
    + assert (k = idx) as -> by congruence.
      rewrite Hframe; [|lia|done]. apply testbit_assign_bit_same. lia.
    + by apply Hvals.
Qed.

(** C5, counterexample. Two output values, for the offsets 5 and 6, compiled
    against the single line 5: offset 6 is absent from the offset list, and
    the compilation fails with [E2BIG], not [EINVAL], because the stored
    values are counted against the lines before they are looked up. *)
Lemma absent_offset_reported_as_e2big :
  ∃ c r, gpiod_line_config_set_output_values gpiod_line_config_new
           [(5, 1); (6, 1)]%Z = Some c
         ∧ (∃ ov, ov ∈ stored_output_values c ∧ offset ov ∉ [5%Z])
         ∧ gpiod_line_config_to_kernel (K := linux_uapi) (Some c)
             zero_kernel_config [5%Z] = Some r
         ∧ ret r = (-1)%Z
         ∧ errno r = Some E2BIG
         ∧ errno r ≠ Some EINVAL.
Proof.
  eexists _, _. split; [vm_compute; reflexivity|]. split.
  { exists (mk_output_value 6 1).
    split; apply (bool_decide_unpack _); vm_compute; exact I. }
  split; [vm_compute; reflexivity|]. vm_compute. by repeat split.
Qed.

(** C5, amended. Take a config whose flag is not set and that stores at
    least one output value and no more than there are lines (at most 64).
    If every stored offset occurs in the offset list, slot 0 of the kernel
    structure becomes an output-values attribute whose mask has a bit exactly
    at the index of each stored offset in the list and, the stored offsets
    being pairwise distinct, whose value word holds at that index 1 for a
    non-zero stored value and 0 for a zero one. If some stored offset does not
    occur in the list, the compilation returns -1 with [EINVAL]. *)
Theorem output_values_attribute `{K : gpio_v2_uapi}
    (c : gpiod_line_config) (buf : gpio_v2_line_config) (offs : list Z) :
  wf_config c → wf_cfgbuf buf →
  length offs ≤ 64 →
  too_complex c = false →
  num_output_values c ≠ 0 →
  num_output_values c ≤ length offs →
  ∃ r, gpiod_line_config_to_kernel (Some c) buf offs = Some r
    ∧ ((∀ ov, ov ∈ stored_output_values c → offset ov ∈ offs) →
       ∃ a, attrs (cfgbuf r) !! 0 = Some a
         ∧ id (attr a) = GPIO_V2_LINE_ATTR_ID_OUTPUT_VALUES
         ∧ (∀ k : nat,
              Z.testbit (mask a) (Z.of_nat k) = true
              ↔ ∃ ov, ov ∈ stored_output_values c
                      ∧ find_bitmap_index (offset ov) offs = Some k)
         ∧ (NoDup (offset <$> stored_output_values c) →
            ∀ ov k, ov ∈ stored_output_values c →
                    find_bitmap_index (offset ov) offs = Some k →
                    Z.testbit (attr_values (attr a)) (Z.of_nat k)
                    = bool_decide (value ov ≠ 0%Z)))
    ∧ ((∃ ov, ov ∈ stored_output_values c ∧ offset ov ∉ offs) →
       ret r = (-1)%Z ∧ errno r = Some EINVAL).
Proof.
  intros Hwf Hbuf Hlen Htc Hn Hle.
  destruct (to_kernel_spec c buf offs Hwf Hbuf) as (r & Hr & _ & _ & Hov & _).
  destruct (Hov Htc Hn Hle) as (a0 & Ha0 & Hm).
  rewrite (set_kernel_output_values_eq c offs Hwf) in Hm.
  exists r. split; [done|]. split.
  - intros Hall.
    destruct (output_bits_ok offs (stored_output_values c)
                gpiod_line_mask_zero gpiod_line_mask_zero Hall)
      as (m' & v' & Hb).
    rewrite Hb in Hm. eexists. split; [exact Hm|]. split; [done|]. split.
    + intros k. simpl.
      rewrite (output_bits_mask offs _ Hlen _ _ _ _ Hb).
      * unfold gpiod_line_mask_zero. rewrite Z.bits_0. split; [|by right].
        by intros [?|?].
      * intros j _. apply Z.bits_0.
    + intros Hnd ov k Hin Hf. simpl.
      by apply (output_bits_values offs _ Hlen _ _ _ _ Hb Hnd).
  - intros Habs.
    rewrite (output_bits_fail offs _ _ _ Habs) in Hm. by rewrite Hm.
Qed.

Lemma output_values_attribute_witness :
  ∃ r, gpiod_line_config_to_kernel (K := linux_uapi)
         (Some three_outputs_config) zero_kernel_config [2; 4; 7]%Z = Some r
    ∧ ((∀ ov, ov ∈ stored_output_values three_outputs_config →
              offset ov ∈ [2; 4; 7]%Z) →
       ∃ a, attrs (cfgbuf r) !! 0 = Some a
         ∧ id (attr a) = @GPIO_V2_LINE_ATTR_ID_OUTPUT_VALUES linux_uapi
         ∧ (∀ k : nat,
              Z.testbit (mask a) (Z.of_nat k) = true
              ↔ ∃ ov, ov ∈ stored_output_values three_outputs_config
                      ∧ find_bitmap_index (offset ov) [2; 4; 7]%Z = Some k)
         ∧ (NoDup (offset <$> stored_output_values three_outputs_config) →
            ∀ ov k, ov ∈ stored_output_values three_outputs_config →
                    find_bitmap_index (offset ov) [2; 4; 7]%Z = Some k →
                    Z.testbit (attr_values (attr a)) (Z.of_nat k)
                    = bool_decide (value ov ≠ 0%Z)))
    ∧ ((∃ ov, ov ∈ stored_output_values three_outputs_config
              ∧ offset ov ∉ [2; 4; 7]%Z) →
       ret r = (-1)%Z ∧ errno r = Some EINVAL).
Proof.
  apply (output_values_attribute (K := linux_uapi) three_outputs_config
           zero_kernel_config [2; 4; 7]%Z).
  - wf_by_compute.
  - reflexivity.
  - simpl. lia.
  - reflexivity.
  - vm_compute. lia.
  - vm_compute. lia.
Defined.

(** The first scenario of the specification, evaluated: the offsets 2, 4, 7
    requested as outputs with the values 1, 0, 1 compile to the flag word
    [OUTPUT] and one output-values attribute with mask 0b111 and values
    0b101. *)
Example scenario_three_outputs :
  (∀ ov, ov ∈ stored_output_values three_outputs_config →
         offset ov ∈ [2; 4; 7]%Z)
  ∧ NoDup (offset <$> stored_output_values three_outputs_config)
  ∧ ((λ r, (ret r, flags (cfgbuf r), num_attrs (cfgbuf r),
            attrs (cfgbuf r) !! 0)) <$>
       gpiod_line_config_to_kernel (K := linux_uapi)
         (Some three_outputs_config) zero_kernel_config [2; 4; 7]%Z)
    = Some (0%Z, 8%Z, 1%Z,
            Some (mk_config_attribute (mk_line_attribute 2 0 5) 7)).
Proof.
  split; [|split].
  - apply Forall_forall, (bool_decide_unpack _). vm_compute. exact I.
  - apply (bool_decide_unpack _). vm_compute. exact I.
  - vm_compute. reflexivity.
Qed.

(** ** The exits of the compilation *)

Lemma set_secondary_mask_from_eq s offs fuel :
  ∀ i m, i + fuel ≤ length (offsets s) →
  set_secondary_mask_from s offs i fuel m
  = Some (mask_bits offs (take fuel (drop i (offsets s))) m).
Proof.
  induction fuel as [|fuel IH]; intros i m Hlen; simpl; [done|].
  destruct (lookup_lt_is_Some_2 (offsets s) i) as [o Ho]; [lia|].
  rewrite Ho. simpl. rewrite (drop_S _ _ _ Ho). simpl.
  destruct (find_bitmap_index o offs) as [idx|]; [|done].
  apply IH. lia.
Qed.

Lemma set_secondary_mask_eq s offs :
  num_offsets s ≤ length (offsets s) →
  set_secondary_mask s offs
  = Some (mask_bits offs (secondary_offset_list s) gpiod_line_mask_zero).
Proof.
  intros H. unfold set_secondary_mask, secondary_offset_list.
  rewrite set_secondary_mask_from_eq by (simpl; lia). by rewrite drop_0.
Qed.

Lemma mask_bits_fail offs l :
  ∀ m, (∃ o, o ∈ l ∧ o ∉ offs) → mask_bits offs l m = Fail EINVAL.
Proof.
  induction l as [|x l IH]; intros m (o & Hin & Habs); simpl.
  { by apply elem_of_nil in Hin. }
  destruct (find_bitmap_index x offs) as [idx|] eqn:Hf; [|done].
  apply IH. exists o. split; [|done].
  apply elem_of_cons in Hin as [->|Hin]; [|done].
  apply find_bitmap_index_None in Habs. congruence.
Qed.

Lemma mask_bits_ok offs l :
  ∀ m, (∀ o, o ∈ l → o ∈ offs) → ∃ m', mask_bits offs l m = Ok m'.
Proof.
  induction l as [|x l IH]; intros m Hall; simpl; [by eexists|].
  destruct (find_bitmap_index x offs) as [idx|] eqn:Hf.
  - apply IH. intros o Ho. apply Hall. by apply elem_of_cons; right.
  - apply find_bitmap_index_None in Hf. destruct Hf. apply Hall.
    by apply elem_of_cons; left.
Qed.

Lemma mask_bits_ok_inv offs l m m' :
  mask_bits offs l m = Ok m' → ∀ o, o ∈ l → o ∈ offs.
Proof.
  intros Hok o Hin. destruct (decide (o ∈ offs)) as [|Hno]; [done|].
  rewrite (mask_bits_fail offs l m) in Hok; [done|]. by exists o.
Qed.

Lemma mask_bits_fail_inv offs l m e :
  mask_bits offs l m = Fail e → e = EINVAL ∧ ¬ ∀ o, o ∈ l → o ∈ offs.
Proof.
  intros Hf.
  destruct (decide (Forall (λ o, o ∈ offs) l)) as [Hall|Hnall].
  - rewrite Forall_forall in Hall.
    destruct (mask_bits_ok offs l m Hall) as (m' & Hm). congruence.
  - split; [|by rewrite <- Forall_forall].
    apply not_Forall_Exists in Hnall; [|apply _].
    apply Exists_exists in Hnall as (o & Hin & Ho).
    rewrite (mask_bits_fail offs l m) in Hf; [congruence|by exists o].
Qed.

Lemma output_bits_ok_inv offs l m v mv :
  output_bits offs l m v = Ok mv → ∀ ov, ov ∈ l → offset ov ∈ offs.
Proof.
  intros Hok ov Hin. destruct (decide (offset ov ∈ offs)) as [|Hno]; [done|].
  rewrite (output_bits_fail offs l m v) in Hok; [done|]. by exists ov.
Qed.

Lemma output_bits_fail_inv offs l m v e :
  output_bits offs l m v = Fail e → ∃ ov, ov ∈ l ∧ offset ov ∉ offs.
Proof.
  intros Hf.
  destruct (decide (Forall (λ ov, offset ov ∈ offs) l)) as [Hall|Hno].
  - rewrite Forall_forall in Hall.
    destruct (output_bits_ok offs l m v Hall) as (m' & v' & Hm). congruence.
  - apply not_Forall_Exists in Hno; [|apply _].
    apply Exists_exists in Hno as (ov & Hin & Hov). by exists ov.
Qed.

(** The members of the attribute a debounce period is written to. *)
Lemma debounce_attribute_fields (v i m : Z)
    (a0 : gpio_v2_line_config_attribute) :
  let a := with_mask m (with_debounce_period_us v (with_id i a0)) in
  id (attr a) = i
  ∧ padding (attr a) = padding (attr a0)
  ∧ debounce_period_us (attr a) = (v mod 2 ^ 32)%Z
  ∧ (attr_union (attr a) / 2 ^ 32 = attr_union (attr a0) / 2 ^ 32)%Z
  ∧ mask a = m.
Proof.
  simpl. split; [done|]. split; [done|]. unfold debounce_period_us. simpl.
  assert (0 ≤ v mod 2 ^ 32 < 2 ^ 32)%Z as Hr by (apply Z.mod_pos_bound; lia).
  split; [|split; [|done]].
  - rewrite Z.add_comm, Z.mod_add by lia. by apply Z.mod_small.
  - rewrite Z.div_add_l by lia. rewrite (Z.div_small (v mod 2 ^ 32)) by done.
    lia.
Qed.

Section CompileExits.
Context `{K : gpio_v2_uapi}.

(** The loop over the secondaries runs to its end when every block passes
    and the slots suffice. *)
Lemma to_kernel_secondaries_ok c offs :
  wf_config c →
  ∀ fuel i attr_idx buf,
    i + fuel ≤ num_secondary c →
    wf_cfgbuf buf →
    attr_idx + fuel ≤ GPIO_V2_LINE_NUM_ATTRS_MAX →
    (∀ j s, i ≤ j < i + fuel → secondary c !! j = Some s →
            num_offsets s ≤ length offs
            ∧ (debounce_period (config s) = 0%Z → recognized (config s))
            ∧ ∀ o, o ∈ secondary_offset_list s → o ∈ offs) →
    ∃ a' b', to_kernel_secondaries c offs i fuel attr_idx buf
             = Some (inr (a', b')).
Proof.
  intros Hwf. induction fuel as [|fuel IH];
    intros i attr_idx buf Hi Hbuf Ha Hall; simpl; [by eexists _, _|].
  destruct (decide (attr_idx = GPIO_V2_LINE_NUM_ATTRS_MAX)); [lia|].
  pose proof Hwf as [Hsl Hsn _ _ Hoffs].
  destruct (lookup_lt_is_Some_2 (secondary c) i) as [s Hs]; [lia|].
  rewrite Hs. simpl.
  destruct (Hall i s) as (Hn & Hrec & Hin); [lia|done|].
  destruct (decide (length offs < num_offsets s)); [lia|].
  assert (attr_idx < length (attrs buf)) as Hlt
    by (unfold wf_cfgbuf in Hbuf; lia).
  destruct (lookup_lt_is_Some_2 (attrs buf) attr_idx Hlt) as [a0 Ha0].
  assert (num_offsets s ≤ length (offsets s)) as Hso.
  { rewrite Forall_lookup in Hoffs. by apply (Hoffs i). }
  assert (∃ a1, to_kernel_secondary_payload c s attr_idx buf
                = Some (inr (put attr_idx a1 buf))) as [a1 Hpay].
  { unfold to_kernel_secondary_payload.
    destruct (decide (debounce_period (config s) ≠ 0%Z)) as [Hd|Hd].
    - rewrite (update_attr_put _ _ _ a0) by done. by eexists.
    - rewrite (update_attr_put _ _ _ a0) by done. simpl.
      destruct (make_kernel_flags_cases (config s)) as [[[f ->] _]|[_ Hno]].
      + rewrite (update_attr_put _ _ _ (with_id GPIO_V2_LINE_ATTR_ID_FLAGS a0))
          by (by apply lookup_put_eq).
        simpl. rewrite put_put. by eexists.
      + destruct Hno. apply Hrec.
        destruct (decide (debounce_period (config s) = 0%Z)); [done|].
        by destruct Hd. }
  unfold and_then. rewrite Hpay. simpl.
  rewrite (set_secondary_mask_eq s offs Hso).
  destruct (mask_bits_ok offs _ gpiod_line_mask_zero Hin) as (m & ->).
  simpl.
  rewrite (update_attr_put _ _ _ a1) by (by apply lookup_put_eq).
  simpl. rewrite put_put. apply IH; [lia| |lia|].
  - unfold wf_cfgbuf. by rewrite length_put.
  - intros j s' Hj. apply Hall. lia.
Qed.

(** A config that meets every check of the compilation compiles. *)
Lemma compilable_ret c buf offs r :
  wf_config c → wf_cfgbuf buf → compilable c offs →
  gpiod_line_config_to_kernel (Some c) buf offs = Some r → ret r = 0%Z.
Proof.
  intros Hwf Hbuf (Htc & Hle & Hslots & Hout & Hprim & Hsec).
  unfold gpiod_line_config_to_kernel. rewrite Htc.
  destruct (to_kernel_output_values_spec c buf offs Hwf Hbuf)
    as (out1 & H1 & P1).
  unfold and_then. rewrite H1. simpl.
  destruct out1 as [res|[k b1]].
  { exfalso. destruct P1 as (Hn & [(Hl & _)|(_ & a0 & _ & Hs & _)]); [lia|].
    rewrite (set_kernel_output_values_eq c offs Hwf) in Hs.
    destruct (output_bits_ok offs (stored_output_values c)
                gpiod_line_mask_zero gpiod_line_mask_zero Hout)
      as (m & v & Hb).
    congruence. }
  destruct (before_secondaries_reached c buf offs k b1 Hwf Hbuf H1)
    as (b2 & H2 & Hb2 & _ & _).
  rewrite H2. simpl.
  destruct (to_kernel_secondaries_ok c offs Hwf (num_secondary c) 0
              (first_secondary_slot c) b2) as (a' & b3 & H3);
    [lia|done|by rewrite <- attr_slots_eq|..].
  { intros j s Hj Hs. rewrite Forall_lookup in Hsec.
    apply (Hsec j s). apply lookup_take_Some. split; [done|lia]. }
  rewrite H3. simpl.
  destruct (make_kernel_flags_cases (primary c)) as [[[f ->] _]|[_ Hno]];
    [|done].
  by intros [= <-].
Qed.

(** How the loop over the secondaries leaves the function: at the first
    block [j] that does not pass, through [err_2big] when the slots are used
    up or the block holds more offsets than there are lines, with [EINVAL]
    when its options or its offsets do not translate. *)
Lemma to_kernel_secondaries_exit c offs :
  wf_config c →
  ∀ fuel i attr_idx buf res,
    i + fuel ≤ num_secondary c →
    wf_cfgbuf buf →
    attr_idx ≤ GPIO_V2_LINE_NUM_ATTRS_MAX →
    to_kernel_secondaries c offs i fuel attr_idx buf = Some (inl res) →
    ∃ j, j < fuel
      ∧ (∀ j' s', j' < j → secondary c !! (i + j') = Some s' →
                  block_fits offs s' ∧ block_translates offs s')
      ∧ ((errno res = Some E2BIG
          ∧ (attr_idx + j = GPIO_V2_LINE_NUM_ATTRS_MAX
             ∨ ∃ s, secondary c !! (i + j) = Some s
                    ∧ length offs < num_offsets s))
         ∨ (errno res = Some EINVAL
            ∧ attr_idx + j < GPIO_V2_LINE_NUM_ATTRS_MAX
            ∧ ∃ s, secondary c !! (i + j) = Some s
                   ∧ block_fits offs s ∧ ¬ block_translates offs s)).
Proof.
  intros Hwf. induction fuel as [|fuel IH];
    intros i attr_idx buf res Hi Hbuf Ha; simpl; [done|].
  destruct (decide (attr_idx = GPIO_V2_LINE_NUM_ATTRS_MAX)) as [Hmax|Hmax].
  { intros [= <-]. exists 0. split; [lia|]. split; [intros ? ? ?; lia|].
    left. split; [done|]. left. lia. }
  pose proof Hwf as [Hsl Hsn _ _ Hoffs].
  destruct (lookup_lt_is_Some_2 (secondary c) i) as [s Hs]; [lia|].
  rewrite Hs. simpl.
  destruct (decide (length offs < num_offsets s)) as [Hbig|Hfit].
  { intros [= <-]. exists 0. split; [lia|]. split; [intros ? ? ?; lia|].
    left. split; [done|]. right. exists s. by rewrite Nat.add_0_r. }
  assert (attr_idx < length (attrs buf)) as Hlt
    by (unfold wf_cfgbuf in Hbuf; lia).
  destruct (lookup_lt_is_Some_2 (attrs buf) attr_idx Hlt) as [a0 Ha0].
  assert (num_offsets s ≤ length (offsets s)) as Hso.
  { rewrite Forall_lookup in Hoffs. by apply (Hoffs i). }
  assert (block_fits offs s) as Hfits by (unfold block_fits; lia).
  (* the payload of the slot *)
  assert ((∃ a1, to_kernel_secondary_payload c s attr_idx buf
                 = Some (inr (put attr_idx a1 buf))
                 ∧ (debounce_period (config s) = 0%Z → recognized (config s)))
          ∨ (∃ b, to_kernel_secondary_payload c s attr_idx buf
                  = Some (inl (err_return EINVAL c b))
                  ∧ ¬ block_translates offs s))
    as [(a1 & Hpay & Hrec)|(b & Hpay & Hno)].
  { unfold to_kernel_secondary_payload.
    destruct (decide (debounce_period (config s) ≠ 0%Z)) as [Hd|Hd].
    - rewrite (update_attr_put _ _ _ a0) by done. left. eexists.
      split; [done|]. intros Hz. by destruct Hd.
    - rewrite (update_attr_put _ _ _ a0) by done. simpl.
      destruct (make_kernel_flags_cases (config s)) as [[[f ->] Hr]|[-> Hno]].
      + rewrite (update_attr_put _ _ _ (with_id GPIO_V2_LINE_ATTR_ID_FLAGS a0))
          by (by apply lookup_put_eq).
        simpl. rewrite put_put. left. by eexists.
      + right. eexists. split; [done|]. intros [Hrec _]. apply Hno, Hrec.
        destruct (decide (debounce_period (config s) = 0%Z)); [done|].
        by destruct Hd. }
  2:{ unfold and_then. rewrite Hpay. simpl. intros [= <-].
      exists 0. split; [lia|]. split; [intros ? ? ?; lia|].
      right. split; [done|]. split; [lia|]. exists s.
      by rewrite Nat.add_0_r. }
  unfold and_then. rewrite Hpay. simpl.
  rewrite (set_secondary_mask_eq s offs Hso).
  destruct (mask_bits offs (secondary_offset_list s) gpiod_line_mask_zero)
    as [m|e] eqn:Hm; simpl.
  2:{ intros [= <-]. exists 0. split; [lia|]. split; [intros ? ? ?; lia|].
      right. apply mask_bits_fail_inv in Hm as [-> Hnall].
      split; [done|]. split; [lia|]. exists s. rewrite Nat.add_0_r.
      split; [done|]. split; [done|]. by intros [_ Hall]. }
  rewrite (update_attr_put _ _ _ a1) by (by apply lookup_put_eq).
  simpl. rewrite put_put. intros Hrest.
  apply IH in Hrest as (j & Hj & Hbefore & Hcase); [|lia| |lia].
  2:{ unfold wf_cfgbuf. by rewrite length_put. }
  exists (S j). split; [lia|]. split.
  { intros [|j'] s' Hj' Hs'.
    - rewrite Nat.add_0_r in Hs'. assert (s' = s) as -> by congruence.
      split; [done|]. split; [done|]. by apply (mask_bits_ok_inv _ _ _ _ Hm).
    - apply (Hbefore j'); [lia|].
      by replace (S i + j') with (i + S j') by lia. }
  replace (S attr_idx + j) with (attr_idx + S j) in Hcase by lia.
  replace (S i + j) with (i + S j) in Hcase by lia.
  done.
Qed.

(** The value of [errno] after the compilation: [E2BIG] exactly in the
    cases of [e2big_first]; and, when the config asks for more slots than the
    kernel has, [EINVAL] exactly in the cases of [einval_before_slot_limit]. *)
Lemma to_kernel_errno_spec c buf offs :
  wf_config c → wf_cfgbuf buf →
  ∃ r, gpiod_line_config_to_kernel (Some c) buf offs = Some r
    ∧ (errno r = Some E2BIG ↔ e2big_first c offs)
    ∧ (GPIO_V2_LINE_NUM_ATTRS_MAX < attr_slots c →
       (errno r = Some EINVAL ↔ einval_before_slot_limit c offs)).
Proof.
  intros Hwf Hbuf.
  destruct (to_kernel_spec c buf offs Hwf Hbuf) as (r & Hr & _).
  exists r. split; [done|].
  revert Hr. unfold gpiod_line_config_to_kernel.
  destruct (too_complex c) eqn:Htc.
  { intros [= <-]. simpl. split.
    - split; [by left|done].
    - intros _. split; [done|]. intros (? & _). congruence. }
  destruct (to_kernel_output_values_spec c buf offs Hwf Hbuf)
    as (out1 & H1 & P1).
  unfold and_then. rewrite H1. simpl.
  destruct out1 as [res|[k b1]].
  { intros [= <-].
    destruct P1 as (Hn & [(Hl & ->)|(Hle & a0 & Ha0 & Hs & ->)]); simpl.
    - split.
      + split; [right; by left|done].
      + intros _. split; [done|]. intros (_ & ? & _). lia.
    - rewrite (set_kernel_output_values_eq c offs Hwf) in Hs.
      injection Hs as Hs. apply output_bits_fail_inv in Hs as (ov & Hin & Hov).
      split.
      + split; [done|]. intros [?|[?|(Hall & _)]]; [congruence|lia|].
        by destruct Hov; apply Hall.
      + intros _. split; [|done]. intros _. split; [done|]. split; [done|].
        left. by exists ov. }
  (* the stored output values are all among the lines *)
  assert (∀ ov, ov ∈ stored_output_values c → offset ov ∈ offs) as Hout.
  { destruct P1 as [(Hz & _)|(_ & _ & _ & a0 & m & v & _ & Hs & _)].
    - intros ov Hin. unfold stored_output_values in Hin. rewrite Hz in Hin.
      by apply elem_of_nil in Hin.
    - rewrite (set_kernel_output_values_eq c offs Hwf) in Hs.
      injection Hs as Hs. by apply (output_bits_ok_inv _ _ _ _ _ Hs). }
  destruct (before_secondaries_reached c buf offs k b1 Hwf Hbuf H1)
    as (b2 & H2 & Hb2 & _ & Hle).
  rewrite H2. simpl.
  pose proof (first_secondary_slot_le c) as Hfirst.
  destruct (to_kernel_secondaries_spec c offs Hwf (num_secondary c) 0
              (first_secondary_slot c) b2) as (out3 & H3 & P3);
    [lia|done|unfold GPIO_V2_LINE_NUM_ATTRS_MAX; lia|].
  rewrite H3. simpl.
  destruct out3 as [res|[a' b3]]; simpl in P3.
  - intros [= <-].
    destruct (to_kernel_secondaries_exit c offs Hwf (num_secondary c) 0
                (first_secondary_slot c) b2 res)
      as (j & Hj & Hbefore & Hcase);
      [lia|done|unfold GPIO_V2_LINE_NUM_ATTRS_MAX; lia|done|].
    simpl in Hbefore, Hcase.
    destruct Hcase as [(He & Hwhy)|(He & Hslot & s & Hs & Hfit & Hno)].
    + (* the loop left through [err_2big] at block [j] *)
      split.
      * split; [|done]. intros _. right. right. split; [done|].
        exists j. split; [lia|]. split; [done|]. done.
      * intros _. split; [congruence|].
        intros (_ & _ & [(ov & Hin & Hov)|Hblk]).
        { by destruct Hov; apply Hout. }
        exfalso.
        destruct Hblk as (j2 & s2 & Hslot2 & Hs2 & Hfit2 & Hno2 & Hbefore2).
        destruct (decide (j2 < j)) as [Hlt|Hge].
        { destruct (Hbefore j2 s2 Hlt Hs2) as (_ & ?). done. }
        destruct (decide (j2 = j)) as [->|Hne].
        { destruct Hwhy as [?|(s' & Hs' & Hbig)]; [lia|].
          assert (s' = s2) as -> by congruence. unfold block_fits in Hfit2.
          lia. }
        destruct Hwhy as [?|(s' & Hs' & Hbig)]; [lia|].
        destruct (Hbefore2 j s' ltac:(lia) Hs') as (Hf' & _).
        unfold block_fits in Hf'. lia.
    + (* the loop left with [EINVAL] at block [j] *)
      split.
      * split; [congruence|].
        intros [?|[?|(_ & j2 & Hj2 & Hwhy2 & Hbefore2)]]; [congruence|lia|].
        exfalso.
        destruct (decide (j < j2)) as [Hlt|Hge].
        { destruct (Hbefore2 j s Hlt Hs) as (_ & ?). done. }
        destruct (decide (j2 = j)) as [->|Hne].
        { destruct Hwhy2 as [?|(s' & Hs' & Hbig)]; [lia|].
          assert (s' = s) as -> by congruence. unfold block_fits in Hfit.
          lia. }
        destruct Hwhy2 as [?|(s' & Hs' & Hbig)]; [lia|].
        destruct (Hbefore j2 s' ltac:(lia) Hs') as (Hf' & _).
        unfold block_fits in Hf'. lia.
      * intros _. split; [|done]. intros _. split; [done|]. split; [done|].
        right. exists j, s. done.
  - (* the loop ran to its end *)
    destruct P3 as (-> & Ha' & _ & _ & Hall).
    assert (∀ j s, j < num_secondary c → secondary c !! j = Some s →
                   num_offsets s ≤ length offs) as Hfits.
    { intros j s Hj Hs.
      destruct (Hall j Hj) as (s' & _ & _ & Hs' & _ & Hn & _).
      simpl in Hs'. assert (s' = s) as -> by congruence. done. }
    assert (¬ e2big_first c offs) as Hne.
    { intros [?|[?|(_ & j & Hj & Hwhy & _)]]; [congruence|lia|].
      destruct Hwhy as [?|(s & Hs & Hbig)]; [lia|].
      specialize (Hfits j s Hj Hs). lia. }
    rewrite <- attr_slots_eq in Ha'.
    destruct (gpiod_make_kernel_flags (primary c)) as [f|e] eqn:Hf.
    + intros [= <-]. simpl. split; [split; [done|by intros ?]|]. lia.
    + apply make_kernel_flags_errno in Hf as ->.
      intros [= <-]. simpl. split; [split; [done|by intros ?]|]. lia.
Qed.

End CompileExits.

(** ** Failure with [E2BIG] *)

(** C4, counterexample. One output value for offset 7 and ten secondaries
    ask for eleven attribute slots; compiled against the single line 1 the
    function returns -1 with [EINVAL], not [E2BIG], because the output value
    is looked up in the offset list before the slots are counted. *)
Lemma slot_overflow_reported_as_einval :
  ∃ c r, apply_setters (L := libc_insertion)
           (OutputValue 7 1 :: ten_subsets) gpiod_line_config_new
         = Some c
         ∧ too_complex c = false
         ∧ num_output_values c ≤ length [1%Z]
         ∧ GPIO_V2_LINE_NUM_ATTRS_MAX < attr_slots c
         ∧ gpiod_line_config_to_kernel (K := linux_uapi) (Some c)
             zero_kernel_config [1%Z] = Some r
         ∧ ret r = (-1)%Z
         ∧ errno r = Some EINVAL.
Proof.
  eexists _, _. split; [vm_compute; reflexivity|]. split; [reflexivity|].
  split; [simpl; lia|].
  split; [unfold GPIO_V2_LINE_NUM_ATTRS_MAX; vm_compute; lia|].
  split; [vm_compute; reflexivity|]. vm_compute. done.
Qed.

(** C4, amended. Compiling a non-[NULL] config returns -1 with [E2BIG]
    whenever [too_complex] is set or more output values are stored than lines
    are requested, so a set flag makes every later compilation fail that way.
    It returns [E2BIG] only if one of these holds, or the attribute slots
    exceed the kernel limit, or a secondary in use holds more offsets than
    there are lines; exactly, it returns [E2BIG] when one of the two guards
    in front fires, or when every stored output value is among the lines and
    the first secondary that does not pass is one that finds the slots used
    up or holds more offsets than there are lines ([e2big_first]). When the
    slots exceed the limit the compilation never succeeds: it returns -1, with
    [EINVAL] exactly when an earlier step has failed (the lookup of a stored
    output value, or the flag translation or the mask of a secondary that
    still has a slot and is the first not to pass,
    [einval_before_slot_limit]), and with [E2BIG] otherwise. No setter call
    clears the flag. *)
Theorem to_kernel_e2big `{K : gpio_v2_uapi} {L : libc}
    (c : gpiod_line_config) (buf : gpio_v2_line_config) (offs : list Z) :
  wf_config c → wf_cfgbuf buf →
  ∃ r, gpiod_line_config_to_kernel (Some c) buf offs = Some r
       ∧ (too_complex c = true ∨ length offs < num_output_values c →
          ret r = (-1)%Z ∧ errno r = Some E2BIG)
       ∧ (errno r = Some E2BIG →
          ret r = (-1)%Z
          ∧ (too_complex c = true ∨ length offs < num_output_values c
             ∨ GPIO_V2_LINE_NUM_ATTRS_MAX < attr_slots c
             ∨ ∃ s, s ∈ used_secondaries c ∧ length offs < num_offsets s))
       ∧ (errno r = Some E2BIG ↔ e2big_first c offs)
       ∧ (GPIO_V2_LINE_NUM_ATTRS_MAX < attr_slots c →
          ret r = (-1)%Z
          ∧ (errno r = Some E2BIG ∨ errno r = Some EINVAL)
          ∧ (errno r = Some EINVAL ↔ einval_before_slot_limit c offs)
          ∧ (errno r = Some E2BIG ↔ ¬ einval_before_slot_limit c offs))
       ∧ (∀ call c', too_complex c = true →
                     apply_setter call c = Some c' → too_complex c' = true).
Proof.
  intros Hwf Hbuf.
  destruct (to_kernel_spec c buf offs Hwf Hbuf)
    as (r & Hr & Hexit & Hguard & _ & Hok).
  destruct (to_kernel_errno_spec c buf offs Hwf Hbuf)
    as (r' & Hr' & He2big & Heinval).
  assert (r' = r) as -> by congruence.
  exists r. split; [done|]. split; [|split; [|split; [|split]]].
  - intros H. by rewrite (Hguard H).
  - intros He.
    destruct Hexit as [(_ & He' & _)|[(Hres & Hwhy)|(Hres & _)]].
    + congruence.
    + split; [by rewrite Hres|done].
    + rewrite Hres in He. done.
  - exact He2big.
  - intros Hslots. specialize (Heinval Hslots).
    destruct Hexit as [(Hret & _)|[(Hres & _)|(Hres & _)]].
    + apply Hok in Hret as (Hle & _). lia.
    + assert (errno r = Some E2BIG) as He by (by rewrite Hres).
      split; [by rewrite Hres|]. split; [by left|]. split; [done|].
      split; [|done]. intros _. rewrite <- Heinval. congruence.
    + assert (errno r = Some EINVAL) as He by (by rewrite Hres).
      split; [by rewrite Hres|]. split; [by right|]. split; [done|].
      split; [congruence|]. intros Hno. destruct Hno. by apply Heinval.
  - intros call c' Htc Hcall.
    rewrite (apply_setter_too_complex call c Htc) in Hcall.
    injection Hcall as <-. by destruct call.
Qed.

Lemma to_kernel_e2big_witness :
  ∃ r, gpiod_line_config_to_kernel (K := linux_uapi)
         (Some eleven_slots_config) zero_kernel_config [1%Z] = Some r
       ∧ (too_complex eleven_slots_config = true
          ∨ length [1%Z] < num_output_values eleven_slots_config →
          ret r = (-1)%Z ∧ errno r = Some E2BIG)
       ∧ (errno r = Some E2BIG →
          ret r = (-1)%Z
          ∧ (too_complex eleven_slots_config = true
             ∨ length [1%Z] < num_output_values eleven_slots_config
             ∨ GPIO_V2_LINE_NUM_ATTRS_MAX < attr_slots eleven_slots_config
             ∨ ∃ s, s ∈ used_secondaries eleven_slots_config
                    ∧ length [1%Z] < num_offsets s))
       ∧ (errno r = Some E2BIG ↔ e2big_first eleven_slots_config [1%Z])
       ∧ (GPIO_V2_LINE_NUM_ATTRS_MAX < attr_slots eleven_slots_config →
          ret r = (-1)%Z
          ∧ (errno r = Some E2BIG ∨ errno r = Some EINVAL)
          ∧ (errno r = Some EINVAL
             ↔ einval_before_slot_limit eleven_slots_config [1%Z])
          ∧ (errno r = Some E2BIG
             ↔ ¬ einval_before_slot_limit eleven_slots_config [1%Z]))
       ∧ (∀ call c', too_complex eleven_slots_config = true →
                     apply_setter (L := libc_insertion) call
                       eleven_slots_config = Some c' →
                     too_complex c' = true).
Proof.
  apply (to_kernel_e2big (K := linux_uapi) (L := libc_insertion)
           eleven_slots_config zero_kernel_config [1%Z]).
  - wf_by_compute.
  - reflexivity.
Defined.

(** The same config evaluated: a primary debounce period and ten
    secondaries ask for eleven slots, nothing fails before the slots are used
    up, and the compilation returns -1 with [E2BIG] and sets [too_complex]. *)
Example slot_overflow_alone_is_e2big :
  attr_slots eleven_slots_config = 11
  ∧ too_complex eleven_slots_config = false
  ∧ ((λ r, (ret r, errno r, too_complex <$> config_after r)) <$>
       gpiod_line_config_to_kernel (K := linux_uapi)
         (Some eleven_slots_config) zero_kernel_config [1%Z])
    = Some ((-1)%Z, Some E2BIG, Some true).
Proof. by vm_compute. Qed.

(** ** One attribute per secondary *)

(** C9, counterexample. A block with the debounce period 2^32 + 5 compiles
    to a debounce attribute whose period member holds 5: the member is a
    [__u32] and the assignment keeps the period modulo 2^32. *)
Lemma debounce_period_truncated_to_32_bits :
  ∃ s r a, used_secondaries long_debounce_config = [s]
    ∧ debounce_period (config s) = 4294967301%Z
    ∧ gpiod_line_config_to_kernel (K := linux_uapi)
        (Some long_debounce_config) zero_kernel_config [5%Z] = Some r
    ∧ ret r = 0%Z
    ∧ num_attrs (cfgbuf r) = 1%Z
    ∧ attrs (cfgbuf r) !! 0 = Some a
    ∧ id (attr a) = @GPIO_V2_LINE_ATTR_ID_DEBOUNCE linux_uapi
    ∧ debounce_period_us (attr a) = 5%Z
    ∧ debounce_period_us (attr a) ≠ debounce_period (config s).
Proof.
  eexists _, _, _. split; [vm_compute; reflexivity|].
  split; [reflexivity|]. split; [vm_compute; reflexivity|].
  split; [reflexivity|]. split; [reflexivity|]. split; [reflexivity|].
  split; [reflexivity|]. split; [reflexivity|]. vm_compute. discriminate.
Qed.

(** C9, amended. When a config compiles, every secondary in use takes
    exactly one attribute slot, the slots following those of the output
    values and of the primary debounce period, and the slot receives the mask
    of the block. A block whose debounce period is non-zero is emitted there
    as a debounce attribute whose period member holds that period modulo
    2^32, which is the period itself when it is below 2^32; the block's other
    options are not consulted, and of the slot's previous content only [id],
    the low half of the union and the mask are overwritten. A block whose
    debounce period is zero is emitted as a flags attribute holding the
    translation of its options. *)
Theorem secondary_emitted_as_debounce_or_flags `{K : gpio_v2_uapi}
    (c : gpiod_line_config) (buf : gpio_v2_line_config) (offs : list Z)
    (i : nat) (s : secondary_config) (a0 : gpio_v2_line_config_attribute) :
  wf_config c → wf_cfgbuf buf → compilable c offs →
  i < num_secondary c →
  secondary c !! i = Some s →
  attrs buf !! (first_secondary_slot c + i) = Some a0 →
  ∃ r a m, gpiod_line_config_to_kernel (Some c) buf offs = Some r
    ∧ ret r = 0%Z
    ∧ num_attrs (cfgbuf r)
      = Z.of_nat (first_secondary_slot c + num_secondary c)
    ∧ attrs (cfgbuf r) !! (first_secondary_slot c + i) = Some a
    ∧ set_secondary_mask s offs = Some (Ok m)
    ∧ mask a = m
    ∧ padding (attr a) = padding (attr a0)
    ∧ (debounce_period (config s) ≠ 0%Z →
       id (attr a) = GPIO_V2_LINE_ATTR_ID_DEBOUNCE
       ∧ debounce_period_us (attr a)
         = (debounce_period (config s) mod 2 ^ 32)%Z
       ∧ ((0 ≤ debounce_period (config s) < 2 ^ 32)%Z →
          debounce_period_us (attr a) = debounce_period (config s))
       ∧ (attr_union (attr a) / 2 ^ 32 = attr_union (attr a0) / 2 ^ 32)%Z)
    ∧ (debounce_period (config s) = 0%Z →
       ∃ f, gpiod_make_kernel_flags (config s) = Ok f
         ∧ id (attr a) = GPIO_V2_LINE_ATTR_ID_FLAGS
         ∧ attr_flags (attr a) = f).
Proof.
  intros Hwf Hbuf Hc Hi Hs Ha0.
  destruct (to_kernel_spec c buf offs Hwf Hbuf) as (r & Hr & _ & _ & _ & Hok).
  pose proof (compilable_ret c buf offs r Hwf Hbuf Hc Hr) as Hret.
  destruct (Hok Hret) as (_ & Hnum & _ & Hlen & _ & _ & Hall).
  destruct (Hall i Hi) as (s' & a0' & m & Hs' & Ha0' & _ & Hm & Hat).
  assert (s' = s) as -> by congruence.
  assert (a0' = a0) as -> by congruence.
  destruct Hc as (_ & _ & _ & _ & _ & Hsec).
  rewrite Forall_lookup in Hsec.
  destruct (Hsec i s) as (_ & Hrec & _).
  { apply lookup_take_Some. by split. }
  unfold secondary_attribute in Hat.
  destruct (decide (debounce_period (config s) ≠ 0%Z)) as [Hd|Hd].
  - (* the debounce branch: [id] and the period member *)
    destruct (debounce_attribute_fields (debounce_period (config s))
                GPIO_V2_LINE_ATTR_ID_DEBOUNCE m a0)
      as (Hid & Hpad & Hper & Hhigh & Hmask).
    eexists r, _, m. split; [done|]. split; [done|]. split; [done|].
    split; [exact Hat|]. split; [done|]. split; [done|]. split; [done|].
    split; [|done]. intros _. split; [done|]. split; [done|].
    split; [|done]. intros Hsmall. rewrite Hper. by apply Z.mod_small.
  - (* the flags branch: the options translate, as the config compiles *)
    destruct (make_kernel_flags_cases (config s)) as [[[f Hf] _]|[_ Hno]].
    2:{ destruct Hno. apply Hrec.
        destruct (decide (debounce_period (config s) = 0%Z)); [done|].
        by destruct Hd. }
    rewrite Hf in Hat.
    eexists r, _, m. split; [done|]. split; [done|]. split; [done|].
    split; [exact Hat|]. split; [done|]. split; [done|]. split; [done|].
    split; [done|]. intros _. by exists f.
Qed.

Lemma secondary_emitted_as_debounce_or_flags_witness :
  ∃ r a m, gpiod_line_config_to_kernel (K := linux_uapi)
             (Some debounce_and_bias_config) zero_kernel_config [5%Z] = Some r
    ∧ ret r = 0%Z
    ∧ num_attrs (cfgbuf r)
      = Z.of_nat (first_secondary_slot debounce_and_bias_config
                  + num_secondary debounce_and_bias_config)
    ∧ attrs (cfgbuf r) !! (first_secondary_slot debounce_and_bias_config + 0)
      = Some a
    ∧ set_secondary_mask debounce_and_bias_block [5%Z] = Some (Ok m)
    ∧ mask a = m
    ∧ padding (attr a) = padding (attr zero_attribute)
    ∧ (debounce_period (config debounce_and_bias_block) ≠ 0%Z →
       id (attr a) = @GPIO_V2_LINE_ATTR_ID_DEBOUNCE linux_uapi
       ∧ debounce_period_us (attr a)
         = (debounce_period (config debounce_and_bias_block) mod 2 ^ 32)%Z
       ∧ ((0 ≤ debounce_period (config debounce_and_bias_block) < 2 ^ 32)%Z →
          debounce_period_us (attr a)
          = debounce_period (config debounce_and_bias_block))
       ∧ (attr_union (attr a) / 2 ^ 32
          = attr_union (attr zero_attribute) / 2 ^ 32)%Z)
    ∧ (debounce_period (config debounce_and_bias_block) = 0%Z →
       ∃ f, gpiod_make_kernel_flags (K := linux_uapi)
              (config debounce_and_bias_block) = Ok f
         ∧ id (attr a) = @GPIO_V2_LINE_ATTR_ID_FLAGS linux_uapi
         ∧ attr_flags (attr a) = f).
Proof.
  apply (secondary_emitted_as_debounce_or_flags (K := linux_uapi)
           debounce_and_bias_config zero_kernel_config [5%Z] 0
           debounce_and_bias_block zero_attribute).
  - wf_by_compute.
  - reflexivity.
  - (* the config meets every check of the compilation *)
    split; [reflexivity|]. split; [vm_compute; lia|].
    split; [vm_compute; lia|]. split.
    { intros ov Hov. vm_compute in Hov. by apply elem_of_nil in Hov. }
    split.
    { unfold recognized. vm_compute. tauto. }
    apply Forall_forall. intros s Hs. vm_compute in Hs.
    apply list_elem_of_singleton in Hs as ->.
    split; [simpl; lia|]. split; [intros Hd; discriminate Hd|].
    intros o Ho. vm_compute in Ho. by apply elem_of_nil in Ho.
  - vm_compute. lia.
  - vm_compute. reflexivity.
  - vm_compute. reflexivity.
Defined.

(** The same config evaluated: the block holds a debounce period and a bias,
    and the one attribute emitted for it is a debounce attribute; no flag
    word is computed for the block, and the union holds the period alone. *)
Example debounce_block_drops_bias :
  bias (config debounce_and_bias_block) = GPIOD_LINE_CONFIG_BIAS_PULL_UP
  ∧ used_secondaries debounce_and_bias_config = [debounce_and_bias_block]
  ∧ ((λ r, (ret r, num_attrs (cfgbuf r), attrs (cfgbuf r) !! 0)) <$>
       gpiod_line_config_to_kernel (K := linux_uapi)
         (Some debounce_and_bias_config) zero_kernel_config [5%Z])
    = Some (0%Z, 1%Z,
            Some (mk_config_attribute (mk_line_attribute 3 0 10000) 0)).
Proof. by vm_compute. Qed.

(** ** Invariants of the objects the setters build *)

Section SetterInvariants.
Context {L : libc}.

Lemma subset_setter_wf f c offs c' :
  wf_config c → subset_setter f c offs = Some c' → wf_config c'.
Proof.
  intros [Hsl Hsn Hvl Hvn Hoffs]. unfold subset_setter. intros H.
  destruct (get_secondary_config c offs) as [[c1 sec]|] eqn:Hg; [|done].
  simpl in H.
  apply get_secondary_config_frame in Hg as (_ & Hs & Hv & Hn & _ & Hsec).
  destruct sec as [i|].
  - destruct (secondary c1 !! i) as [s|] eqn:Hi; [|done]. simpl in H.
    unfold store in H. case_decide; [|done]. simpl in H. injection H as <-.
    split; simpl.
    + rewrite length_insert. congruence.
    + destruct Hsec as [[_ ->]|(_ & -> & Hne)]; lia.
    + congruence.
    + congruence.
    + apply Forall_insert; [by rewrite Hs|]. simpl.
      rewrite Hs in Hi. rewrite Forall_lookup in Hoffs. by apply (Hoffs i).
  - injection H as <-. split; congruence.
Qed.

Lemma set_output_values_loop_frame vals :
  ∀ c c', set_output_values_loop c vals = Some c' →
  primary c' = primary c ∧ secondary c' = secondary c
  ∧ num_secondary c' = num_secondary c.
Proof.
  induction vals as [|[off val] vals IH]; intros c c' H; simpl in H.
  { by injection H as <-. }
  destruct (output_value_find_offset c off) as [[p|]|]; simpl in H; [| |done].
  - unfold set_output_value, store in H. case_decide; [|done]. simpl in H.
    by apply IH in H.
  - case_decide; [by injection H as <-|].
    unfold set_output_value, store in H. case_decide; [|done]. simpl in H.
    by apply IH in H.
Qed.

Lemma set_output_values_loop_wf vals :
  ∀ c c', wf_config c → set_output_values_loop c vals = Some c' →
  wf_config c'.
Proof.
  induction vals as [|[off val] vals IH]; intros c c' Hwf H; simpl in H.
  { by injection H as <-. }
  destruct Hwf as [Hsl Hsn Hvl Hvn Hoffs].
  destruct (output_value_find_offset c off) as [[p|]|]; simpl in H; [| |done].
  - unfold set_output_value, store in H. case_decide; [|done]. simpl in H.
    apply IH in H; [done|]. split; simpl; try done. by rewrite length_insert.
  - case_decide as Hmax; [injection H as <-; by split|].
    unfold set_output_value, store in H. case_decide; [|done]. simpl in H.
    apply IH in H; [done|]. split; simpl; try done.
    + by rewrite length_insert.
    + lia.
Qed.

(** Every setter keeps the arrays and counters of the object in shape. *)
Lemma apply_setter_wf call c c' :
  wf_config c → apply_setter call c = Some c' → wf_config c'.
Proof.
  intros Hwf. destruct call as [o|o off|o offs|off val|vals]; simpl.
  - intros [= <-]. rewrite call_global_eq. by destruct Hwf.
  - rewrite call_offset_eq. by apply subset_setter_wf.
  - rewrite call_subset_eq. by apply subset_setter_wf.
  - unfold gpiod_line_config_set_output_value,
      gpiod_line_config_set_output_values.
    destruct (too_complex c); [by intros [= <-]|].
    by apply set_output_values_loop_wf.
  - unfold gpiod_line_config_set_output_values.
    destruct (too_complex c); [by intros [= <-]|].
    by apply set_output_values_loop_wf.
Qed.

Lemma apply_setters_wf calls :
  ∀ c c', wf_config c → apply_setters calls c = Some c' → wf_config c'.
Proof.
  induction calls as [|call calls IH]; intros c c' Hwf H; simpl in H.
  { by injection H as <-. }
  destruct (apply_setter call c) as [c1|] eqn:H1; [|done]. simpl in H.
  eapply IH; [|exact H]. by eapply apply_setter_wf.
Qed.

(** No setter writes the offset list of a block, so every block of a config
    built from [gpiod_line_config_new] has the empty offset list. *)
Lemma apply_setter_offsets call c c' :
  apply_setter call c = Some c' →
  secondary_offset_list <$> secondary c'
  = secondary_offset_list <$> secondary c.
Proof.
  assert (∀ l l' : list secondary_config,
            offsets <$> l' = offsets <$> l →
            num_offsets <$> l' = num_offsets <$> l →
            secondary_offset_list <$> l' = secondary_offset_list <$> l) as Hlist.
  { induction l as [|x l IH]; intros [|y l'] Ho Hn; try done.
    rewrite !fmap_cons in *. injection Ho as Ho1 Ho2. injection Hn as Hn1 Hn2.
    f_equal; [|by apply IH]. unfold secondary_offset_list. congruence. }
  destruct call as [o|o off|o offs|off val|vals]; simpl.
  - intros [= <-]. by rewrite call_global_eq.
  - rewrite call_offset_eq. intros H.
    apply subset_setter_offsets in H as [? ?]. by apply Hlist.
  - rewrite call_subset_eq. intros H.
    apply subset_setter_offsets in H as [? ?]. by apply Hlist.
  - unfold gpiod_line_config_set_output_value,
      gpiod_line_config_set_output_values.
    destruct (too_complex c); [by intros [= <-]|]. intros H.
    apply set_output_values_loop_frame in H as (_ & -> & _). done.
  - unfold gpiod_line_config_set_output_values.
    destruct (too_complex c); [by intros [= <-]|]. intros H.
    apply set_output_values_loop_frame in H as (_ & -> & _). done.
Qed.

Lemma reachable_blocks_unseeded calls c :
  apply_setters calls gpiod_line_config_new = Some c →
  Forall (λ s, secondary_offset_list s = []) (secondary c).
Proof.
  assert (∀ calls c0 c1, apply_setters calls c0 = Some c1 →
            secondary_offset_list <$> secondary c1
            = secondary_offset_list <$> secondary c0) as Hall.
  { clear. induction calls as [|call calls IH]; intros c0 c1 H; simpl in H.
    { by injection H as <-. }
    destruct (apply_setter call c0) as [c2|] eqn:H1; [|done]. simpl in H.
    rewrite (IH _ _ H). by apply (apply_setter_offsets call). }
  intros H. apply Hall in H.
  apply (Forall_fmap secondary_offset_list (λ l : list Z, l = [])).
  rewrite H. simpl. by repeat constructor.
Qed.

Lemma output_value_find_from_spec c off fuel :
  ∀ i res, output_value_find_from c off i fuel = Some res →
  match res with
  | Some p => i ≤ p < i + fuel
              ∧ ∃ ov, output_values c !! p = Some ov ∧ offset ov = off
  | None => ∀ p ov, i ≤ p < i + fuel → output_values c !! p = Some ov →
                    offset ov ≠ off
  end.
Proof.
  induction fuel as [|fuel IH]; intros i res H; simpl in H.
  { injection H as <-. intros p ov Hp. lia. }
  destruct (output_values c !! i) as [ov|] eqn:Hi; [|done]. simpl in H.
  case_decide as Hoff.
  - injection H as <-. split; [lia|]. by exists ov.
  - apply IH in H. destruct res as [p|].
    + destruct H as [Hp Hov]. split; [lia|done].
    + intros p ov' Hp Hov'. destruct (decide (p = i)) as [->|Hne].
      * congruence.
      * apply (H p); [lia|done].
Qed.

(** Each offset has at most one stored output value: a later value for the
    same offset overwrites the earlier one. *)
Lemma set_output_values_loop_unique vals :
  ∀ c c', wf_config c →
  NoDup (offset <$> stored_output_values c) →
  set_output_values_loop c vals = Some c' →
  NoDup (offset <$> stored_output_values c').
Proof.
  induction vals as [|[off val] vals IH]; intros c c' Hwf Hnd H; simpl in H.
  { by injection H as <-. }
  destruct (output_value_find_offset c off) as [[p|]|] eqn:Hfind;
    simpl in H; [| |done].
  - apply output_value_find_from_spec in Hfind as (Hp & ov & Hov & Hoff).
    unfold set_output_value, store in H. case_decide as Hlt; [|done].
    simpl in H.
    assert (wf_config
              (with_output_values
                 (<[p:=mk_output_value off val]> (output_values c)) c)) as Hwf1.
    { destruct Hwf. split; simpl; try done. by rewrite length_insert. }
    apply (IH _ _ Hwf1); [|done].
    unfold stored_output_values. simpl.
    rewrite take_insert_lt by lia. rewrite list_fmap_insert. simpl.
    rewrite list_insert_id; [done|].
    rewrite list_lookup_fmap, lookup_take_lt by lia. by rewrite Hov, <- Hoff.
  - pose proof (output_value_find_from_spec _ _ _ _ _ Hfind) as Hnone.
    simpl in Hnone.
    case_decide as Hmax; [by injection H as <-|].
    unfold set_output_value, store in H. case_decide as Hlt; [|done].
    simpl in H.
    assert (wf_config
              (with_num_output_values (S (num_output_values c))
                 (with_output_values
                    (<[num_output_values c:=mk_output_value off val]>
                       (output_values c)) c))) as Hwf1.
    { destruct Hwf. split; simpl; try done; [by rewrite length_insert|lia]. }
    apply (IH _ _ Hwf1); [|done].
    unfold stored_output_values. simpl.
    rewrite (take_S_r _ _ (mk_output_value off val))
      by (by apply list_lookup_insert_eq).
    rewrite take_insert_ge by lia. rewrite fmap_app. simpl.
    apply NoDup_app. split; [done|]. split; [|apply NoDup_singleton].
    intros y Hy Hy'. apply list_elem_of_singleton in Hy' as ->.
    apply list_elem_of_fmap in Hy as (ov & Hoff & Hin).
    apply elem_of_take in Hin as (j & Hj & Hjn).
    by apply (Hnone j ov); [lia|done|].
Qed.

Lemma apply_setter_outputs_unique call c c' :
  wf_config c →
  NoDup (offset <$> stored_output_values c) →
  apply_setter call c = Some c' →
  NoDup (offset <$> stored_output_values c').
Proof.
  intros Hwf Hnd. unfold stored_output_values.
  destruct call as [o|o off|o offs|off val|vals]; simpl.
  - intros [= <-]. by rewrite call_global_eq.
  - rewrite call_offset_eq. unfold subset_setter. intros H.
    destruct (get_secondary_config c [off]) as [[c1 sec]|] eqn:Hg; [|done].
    simpl in H. apply get_secondary_config_frame in Hg as (_ & _ & Hv & Hn & _).
    destruct sec as [i|]; [|injection H as <-; by rewrite Hv, Hn].
    destruct (secondary c1 !! i); [|done]. simpl in H.
    unfold store in H. case_decide; [|done]. injection H as <-. simpl.
    by rewrite Hv, Hn.
  - rewrite call_subset_eq. unfold subset_setter. intros H.
    destruct (get_secondary_config c offs) as [[c1 sec]|] eqn:Hg; [|done].
    simpl in H. apply get_secondary_config_frame in Hg as (_ & _ & Hv & Hn & _).
    destruct sec as [i|]; [|injection H as <-; by rewrite Hv, Hn].
    destruct (secondary c1 !! i); [|done]. simpl in H.
    unfold store in H. case_decide; [|done]. injection H as <-. simpl.
    by rewrite Hv, Hn.
  - unfold gpiod_line_config_set_output_value,
      gpiod_line_config_set_output_values.
    destruct (too_complex c); [by intros [= <-]|].
    by apply set_output_values_loop_unique.
  - unfold gpiod_line_config_set_output_values.
    destruct (too_complex c); [by intros [= <-]|].
    by apply set_output_values_loop_unique.
Qed.

End SetterInvariants.

(** * Further properties of the code *)

(** ** Lookup in the offset list *)

(** X1. [find_bitmap_index] returns the first position at which the needle
    occurs in the haystack, and -1 exactly when it does not occur. *)
Theorem find_bitmap_index_first (needle : Z) (haystack : list Z) :
  match find_bitmap_index needle haystack with
  | Some k => haystack !! k = Some needle
              ∧ ∀ j, j < k → haystack !! j ≠ Some needle
  | None => needle ∉ haystack
  end.
Proof.
  induction haystack as [|h t IH]; simpl; [apply not_elem_of_nil|].
  case_decide as Hh.
  - subst. split; [done|]. intros j Hj. lia.
  - destruct (find_bitmap_index needle t) as [k|]; simpl.
    + destruct IH as [Hk Hfirst]. split; [done|].
      intros [|j] Hj; simpl; [congruence|]. apply Hfirst. lia.
    + apply not_elem_of_cons. done.
Qed.

(** ** The comparator of the sort *)

(** X9. For two 32-bit offsets, [offset_compare] returns their difference
    when it fits a signed 32-bit integer; when the first exceeds the second
    by 2^31 or more the result is negative, and when the second exceeds the
    first by more than 2^31 the result is positive: the order is reversed
    for offsets that far apart. *)
Theorem offset_compare_sign (a b : Z) :
  (0 ≤ a < 2 ^ 32)%Z → (0 ≤ b < 2 ^ 32)%Z →
  ((- 2 ^ 31 ≤ a - b < 2 ^ 31)%Z → offset_compare a b = (a - b)%Z)
  ∧ ((2 ^ 31 ≤ a - b)%Z →
     offset_compare a b = (a - b - 2 ^ 32)%Z ∧ (offset_compare a b < 0)%Z)
  ∧ ((a - b < - 2 ^ 31)%Z →
     offset_compare a b = (a - b + 2 ^ 32)%Z ∧ (0 < offset_compare a b)%Z).
Proof.
  intros Ha Hb. unfold offset_compare.
  destruct (Z.le_gt_cases 0 (a - b)) as [Hpos|Hneg].
  - rewrite (Z.mod_small (a - b)) by lia.
    destruct (Z.ltb_spec (a - b) (2 ^ 31)); repeat split; lia.
  - assert (((a - b) mod 2 ^ 32)%Z = (a - b + 2 ^ 32)%Z) as ->.
    { rewrite <- (Z.mod_add (a - b) 1 (2 ^ 32)) by lia.
      rewrite Z.mul_1_l. apply Z.mod_small. lia. }
    destruct (Z.ltb_spec (a - b + 2 ^ 32) (2 ^ 31)); repeat split; lia.
Qed.

Lemma offset_compare_sign_witness :
  ((- 2 ^ 31 ≤ 0 - 2147483649 < 2 ^ 31)%Z →
   offset_compare 0 2147483649 = (0 - 2147483649)%Z)
  ∧ ((2 ^ 31 ≤ 0 - 2147483649)%Z →
     offset_compare 0 2147483649 = (0 - 2147483649 - 2 ^ 32)%Z
     ∧ (offset_compare 0 2147483649 < 0)%Z)
  ∧ ((0 - 2147483649 < - 2 ^ 31)%Z →
     offset_compare 0 2147483649 = (0 - 2147483649 + 2 ^ 32)%Z
     ∧ (0 < offset_compare 0 2147483649)%Z).
Proof. apply (offset_compare_sign 0 2147483649); lia. Defined.

(** ** Single-offset setters *)

Section SetterProperties.
Context {L : libc}.

(** X12. A single-offset setter does not depend on the offset it is given:
    [sanitize_offsets] returns at once for one offset, and nothing else reads
    the array, so the call acts on whatever the scratch array held before. *)
Theorem single_offset_setter_ignores_offset
    (o : line_option) (c : gpiod_line_config) (off1 off2 : Z) :
  call_offset o c off1 = call_offset o c off2.
Proof.
  rewrite !call_offset_eq. unfold subset_setter, get_secondary_config.
  destruct (too_complex c); [done|].
  unfold sanitize_offsets. simpl.
  by destruct (decide (1 = 0 ∨ 1 = 1)) as [_|[]]; [|right].
Qed.

(** ** Translation of the options *)

(** X14. With the kernel's flag values, every field of a base config can be
    read back from the flag word [gpiod_make_kernel_flags] returns: the
    output bit is set exactly for direction output (also when an edge is
    set), the input bit exactly for direction input or an edge, the edge,
    drive, bias, active-low and realtime bits exactly for their options; the
    default tags and 0 set no bit, and no other bit of the word is set. *)
Theorem kernel_flags_decode (cfg : base_config) (f : Z) :
  gpiod_make_kernel_flags (K := linux_uapi) cfg = Ok f →
  Z.testbit f 1 = active_low cfg
  ∧ Z.testbit f 2
    = bool_decide (direction cfg = GPIOD_LINE_CONFIG_DIRECTION_INPUT
                   ∨ edge cfg = GPIOD_LINE_CONFIG_EDGE_FALLING
                   ∨ edge cfg = GPIOD_LINE_CONFIG_EDGE_RISING
                   ∨ edge cfg = GPIOD_LINE_CONFIG_EDGE_BOTH)
  ∧ Z.testbit f 3
    = bool_decide (direction cfg = GPIOD_LINE_CONFIG_DIRECTION_OUTPUT)
  ∧ Z.testbit f 4
    = bool_decide (edge cfg = GPIOD_LINE_CONFIG_EDGE_RISING
                   ∨ edge cfg = GPIOD_LINE_CONFIG_EDGE_BOTH)
  ∧ Z.testbit f 5
    = bool_decide (edge cfg = GPIOD_LINE_CONFIG_EDGE_FALLING
                   ∨ edge cfg = GPIOD_LINE_CONFIG_EDGE_BOTH)
  ∧ Z.testbit f 6
    = bool_decide (drive cfg = GPIOD_LINE_CONFIG_DRIVE_OPEN_DRAIN)
  ∧ Z.testbit f 7
    = bool_decide (drive cfg = GPIOD_LINE_CONFIG_DRIVE_OPEN_SOURCE)
  ∧ Z.testbit f 8
    = bool_decide (bias cfg = GPIOD_LINE_CONFIG_BIAS_PULL_UP)
  ∧ Z.testbit f 9
    = bool_decide (bias cfg = GPIOD_LINE_CONFIG_BIAS_PULL_DOWN)
  ∧ Z.testbit f 10
    = bool_decide (bias cfg = GPIOD_LINE_CONFIG_BIAS_DISABLED)
  ∧ Z.testbit f 11
    = bool_decide (clock cfg = GPIOD_LINE_CONFIG_EVENT_CLOCK_REALTIME)
  ∧ Z.testbit f 0 = false
  ∧ (0 ≤ f < 2 ^ 12)%Z.
Proof.
  intros Hf.
  destruct (make_kernel_flags_cases (K := linux_uapi) cfg)
    as [[_ Hrec]|[Hfail _]]; [|congruence].
  destruct cfg as [d e dr b al cl db]. unfold recognized in Hrec.
  simpl in Hrec. destruct Hrec as (Hd & He & Hr & Hb & Hc).
  unfold GPIOD_LINE_CONFIG_DIRECTION_AS_IS, GPIOD_LINE_CONFIG_DIRECTION_INPUT,
    GPIOD_LINE_CONFIG_DIRECTION_OUTPUT, GPIOD_LINE_CONFIG_EDGE_NONE,
    GPIOD_LINE_CONFIG_EDGE_FALLING, GPIOD_LINE_CONFIG_EDGE_RISING,
    GPIOD_LINE_CONFIG_EDGE_BOTH, GPIOD_LINE_CONFIG_BIAS_AS_IS,
    GPIOD_LINE_CONFIG_BIAS_DISABLED, GPIOD_LINE_CONFIG_BIAS_PULL_UP,
    GPIOD_LINE_CONFIG_BIAS_PULL_DOWN, GPIOD_LINE_CONFIG_DRIVE_PUSH_PULL,
    GPIOD_LINE_CONFIG_DRIVE_OPEN_DRAIN, GPIOD_LINE_CONFIG_DRIVE_OPEN_SOURCE,
    GPIOD_LINE_CONFIG_EVENT_CLOCK_MONOTONIC,
    GPIOD_LINE_CONFIG_EVENT_CLOCK_REALTIME in *.
  simpl.
  destruct al;
    destruct Hd as [ -> | [ -> | [ -> | -> ]]];
    destruct He as [ -> | [ -> | [ -> | [ -> | -> ]]]];
    destruct Hr as [ -> | [ -> | [ -> | -> ]]];
    destruct Hb as [ -> | [ -> | [ -> | [ -> | -> ]]]];
    destruct Hc as [ -> | [ -> | -> ]];
    vm_compute in Hf; injection Hf as <-; vm_compute;
    repeat split; congruence.
Qed.

Lemma kernel_flags_decode_witness :
  Z.testbit 28 3
  = bool_decide (direction (mk_base_config 3 3 0 0 false 0 0)
                 = GPIOD_LINE_CONFIG_DIRECTION_OUTPUT).
Proof.
  destruct (kernel_flags_decode (mk_base_config 3 3 0 0 false 0 0) 28)
    as (_ & _ & H & _); [reflexivity|exact H].
Defined.

(** ** Stored output values *)

(** The search of [output_value_find_offset] is defined inside the array and
    returns the first stored position that holds the offset, if any. *)
Lemma output_value_find_from_first c off fuel :
  ∀ i, i + fuel ≤ length (output_values c) →
  ∃ res, output_value_find_from c off i fuel = Some res
    ∧ match res with
      | Some p =>
          i ≤ p < i + fuel
          ∧ (∃ ov, output_values c !! p = Some ov ∧ offset ov = off)
          ∧ ∀ j ov, i ≤ j < p → output_values c !! j = Some ov →
                    offset ov ≠ off
      | None =>
          ∀ j ov, i ≤ j < i + fuel → output_values c !! j = Some ov →
                  offset ov ≠ off
      end.
Proof.
  induction fuel as [|fuel IH]; intros i Hlen; simpl.
  { eexists. split; [done|]. intros j ov Hj. lia. }
  destruct (lookup_lt_is_Some_2 (output_values c) i) as [ov Hov]; [lia|].
  rewrite Hov. simpl. case_decide as Hoff.
  - eexists. split; [done|]. split; [lia|]. split; [by exists ov|].
    intros j ov' Hj. lia.
  - destruct (IH (S i)) as (res & Hres & Hpost); [lia|].
    exists res. split; [done|]. destruct res as [p|].
    + destruct Hpost as (Hp & Hhit & Hfirst). split; [lia|]. split; [done|].
      intros j ov' Hj Hov'. destruct (decide (j = i)) as [->|Hne].
      * congruence.
      * apply (Hfirst j); [lia|done].
    + intros j ov' Hj Hov'. destruct (decide (j = i)) as [->|Hne].
      * congruence.
      * apply (Hpost j); [lia|done].
Qed.

Lemma output_value_find_offset_hit c off p ov :
  wf_config c →
  p < num_output_values c →
  output_values c !! p = Some ov → offset ov = off →
  (∀ j ov', j < p → output_values c !! j = Some ov' → offset ov' ≠ off) →
  output_value_find_offset c off = Some (Some p).
Proof.
  intros [_ _ Hlen Hnum _] Hp Hov Hoff Hfirst.
  unfold output_value_find_offset.
  destruct (output_value_find_from_first c off (num_output_values c) 0)
    as (res & -> & Hpost); [simpl; lia|].
  destruct res as [q|].
  - destruct Hpost as (Hq & (ov' & Hov' & Hoff') & Hfirst').
    destruct (Nat.lt_trichotomy q p) as [Hlt|[->|Hgt]]; [|done|].
    + by destruct (Hfirst q ov' Hlt Hov').
    + destruct (Hfirst' p ov); [lia|done|done].
  - destruct (Hpost p ov); [lia|done|done].
Qed.

Lemma output_value_find_offset_miss c off :
  wf_config c →
  off ∉ offset <$> stored_output_values c →
  output_value_find_offset c off = Some None.
Proof.
  intros [_ _ Hlen Hnum _] Hnot. unfold output_value_find_offset.
  destruct (output_value_find_from_first c off (num_output_values c) 0)
    as (res & -> & Hpost); [simpl; lia|].
  destruct res as [q|]; [|done].
  destruct Hpost as (Hq & (ov & Hov & Hoff) & _). destruct Hnot.
  apply list_elem_of_fmap. exists ov. split; [done|].
  apply elem_of_take. exists q. split; [done|lia].
Qed.

Lemma output_value_find_offset_cases c off :
  wf_config c →
  (∃ p ov, output_value_find_offset c off = Some (Some p)
           ∧ p < num_output_values c
           ∧ output_values c !! p = Some ov ∧ offset ov = off
           ∧ (∀ j ov', j < p → output_values c !! j = Some ov' →
                       offset ov' ≠ off)
           ∧ off ∈ offset <$> stored_output_values c)
  ∨ (output_value_find_offset c off = Some None
     ∧ off ∉ offset <$> stored_output_values c).
Proof.
  intros Hwf. pose proof Hwf as [_ _ Hlen Hnum _].
  unfold output_value_find_offset.
  destruct (output_value_find_from_first c off (num_output_values c) 0)
    as (res & -> & Hpost); [simpl; lia|].
  destruct res as [p|].
  - destruct Hpost as (Hp & (ov & Hov & Hoff) & Hfirst). left.
    exists p, ov. split; [done|]. split; [lia|]. split; [done|].
    split; [done|]. split.
    + intros j ov' Hj. apply Hfirst. lia.
    + apply list_elem_of_fmap. exists ov. split; [done|].
      apply elem_of_take. exists p. split; [done|lia].
  - right. split; [done|]. intros Hin.
    apply list_elem_of_fmap in Hin as (ov & Hoff & Hin).
    apply elem_of_take in Hin as (j & Hj & Hjn).
    by apply (Hpost j ov); [lia|done|].
Qed.

(** X2. On a config without overflow that has room left or already stores
    the offset, [gpiod_line_config_set_output_value] is defined and stores
    the value: a lookup of the offset afterwards finds a position holding
    exactly that offset and value. The number of stored values grows by one
    for a new offset and stays for a stored one, and the values of all other
    offsets stay where they were. *)
Theorem set_output_value_lookup (c : gpiod_line_config) (off val : Z) :
  wf_config c → too_complex c = false →
  (num_output_values c < GPIO_V2_LINES_MAX
   ∨ off ∈ offset <$> stored_output_values c) →
  ∃ c' p, gpiod_line_config_set_output_value c off val = Some c'
    ∧ too_complex c' = false
    ∧ output_value_find_offset c' off = Some (Some p)
    ∧ output_values c' !! p = Some (mk_output_value off val)
    ∧ num_output_values c'
      = (if decide (off ∈ offset <$> stored_output_values c)
         then num_output_values c else S (num_output_values c))
    ∧ ∀ q ov, stored_output_values c !! q = Some ov → offset ov ≠ off →
              stored_output_values c' !! q = Some ov.
Proof.
  intros Hwf Htc Hroom. pose proof Hwf as [Hsl Hsn Hlen Hnum Hoffs].
  unfold gpiod_line_config_set_output_value,
    gpiod_line_config_set_output_values. rewrite Htc. simpl.
  destruct (output_value_find_offset_cases c off Hwf)
    as [(p & ov & -> & Hp & Hov & Hoff & Hfirst & Hin)|[-> Hnot]]; simpl.
  - unfold set_output_value, store.
    destruct (decide (p < length (output_values c))) as [Hlt|]; [|lia].
    simpl. eexists _, p. split; [done|]. split; [done|].
    split; [|split; [|split]].
    + apply (output_value_find_offset_hit _ _ _ (mk_output_value off val)).
      * split; simpl; rewrite ?length_insert; done.
      * done.
      * simpl. by apply list_lookup_insert_eq.
      * done.
      * intros j ov' Hj. simpl. rewrite list_lookup_insert_ne by lia.
        by apply Hfirst.
    + simpl. by apply list_lookup_insert_eq.
    + simpl. by destruct (decide (off ∈ offset <$> stored_output_values c)).
    + intros q ov' Hq Hne. unfold stored_output_values in *. simpl.
      apply lookup_take_Some in Hq as [Hq Hqn].
      rewrite lookup_take_lt by done.
      rewrite list_lookup_insert_ne; [done|]. intros ->. congruence.
  - destruct Hroom as [Hroom|Hin]; [|done].
    destruct (decide (num_output_values c = GPIO_V2_LINES_MAX)); [lia|].
    unfold set_output_value, store.
    destruct (decide (num_output_values c < length (output_values c)))
      as [Hlt|]; [|lia].
    simpl. eexists _, (num_output_values c). split; [done|]. split; [done|].
    split; [|split; [|split]].
    + apply (output_value_find_offset_hit _ _ _ (mk_output_value off val)).
      * split; simpl; rewrite ?length_insert; try done; lia.
      * simpl. lia.
      * simpl. by apply list_lookup_insert_eq.
      * done.
      * intros j ov' Hj. simpl. rewrite list_lookup_insert_ne by lia.
        intros Hov' Hoff'. apply Hnot. apply list_elem_of_fmap.
        exists ov'. split; [done|]. apply elem_of_take. by exists j.
    + simpl. by apply list_lookup_insert_eq.
    + simpl. by destruct (decide (off ∈ offset <$> stored_output_values c)).
    + intros q ov' Hq Hne. unfold stored_output_values in *. simpl.
      apply lookup_take_Some in Hq as [Hq Hqn].
      rewrite lookup_take_lt by lia.
      rewrite list_lookup_insert_ne; [done|]. lia.
Qed.

(** X3. Setting the output value of one offset twice is the same as setting
    it once to the second value, on every well-formed config (also a full or
    an overflowed one). *)
Theorem set_output_value_last_write_wins
    (c : gpiod_line_config) (off v1 v2 : Z) :
  wf_config c →
  gpiod_line_config_set_output_value c off v1
    ≫= (λ c1, gpiod_line_config_set_output_value c1 off v2)
  = gpiod_line_config_set_output_value c off v2.
Proof.
  intros Hwf. pose proof Hwf as [Hsl Hsn Hlen Hnum Hoffs].
  unfold gpiod_line_config_set_output_value,
    gpiod_line_config_set_output_values.
  destruct (too_complex c) eqn:Htc; simpl; [by rewrite Htc|].
  destruct (output_value_find_offset_cases c off Hwf)
    as [(p & ov & -> & Hp & Hov & Hoff & Hfirst & Hin)|[-> Hnot]]; simpl.
  - unfold set_output_value, store.
    destruct (decide (p < length (output_values c))) as [Hlt|]; [|lia].
    simpl. rewrite Htc.
    rewrite (output_value_find_offset_hit _ off p (mk_output_value off v1)).
    + simpl. rewrite length_insert.
      destruct (decide (p < length (output_values c))); [|lia]. simpl.
      unfold with_output_values. simpl. by rewrite list_insert_insert_eq.
    + split; simpl; rewrite ?length_insert; done.
    + done.
    + simpl. by apply list_lookup_insert_eq.
    + done.
    + intros j ov' Hj. simpl. rewrite list_lookup_insert_ne by lia.
      by apply Hfirst.
  - destruct (decide (num_output_values c = GPIO_V2_LINES_MAX)) as [Hfull|Hroom].
    { simpl. done. }
    unfold set_output_value, store.
    destruct (decide (num_output_values c < length (output_values c)))
      as [Hlt|]; [|lia].
    simpl. rewrite Htc.
    rewrite (output_value_find_offset_hit _ off (num_output_values c)
               (mk_output_value off v1)).
    + simpl. rewrite length_insert.
      destruct (decide (num_output_values c < length (output_values c)));
        [|lia].
      simpl. unfold with_output_values, with_num_output_values. simpl.
      by rewrite list_insert_insert_eq.
    + split; simpl; rewrite ?length_insert; try done; lia.
    + simpl. lia.
    + simpl. by apply list_lookup_insert_eq.
    + done.
    + intros j ov' Hj. simpl. rewrite list_lookup_insert_ne by lia.
      intros Hov' Hoff'. apply Hnot. apply list_elem_of_fmap.
      exists ov'. split; [done|]. apply elem_of_take. by exists j.
Qed.

(** X4. With all 64 entries in use, a call of
    [gpiod_line_config_set_output_values] whose first pair has an offset that
    is not stored sets [too_complex], stores nothing and drops the rest of
    the pairs. *)
Theorem set_output_values_overflow
    (c : gpiod_line_config) (off val : Z) (rest : list (Z * Z)) :
  wf_config c → too_complex c = false →
  num_output_values c = GPIO_V2_LINES_MAX →
  off ∉ offset <$> stored_output_values c →
  gpiod_line_config_set_output_values c ((off, val) :: rest)
  = Some (with_too_complex true c).
Proof.
  intros Hwf Htc Hfull Hnot.
  unfold gpiod_line_config_set_output_values. rewrite Htc. simpl.
  rewrite (output_value_find_offset_miss c off Hwf Hnot). simpl.
  by destruct (decide (num_output_values c = GPIO_V2_LINES_MAX)).
Qed.


(** ** Memory safety of the offset normalisation *)

Lemma length_bytes_of_words ws : length (bytes_of_words ws) = 4 * length ws.
Proof.
  unfold bytes_of_words. induction ws as [|w ws IH]; simpl; [done|].
  rewrite IH. lia.
Qed.

Lemma length_words_of_bytes n : ∀ bs, length (words_of_bytes n bs) = n.
Proof. induction n as [|n IH]; intros bs; simpl; [done|]. by rewrite IH. Qed.

Lemma memcpy_length dst src n r :
  memcpy dst src n = Some r → length r = length dst.
Proof.
  unfold memcpy. case_decide; [|done]. intros [= <-].
  apply length_words_of_bytes.
Qed.

Lemma memmove_length arr dst src n r :
  memmove arr dst src n = Some r → length r = length arr.
Proof.
  unfold memmove. case_decide; [|done]. intros [= <-].
  apply length_words_of_bytes.
Qed.

(** The loop of [sanitize_offsets] keeps the size of the array and only ever
    decrements the counter, once per index at most. *)
Lemma sanitize_loop_frame num_offsets count idxs :
  ∀ sorted n sorted' n',
    sanitize_loop num_offsets count idxs (sorted, n) = Some (sorted', n') →
    length sorted' = length sorted ∧ n' ≤ n ∧ n - length idxs ≤ n'.
Proof.
  induction idxs as [|i idxs IH]; intros sorted n sorted' n' H;
    cbn [sanitize_loop] in H.
  { injection H as <- <-. repeat split; lia. }
  destruct (sanitize_step num_offsets count i (sorted, n))
    as [[s1 n1]|] eqn:Hstep; [|done]. simpl in H.
  apply IH in H as (Hlen & Hle & Hge).
  unfold sanitize_step in Hstep.
  destruct (sorted !! i) as [a|]; [|done]. simpl in Hstep.
  destruct (sorted !! (i + 1)) as [b|]; [|done]. simpl in Hstep.
  case_decide.
  - destruct (decide (i < count - 2)).
    + destruct (memmove _ _ _ _) as [s2|] eqn:Hmv; [|done]. simpl in Hstep.
      injection Hstep as <- <-. apply memmove_length in Hmv.
      simpl. repeat split; [congruence|lia|lia].
    + simpl in Hstep. injection Hstep as <- <-. simpl.
      repeat split; [done|lia|lia].
  - injection Hstep as <- <-. simpl. repeat split; [done|lia|lia].
Qed.

(** With at most 36 offsets no access of the loop leaves the array. *)
Lemma sanitize_loop_defined num_offsets count idxs :
  2 ≤ count → count ≤ num_offsets → num_offsets ≤ 36 →
  Forall (λ i, i < count - 1) idxs →
  ∀ sorted n, length sorted = GPIO_V2_LINES_MAX →
  is_Some (sanitize_loop num_offsets count idxs (sorted, n)).
Proof.
  intros Hc Hcn Hn. induction idxs as [|i idxs IH];
    intros Hidx sorted n Hlen; cbn [sanitize_loop]; [done|].
  apply Forall_cons in Hidx as [Hi Hidx].
  unfold GPIO_V2_LINES_MAX in Hlen.
  assert (is_Some (sanitize_step num_offsets count i (sorted, n)))
    as [[s1 n1] Hstep].
  { unfold sanitize_step.
    destruct (lookup_lt_is_Some_2 sorted i) as [a ->]; [lia|].
    destruct (lookup_lt_is_Some_2 sorted (i + 1)) as [b ->]; [lia|].
    simpl. case_decide; [|done].
    destruct (decide (i < count - 2)); [|done].
    unfold memmove. rewrite length_bytes_of_words, Hlen.
    case_decide as Hbound; [done|]. destruct Hbound. lia. }
  rewrite Hstep. simpl. apply IH; [done|].
  pose proof (sanitize_loop_frame num_offsets count [i] sorted n s1 n1) as Hf.
  cbn [sanitize_loop] in Hf. rewrite Hstep in Hf. simpl in Hf.
  destruct (Hf eq_refl) as (-> & _). done.
Qed.

(** [sanitize_offsets] keeps the size of the scratch array; with two or more
    offsets it leaves a counter between 1 and the number of offsets. *)
Lemma sanitize_offsets_scratch c offs c1 :
  sanitize_offsets c offs = Some c1 →
  length (sorted_offsets c1) = length (sorted_offsets c)
  ∧ (2 ≤ length offs →
     1 ≤ num_sorted_offsets c1 ≤ length offs)
  ∧ (length offs ≤ 1 → c1 = c).
Proof.
  unfold sanitize_offsets. intros H. case_decide as Hsmall.
  { injection H as <-. split; [done|]. split; [lia|done]. }
  destruct (memcpy _ _ _) as [copied|] eqn:Hcp; [|done]. simpl in H.
  destruct (sanitize_loop _ _ _ _) as [[sorted' n]|] eqn:Hloop; [|done].
  injection H as <-. simpl.
  apply sanitize_loop_frame in Hloop as (Hlen & Hle & Hge).
  apply memcpy_length in Hcp.
  rewrite length_seq in Hge.
  split; [|split].
  - rewrite Hlen, length_app, length_qsort, <- length_app, take_drop. done.
  - intros _. split; [|done]. case_decide; unfold GPIO_V2_LINES_MAX in *; lia.
  - intros ?. lia.
Qed.

Lemma sanitize_offsets_defined c offs :
  length (sorted_offsets c) = GPIO_V2_LINES_MAX →
  length offs ≤ 36 →
  is_Some (sanitize_offsets c offs).
Proof.
  intros Hlen Hn. unfold sanitize_offsets. case_decide as Hsmall; [done|].
  destruct (decide (GPIO_V2_LINES_MAX < length offs)) as [Hgt|_];
    [unfold GPIO_V2_LINES_MAX in Hgt; lia|].
  destruct (memcpy (sorted_offsets c) offs (length offs))
    as [copied|] eqn:Hcp.
  2:{ unfold memcpy in Hcp. rewrite !length_bytes_of_words in Hcp.
      case_decide as Hb; [done|]. destruct Hb.
      unfold GPIO_V2_LINES_MAX in *. lia. }
  simpl. apply memcpy_length in Hcp.
  destruct (sanitize_loop_defined (length offs) (length offs)
              (seq 0 (length offs - 1)))
    with (sorted := qsort offset_compare (take (length offs) copied)
                    ++ drop (length offs) copied)
         (n := length offs) as [[s1 n1] Hloop]; [lia|lia|done| | |].
  - apply Forall_forall. intros i Hi. apply elem_of_seq in Hi. lia.
  - rewrite length_app, length_qsort, <- length_app, take_drop. congruence.
  - by rewrite Hloop.
Qed.

(** On a config whose blocks hold no offsets the search matches the first
    block exactly when the scratch counter is 0, and no block otherwise. *)
Lemma find_matching_from_built c fuel :
  Forall (λ s, num_offsets s = 0) (secondary c) →
  ∀ i, i + fuel ≤ length (secondary c) →
  find_matching_from c i fuel
  = Some (if decide (num_sorted_offsets c = 0 ∧ 0 < fuel)
          then Some i else None).
Proof.
  intros Hz. induction fuel as [|fuel IH]; intros i Hlen; simpl.
  { case_decide; [lia|done]. }
  destruct (lookup_lt_is_Some_2 (secondary c) i) as [s Hs]; [lia|].
  rewrite Hs. simpl.
  rewrite Forall_lookup in Hz. rewrite (Hz i s Hs).
  destruct (decide (num_sorted_offsets c ≠ 0)) as [Hn|Hn].
  - rewrite IH by lia.
    destruct (decide (num_sorted_offsets c = 0 ∧ 0 < fuel)) as [[? ?]|_];
      [lia|].
    destruct (decide (num_sorted_offsets c = 0 ∧ 0 < S fuel)) as [[? ?]|_];
      [lia|]. done.
  - assert (num_sorted_offsets c = 0) as -> by lia.
    unfold memcmp_eq. simpl.
    destruct (decide (0 ≤ length (bytes_of_words (offsets s))
                      ∧ 0 ≤ length (bytes_of_words (sorted_offsets c))))
      as [_|Hb]; [|destruct Hb; lia]. simpl.
    destruct (decide (0 = 0 ∧ 0 < S fuel)) as [_|Hno]; [done|].
    destruct Hno. lia.
Qed.

Lemma built_wf c : built c → wf_config c.
Proof. by intros [? _]. Qed.

Lemma built_new : built gpiod_line_config_new.
Proof.
  split; [apply wf_config_new|]. split; [done|].
  apply Forall_replicate. done.
Qed.

(** [get_secondary_config] on such a config. *)
Lemma get_secondary_config_built c offs c1 :
  built c → too_complex c = false →
  sanitize_offsets c offs = Some c1 →
  get_secondary_config c offs
  = Some (if decide (num_sorted_offsets c1 = 0 ∧ 0 < num_secondary c)
          then (c1, Some 0)
          else if decide (num_secondary c = GPIO_V2_LINE_NUM_ATTRS_MAX)
               then (with_too_complex true c1, None)
               else (with_num_secondary (S (num_secondary c)) c1,
                     Some (num_secondary c))).
Proof.
  intros ([Hsl Hsn _ _ _] & _ & Hz) Htc Hs.
  unfold get_secondary_config. rewrite Htc, Hs. simpl.
  apply sanitize_offsets_frame in Hs as (sorted & n & ->).
  unfold find_matching_secondary_config. simpl.
  rewrite (find_matching_from_built _ (num_secondary c)); simpl; [|done|lia].
  by repeat case_decide.
Qed.

Lemma subset_setter_built f c offs c' :
  built c → subset_setter f c offs = Some c' → built c'.
Proof.
  intros (Hwf & Hlen & Hz) H. split; [by eapply subset_setter_wf|].
  pose proof (subset_setter_offsets f c offs c' H) as [_ Hnum].
  split.
  - unfold subset_setter in H.
    destruct (get_secondary_config c offs) as [[c1 sec]|] eqn:Hg; [|done].
    simpl in H.
    assert (length (sorted_offsets c1) = GPIO_V2_LINES_MAX) as Hlen1.
    { unfold get_secondary_config in Hg. destruct (too_complex c).
      - by injection Hg as <- <-.
      - destruct (sanitize_offsets c offs) as [c2|] eqn:Hs; [|done].
        simpl in Hg. apply sanitize_offsets_scratch in Hs as (Hl & _).
        destruct (find_matching_secondary_config c2) as [[i|]|];
          simpl in Hg; [| |done].
        + injection Hg as <- <-. congruence.
        + case_decide; injection Hg as <- <-; simpl; congruence. }
    destruct sec as [i|]; [|by injection H as <-].
    destruct (secondary c1 !! i); [|done]. simpl in H.
    unfold store in H. case_decide; [|done]. by injection H as <-.
  - apply (Forall_fmap num_offsets (λ n, n = 0)). rewrite Hnum.
    by apply Forall_fmap.
Qed.

Lemma subset_setter_defined f c offs :
  built c → length offs ≤ 36 → is_Some (subset_setter f c offs).
Proof.
  intros Hb Hn. destruct (too_complex c) eqn:Htc.
  { by rewrite subset_setter_too_complex. }
  pose proof Hb as ([Hsl Hsn _ _ _] & Hlen & Hz).
  destruct (sanitize_offsets_defined c offs Hlen Hn) as [c1 Hs].
  unfold subset_setter.
  rewrite (get_secondary_config_built c offs c1 Hb Htc Hs).
  pose proof (sanitize_offsets_frame _ _ _ Hs) as (sorted & n & ->).
  unfold GPIO_V2_LINE_NUM_ATTRS_MAX in *.
  repeat case_decide; simpl; try done.
  - destruct (lookup_lt_is_Some_2 (secondary c) 0) as [s ->]; [lia|].
    simpl. unfold store. case_decide; [done|lia].
  - destruct (lookup_lt_is_Some_2 (secondary c) (num_secondary c))
      as [s ->]; [lia|].
    simpl. unfold store. case_decide; [done|lia].
Qed.



(** X13. On a config built by the setters, not in overflow and whose
    scratch counter is 0 (as after [gpiod_line_config_new], and after any
    calls of global, single-offset and output-value setters), a single-offset
    setter assigns its option in block 0, taking that block first if no
    block is in use; the counter stays 0, so the next single-offset call
    lands in block 0 as well. *)
Theorem single_offset_setters_share_block
    (o : line_option) (c : gpiod_line_config) (off : Z) :
  built c → too_complex c = false → num_sorted_offsets c = 0 →
  ∃ c' s, call_offset o c off = Some c'
    ∧ secondary c !! 0 = Some s
    ∧ secondary c' = <[0 := with_config (option_field o) s]> (secondary c)
    ∧ num_secondary c' = Nat.max 1 (num_secondary c)
    ∧ built c' ∧ too_complex c' = false ∧ num_sorted_offsets c' = 0.
Proof.
  intros Hb Htc Hzero. rewrite call_offset_eq.
  pose proof Hb as ([Hsl Hsn _ _ _] & Hlen & Hz).
  assert (sanitize_offsets c [off] = Some c) as Hs.
  { unfold sanitize_offsets. simpl.
    by destruct (decide (1 = 0 ∨ 1 = 1)) as [_|[]]; [|right]. }
  assert (∃ c', subset_setter (option_field o) c [off] = Some c') as [c' Hc'].
  { destruct (subset_setter_defined (option_field o) c [off] Hb)
      as [c' Hc']; [simpl; lia|]. by exists c'. }
  pose proof (subset_setter_built _ _ _ _ Hb Hc') as Hb'.
  exists c'. revert Hc'. unfold subset_setter.
  rewrite (get_secondary_config_built c [off] c Hb Htc Hs).
  unfold GPIO_V2_LINE_NUM_ATTRS_MAX in *.
  destruct (lookup_lt_is_Some_2 (secondary c) 0) as [s Hsec]; [lia|].
  destruct (decide (num_sorted_offsets c = 0 ∧ 0 < num_secondary c))
    as [[_ Hpos]|Hnone]; simpl.
  - rewrite (Nat.max_r 1 (num_secondary c)) by lia.
    rewrite Hsec. simpl. unfold store.
    destruct (decide (0 < length (secondary c))); [|lia]. simpl.
    intros [= <-]. exists s. simpl.
    repeat (split; [done|]). done.
  - assert (num_secondary c = 0) as Hnone' by lia.
    destruct (decide (num_secondary c = 10)); [lia|]. simpl.
    rewrite Hnone', Hsec. simpl. unfold store.
    destruct (decide (0 < length (secondary c))); [|lia]. simpl.
    intros [= <-]. exists s. simpl.
    try rewrite Hnone'. try rewrite Hnone' in Hb'.
    repeat (split; [done|]). done.
Qed.

(** ** Invariants over any sequence of setter calls *)

Lemma set_output_values_loop_scratch vals :
  ∀ c c', set_output_values_loop c vals = Some c' →
  sorted_offsets c' = sorted_offsets c
  ∧ num_sorted_offsets c' = num_sorted_offsets c.
Proof.
  induction vals as [|[off val] vals IH]; intros c c' H; simpl in H.
  { by injection H as <-. }
  destruct (output_value_find_offset c off) as [[p|]|]; simpl in H; [| |done].
  - unfold set_output_value, store in H. case_decide; [|done]. simpl in H.
    by apply IH in H.
  - case_decide; [by injection H as <-|].
    unfold set_output_value, store in H. case_decide; [|done]. simpl in H.
    by apply IH in H.
Qed.

Lemma apply_setter_built call c c' :
  built c → apply_setter call c = Some c' → built c'.
Proof.
  intros Hb. destruct call as [o|o off|o offs|off val|vals]; simpl.
  - intros [= <-]. rewrite call_global_eq.
    destruct Hb as ([? ? ? ? ?] & ? & ?). by repeat split.
  - rewrite call_offset_eq. by apply subset_setter_built.
  - rewrite call_subset_eq. by apply subset_setter_built.
  - intros H. pose proof (apply_setter_wf (OutputValue off val) c c'
                            (built_wf c Hb) H) as Hwf.
    unfold gpiod_line_config_set_output_value,
      gpiod_line_config_set_output_values in H.
    destruct Hb as (_ & Hlen & Hz). destruct (too_complex c).
    { injection H as <-. split; [done|]. by split. }
    pose proof (set_output_values_loop_frame _ _ _ H) as (_ & Hsec & _).
    pose proof (set_output_values_loop_scratch _ _ _ H) as (Hsc & _).
    split; [done|]. split; congruence.
  - intros H. pose proof (apply_setter_wf (OutputValues vals) c c'
                            (built_wf c Hb) H) as Hwf.
    unfold gpiod_line_config_set_output_values in H.
    destruct Hb as (_ & Hlen & Hz). destruct (too_complex c).
    { injection H as <-. split; [done|]. by split. }
    pose proof (set_output_values_loop_frame _ _ _ H) as (_ & Hsec & _).
    pose proof (set_output_values_loop_scratch _ _ _ H) as (Hsc & _).
    split; [done|]. split; congruence.
Qed.

Lemma apply_setters_built calls :
  ∀ c c', built c → apply_setters calls c = Some c' → built c'.
Proof.
  induction calls as [|call calls IH]; intros c c' Hb H; simpl in H.
  { by injection H as <-. }
  destruct (apply_setter call c) as [c1|] eqn:H1; [|done]. simpl in H.
  eapply IH; [|exact H]. by eapply apply_setter_built.
Qed.

Lemma apply_setters_outputs_unique calls :
  ∀ c c', wf_config c → NoDup (offset <$> stored_output_values c) →
  apply_setters calls c = Some c' →
  NoDup (offset <$> stored_output_values c').
Proof.
  induction calls as [|call calls IH]; intros c c' Hwf Hnd H; simpl in H.
  { by injection H as <-. }
  destruct (apply_setter call c) as [c1|] eqn:H1; [|done]. simpl in H.
  eapply IH; [| |exact H].
  - by eapply apply_setter_wf.
  - by eapply apply_setter_outputs_unique.
Qed.

(** X5. Whatever sequence of setter calls is applied to a new config, as
    long as each call is defined: the arrays keep their declared sizes, the
    counters stay within them, and no offset has two stored output
    values. *)
Theorem setters_keep_invariants
    (calls : list setter_call) (c : gpiod_line_config) :
  apply_setters calls gpiod_line_config_new = Some c →
  wf_config c
  ∧ length (sorted_offsets c) = GPIO_V2_LINES_MAX
  ∧ NoDup (offset <$> stored_output_values c).
Proof.
  intros H.
  destruct (apply_setters_built calls _ _ built_new H) as (Hwf & Hlen & _).
  split; [done|]. split; [done|].
  eapply apply_setters_outputs_unique; [apply wf_config_new| |exact H].
  apply NoDup_nil. done.
Qed.

(** X6. No setter ever writes the offsets of a block: in a config built
    from a new one by any sequence of setter calls every block holds the
    empty offset list, and [set_secondary_mask] computes the mask 0 for it
    whatever the requested lines are. *)
Theorem blocks_never_hold_offsets
    (calls : list setter_call) (c : gpiod_line_config)
    (s : secondary_config) (offs : list Z) :
  apply_setters calls gpiod_line_config_new = Some c →
  s ∈ secondary c →
  num_offsets s = 0
  ∧ secondary_offset_list s = []
  ∧ set_secondary_mask s offs = Some (Ok 0%Z).
Proof.
  intros H Hin.
  destruct (apply_setters_built calls _ _ built_new H) as (_ & _ & Hz).
  rewrite Forall_forall in Hz. specialize (Hz s Hin).
  split; [done|]. unfold secondary_offset_list, set_secondary_mask.
  rewrite Hz. done.
Qed.

(** ** What a setter call never undoes *)

Lemma set_output_values_loop_prefix vals :
  ∀ c c', set_output_values_loop c vals = Some c' →
  num_output_values c ≤ num_output_values c'
  ∧ (offset <$> stored_output_values c)
      `prefix_of` (offset <$> stored_output_values c').
Proof.
  induction vals as [|[off val] vals IH]; intros c c' H; simpl in H.
  { by injection H as <-. }
  destruct (output_value_find_offset c off) as [[p|]|] eqn:Hfind;
    simpl in H; [| |done].
  - apply output_value_find_from_spec in Hfind as (Hp & ov & Hov & Hoff).
    unfold set_output_value, store in H. case_decide as Hlt; [|done].
    simpl in H. apply IH in H as [Hle Hpre]. split; [done|].
    etrans; [|exact Hpre]. unfold stored_output_values. simpl.
    rewrite take_insert_lt by lia. rewrite list_fmap_insert. simpl.
    rewrite list_insert_id; [done|].
    rewrite list_lookup_fmap, lookup_take_lt by lia. by rewrite Hov, <- Hoff.
  - case_decide as Hmax; [by injection H as <-|].
    unfold set_output_value, store in H. case_decide as Hlt; [|done].
    simpl in H. apply IH in H as [Hle Hpre]. simpl in Hle. split; [lia|].
    etrans; [|exact Hpre]. unfold stored_output_values. simpl.
    rewrite (take_S_r _ _ (mk_output_value off val))
      by (by apply list_lookup_insert_eq).
    rewrite take_insert_ge by lia. rewrite fmap_app.
    by apply prefix_app_r.
Qed.

(** X7. A setter call never removes anything: the number of blocks in use
    stays or grows by one, the number of stored output values does not
    shrink, and the offsets of the stored output values are kept in place
    (new ones are appended). *)
Theorem setter_call_only_adds
    (call : setter_call) (c c' : gpiod_line_config) :
  apply_setter call c = Some c' →
  num_secondary c ≤ num_secondary c' ≤ S (num_secondary c)
  ∧ num_output_values c ≤ num_output_values c'
  ∧ (offset <$> stored_output_values c)
      `prefix_of` (offset <$> stored_output_values c').
Proof.
  assert (∀ f offs, subset_setter f c offs = Some c' →
            num_secondary c ≤ num_secondary c' ≤ S (num_secondary c)
            ∧ num_output_values c ≤ num_output_values c'
            ∧ (offset <$> stored_output_values c)
                `prefix_of` (offset <$> stored_output_values c')) as Hsub.
  { intros f offs H. unfold subset_setter in H.
    destruct (get_secondary_config c offs) as [[c1 sec]|] eqn:Hg; [|done].
    simpl in H.
    apply get_secondary_config_frame in Hg as (_ & _ & Hv & Hn & _ & Hsec).
    assert (num_secondary c ≤ num_secondary c1 ≤ S (num_secondary c)) as Hc.
    { destruct sec as [i|]; [|lia]. destruct Hsec as [[_ ->]|(_ & -> & _)]; lia. }
    assert (num_secondary c' = num_secondary c1
            ∧ output_values c' = output_values c1
            ∧ num_output_values c' = num_output_values c1) as (-> & Hv' & Hn').
    { destruct sec as [i|]; [|by injection H as <-].
      destruct (secondary c1 !! i); [|done]. simpl in H.
      unfold store in H. case_decide; [|done]. by injection H as <-. }
    split; [done|]. unfold stored_output_values.
    rewrite Hv', Hn', Hv, Hn. done. }
  destruct call as [o|o off|o offs|off val|vals]; simpl.
  - intros [= <-]. rewrite call_global_eq. simpl.
    split; [lia|]. done.
  - rewrite call_offset_eq. apply Hsub.
  - rewrite call_subset_eq. apply Hsub.
  - unfold gpiod_line_config_set_output_value,
      gpiod_line_config_set_output_values.
    destruct (too_complex c); [intros [= <-]; split; [lia|done]|].
    intros H. pose proof (set_output_values_loop_frame _ _ _ H) as (_ & _ & ->).
    split; [lia|]. by apply (set_output_values_loop_prefix [(off, val)]).
  - unfold gpiod_line_config_set_output_values.
    destruct (too_complex c); [intros [= <-]; split; [lia|done]|].
    intros H. pose proof (set_output_values_loop_frame _ _ _ H) as (_ & _ & ->).
    split; [lia|]. by apply (set_output_values_loop_prefix vals).
Qed.


End SetterProperties.

(** ** The mask of a block *)

Lemma mask_bits_spec offs l :
  length offs ≤ 64 →
  ∀ m m', mask_bits offs l m = Ok m' →
  (∀ k : nat, 64 ≤ k → Z.testbit m (Z.of_nat k) = false) →
  ∀ k : nat,
    Z.testbit m' (Z.of_nat k) = true
    ↔ Z.testbit m (Z.of_nat k) = true
      ∨ ∃ o, o ∈ l ∧ find_bitmap_index o offs = Some k.
Proof.
  intros Hlen. induction l as [|x l IH]; intros m m' Hb Hhigh k; simpl in Hb.
  { injection Hb as <-. split; [by left|]. intros [?|(o & Hin & _)]; [done|].
    by apply elem_of_nil in Hin. }
  destruct (find_bitmap_index x offs) as [idx|] eqn:Hf; [|done].
  pose proof (find_bitmap_index_lt _ _ _ Hf) as Hidx.
  rewrite (IH _ _ Hb).
  2:{ intros j Hj. rewrite testbit_set_bit.
      rewrite (bool_decide_eq_false_2 (j < 64)) by lia.
      by rewrite andb_false_r. }
  rewrite testbit_set_bit, andb_true_iff, orb_true_iff, !bool_decide_eq_true.
  split.
  - intros [[[?| ->] _]|(o & Hin & Ho)].
    + by left.
    + right. exists x. split; [by apply elem_of_cons; left|done].
    + right. exists o. split; [by apply elem_of_cons; right|done].
  - intros [Hm|(o & Hin & Ho)].
    + left. split; [by left|].
      destruct (decide (k < 64)) as [|Hk]; [done|].
      rewrite Hhigh in Hm by lia. done.
    + apply elem_of_cons in Hin as [->|Hin].
      * left. split; [right; congruence|]. assert (k = idx) by congruence. lia.
      * right. by exists o.
Qed.

(** X8. For a block whose offsets lie inside its array and at most 64
    requested lines: if every offset of the block is among the lines,
    [set_secondary_mask] returns a mask with a bit exactly at the position of
    each of these offsets in the list of lines; if some offset of the block
    is not among the lines, it fails with [EINVAL]. *)
Theorem set_secondary_mask_spec (s : secondary_config) (offs : list Z) :
  num_offsets s ≤ length (offsets s) → length offs ≤ 64 →
  ((∀ o, o ∈ secondary_offset_list s → o ∈ offs) →
   ∃ m, set_secondary_mask s offs = Some (Ok m)
     ∧ ∀ k : nat,
         Z.testbit m (Z.of_nat k) = true
         ↔ ∃ o, o ∈ secondary_offset_list s
                ∧ find_bitmap_index o offs = Some k)
  ∧ ((∃ o, o ∈ secondary_offset_list s ∧ o ∉ offs) →
     set_secondary_mask s offs = Some (Fail EINVAL)).
Proof.
  intros Hs Hlen. rewrite (set_secondary_mask_eq s offs Hs). split.
  - intros Hall.
    destruct (mask_bits_ok offs _ gpiod_line_mask_zero Hall) as (m & Hm).
    exists m. split; [by rewrite Hm|]. intros k.
    rewrite (mask_bits_spec offs _ Hlen _ _ Hm).
    + unfold gpiod_line_mask_zero. rewrite Z.bits_0. split; [|by right].
      by intros [?|?].
    + intros j _. apply Z.bits_0.
  - intros Habs. by rewrite (mask_bits_fail offs _ _ Habs).
Qed.

(** ** When the compilation succeeds *)

Section CompileSuccess.
Context `{K : gpio_v2_uapi}.

(** X15. Compiling a non-[NULL] config returns 0 or -1, and it returns 0
    exactly when the config is not in overflow, stores no more output values
    than there are lines, asks for no more attribute slots than the kernel
    limit, stores output values for requested lines only, has a primary block
    of recognized values, and each block in use has no more offsets than
    there are lines, offsets among the lines only, and recognized values
    unless it carries a debounce period. *)
Theorem to_kernel_succeeds_iff_compilable
    (c : gpiod_line_config) (buf : gpio_v2_line_config) (offs : list Z) :
  wf_config c → wf_cfgbuf buf →
  ∃ r, gpiod_line_config_to_kernel (Some c) buf offs = Some r
    ∧ (ret r = 0%Z ∨ ret r = (-1)%Z)
    ∧ (ret r = 0%Z ↔ compilable c offs).
Proof.
  intros Hwf Hbuf.
  destruct (to_kernel_spec c buf offs Hwf Hbuf)
    as (r & Hr & Hexit & Hguard & Hov & Hok).
  exists r. split; [done|]. split.
  { destruct Hexit as [(-> & _)|[(-> & _)|(-> & _)]]; [by left|by right..]. }
  split.
  - (* a successful compilation has met every check on its way *)
    intros Hret.
    destruct Hexit as [(_ & _ & _ & Htc & Hle)|[(Hres & _)|(Hres & _)]];
      [|rewrite Hres in Hret; done..].
    destruct (Hok Hret) as (Hslots & _ & Hflags & Hlen & _ & _ & Hall).
    split; [done|]. split; [done|]. split; [done|]. split; [|split].
    + intros ov Hin.
      destruct (decide (num_output_values c = 0)) as [Hz|Hnz].
      { unfold stored_output_values in Hin. rewrite Hz in Hin.
        by apply elem_of_nil in Hin. }
      destruct (Hov Htc Hnz Hle) as (a0 & _ & Hm).
      rewrite (set_kernel_output_values_eq c offs Hwf) in Hm.
      destruct (output_bits _ _ _ _) as [[m v]|e] eqn:Hb.
      * by apply (output_bits_ok_inv _ _ _ _ _ Hb).
      * rewrite Hm in Hret. done.
    + destruct (make_kernel_flags_cases (primary c)) as [[_ ?]|[Hf _]];
        [done|congruence].
    + apply Forall_lookup. intros i s Hs.
      apply lookup_take_Some in Hs as [Hs Hi].
      destruct (Hall i Hi) as (s' & a0 & m & Hs' & Ha0 & Hn & Hm & Hat).
      assert (s' = s) as -> by congruence.
      split; [done|]. split.
      * intros Hd.
        apply lookup_lt_Some in Ha0. rewrite <- Hlen in Ha0.
        apply lookup_lt_is_Some in Ha0 as [y Hy].
        unfold secondary_attribute in Hat.
        destruct (decide (debounce_period (config s) ≠ 0%Z)); [done|].
        destruct (make_kernel_flags_cases (config s)) as [[_ ?]|[Hf _]];
          [done|].
        rewrite Hf in Hat. congruence.
      * pose proof Hwf as [_ _ _ _ Hoffs].
        rewrite Forall_lookup in Hoffs.
        rewrite (set_secondary_mask_eq s offs (Hoffs i s Hs)) in Hm.
        injection Hm as Hm. by apply (mask_bits_ok_inv _ _ _ _ Hm).
  - (* and a config that meets them all compiles *)
    intros Hc. by apply (compilable_ret c buf offs r).
Qed.

End CompileSuccess.

(** ** What the compilation writes *)

Section CompileBuffer.
Context `{K : gpio_v2_uapi}.

(** X16. A compilation that fails never writes [flags] or [num_attrs] of
    the kernel structure and keeps the size of [attrs] (it may have written
    attribute slots); when it fails at one of the two guards in front
    ([too_complex] set, or more output values than lines) it leaves the whole
    structure untouched. *)
Theorem to_kernel_failure_keeps_header
    (c : gpiod_line_config) (buf : gpio_v2_line_config) (offs : list Z) :
  wf_config c → wf_cfgbuf buf →
  ∃ r, gpiod_line_config_to_kernel (Some c) buf offs = Some r
    ∧ (ret r ≠ 0%Z →
       flags (cfgbuf r) = flags buf
       ∧ num_attrs (cfgbuf r) = num_attrs buf
       ∧ length (attrs (cfgbuf r)) = length (attrs buf))
    ∧ (too_complex c = true ∨ length offs < num_output_values c →
       cfgbuf r = buf).
Proof.
  intros Hwf Hbuf.
  destruct (to_kernel_spec c buf offs Hwf Hbuf)
    as (r & Hr & _ & Hguard & _).
  exists r. split; [done|]. split; [|intros H; by rewrite (Hguard H)].
  revert Hr. unfold gpiod_line_config_to_kernel.
  destruct (too_complex c) eqn:Htc; [by intros [= <-]|].
  destruct (to_kernel_output_values_spec c buf offs Hwf Hbuf)
    as (out1 & H1 & P1).
  unfold and_then. rewrite H1. simpl.
  destruct out1 as [res|[k b1]].
  { intros [= <-] _.
    by destruct P1 as (_ & [(_ & ->)|(_ & a0 & _ & _ & ->)]); simpl;
      rewrite ?length_insert. }
  destruct (before_secondaries_reached c buf offs k b1 Hwf Hbuf H1)
    as (b2 & H2 & Hb2 & (Hfr2 & _) & _).
  rewrite H2. simpl.
  pose proof (first_secondary_slot_le c) as Hfirst.
  destruct (to_kernel_secondaries_spec c offs Hwf (num_secondary c) 0
              (first_secondary_slot c) b2) as (out3 & H3 & P3);
    [lia|done|unfold GPIO_V2_LINE_NUM_ATTRS_MAX; lia|].
  rewrite H3. simpl.
  destruct out3 as [res|[a' b3]]; simpl in P3.
  { intros [= <-] _. destruct P3 as (Hfr3 & _).
    destruct (frame_trans buf b2 (cfgbuf res) 0 (first_secondary_slot c))
      as (? & ? & ? & _); [lia|done|done|done]. }
  destruct P3 as (_ & _ & Hfr3 & _).
  destruct (gpiod_make_kernel_flags (primary c)) as [f|e].
  - intros [= <-] Hret. by destruct Hret.
  - intros [= <-] _. simpl.
    destruct (frame_trans buf b2 b3 0 (first_secondary_slot c))
      as (? & ? & ? & _); [lia|done|done|done].
Qed.

(** X17. When a config with a primary debounce period compiles, the slot
    after the output values (slot 0 if none is stored) holds a debounce
    attribute: its [id] is the debounce id, its period member holds the
    period modulo 2^32, its mask has the bits 0 to 63 set and no other, and
    the rest of the slot (the padding and the high half of the union) is what
    the buffer held. The secondaries start in the slot after it. *)
Theorem primary_debounce_attribute
    (c : gpiod_line_config) (buf : gpio_v2_line_config) (offs : list Z) :
  wf_config c → wf_cfgbuf buf → compilable c offs →
  debounce_period (primary c) ≠ 0%Z →
  ∃ r a0 a, gpiod_line_config_to_kernel (Some c) buf offs = Some r
    ∧ ret r = 0%Z
    ∧ attrs buf !! output_values_slot c = Some a0
    ∧ attrs (cfgbuf r) !! output_values_slot c = Some a
    ∧ id (attr a) = GPIO_V2_LINE_ATTR_ID_DEBOUNCE
    ∧ debounce_period_us (attr a)
      = (debounce_period (primary c) mod 2 ^ 32)%Z
    ∧ (attr_union (attr a) / 2 ^ 32 = attr_union (attr a0) / 2 ^ 32)%Z
    ∧ padding (attr a) = padding (attr a0)
    ∧ (∀ k : Z, Z.testbit (mask a) k = true ↔ (0 ≤ k < 64)%Z)
    ∧ first_secondary_slot c = S (output_values_slot c).
Proof.
  intros Hwf Hbuf Hc Hd.
  destruct (to_kernel_spec c buf offs Hwf Hbuf)
    as (r & Hr & _ & _ & _ & Hok).
  pose proof (compilable_ret c buf offs r Hwf Hbuf Hc Hr) as Hret.
  destruct (Hok Hret) as (_ & _ & _ & _ & _ & Hdb & _).
  destruct (Hdb Hd) as (a0 & Ha0 & Hat).
  destruct (debounce_attribute_fields (debounce_period (primary c))
              GPIO_V2_LINE_ATTR_ID_DEBOUNCE gpiod_line_mask_fill a0)
    as (Hid & Hpad & Hper & Hhigh & Hmask).
  eexists r, a0, _. split; [done|]. split; [done|]. split; [done|].
  split; [exact Hat|]. split; [done|]. split; [done|]. split; [done|].
  split; [done|]. split.
  - intros k. rewrite Hmask. unfold gpiod_line_mask_fill.
    apply Z.ones_spec_iff. lia.
  - unfold first_secondary_slot, output_values_slot.
    destruct (decide (debounce_period (primary c) ≠ 0%Z)); [lia|done].
Qed.

End CompileBuffer.

(** ** Instances of the statements above *)


Ltac built_new_by_compute :=
  split; [wf_new|split; [reflexivity|apply Forall_replicate; reflexivity]].

Lemma set_output_value_lookup_witness :
  ∃ c' p, gpiod_line_config_set_output_value gpiod_line_config_new 7 1
          = Some c'
    ∧ too_complex c' = false
    ∧ output_value_find_offset c' 7 = Some (Some p)
    ∧ output_values c' !! p = Some (mk_output_value 7 1)
    ∧ num_output_values c'
      = (if decide (7%Z ∈ offset
                      <$> stored_output_values gpiod_line_config_new)
         then num_output_values gpiod_line_config_new
         else S (num_output_values gpiod_line_config_new))
    ∧ ∀ q ov, stored_output_values gpiod_line_config_new !! q = Some ov →
              offset ov ≠ 7%Z →
              stored_output_values c' !! q = Some ov.
Proof.
  apply (set_output_value_lookup gpiod_line_config_new 7 1).
  - wf_new.
  - reflexivity.
  - left. unfold GPIO_V2_LINES_MAX. simpl. lia.
Defined.

Lemma set_output_value_last_write_wins_witness :
  gpiod_line_config_set_output_value gpiod_line_config_new 7 0
    ≫= (λ c1, gpiod_line_config_set_output_value c1 7 1)
  = gpiod_line_config_set_output_value gpiod_line_config_new 7 1.
Proof.
  apply (set_output_value_last_write_wins gpiod_line_config_new 7 0 1).
  wf_new.
Defined.

Lemma set_output_values_overflow_witness :
  gpiod_line_config_set_output_values full_outputs_config
    [(64, 1); (3, 0)]%Z
  = Some (with_too_complex true full_outputs_config).
Proof.
  apply (set_output_values_overflow full_outputs_config 64 1 [(3, 0)]%Z).
  - wf_by_compute.
  - vm_compute. reflexivity.
  - vm_compute. reflexivity.
  - apply (bool_decide_unpack _). vm_compute. exact I.
Defined.



Lemma single_offset_setters_share_block_witness :
  ∃ c' s, call_offset (L := libc_insertion)
            (OptBias GPIOD_LINE_CONFIG_BIAS_PULL_UP)
            gpiod_line_config_new 5 = Some c'
    ∧ secondary gpiod_line_config_new !! 0 = Some s
    ∧ secondary c'
      = <[0 := with_config
                 (option_field (OptBias GPIOD_LINE_CONFIG_BIAS_PULL_UP)) s]>
          (secondary gpiod_line_config_new)
    ∧ num_secondary c' = Nat.max 1 (num_secondary gpiod_line_config_new)
    ∧ built c' ∧ too_complex c' = false ∧ num_sorted_offsets c' = 0.
Proof.
  apply (single_offset_setters_share_block (L := libc_insertion)
           (OptBias GPIOD_LINE_CONFIG_BIAS_PULL_UP) gpiod_line_config_new 5).
  - built_new_by_compute.
  - reflexivity.
  - reflexivity.
Defined.

Lemma setters_keep_invariants_witness :
  wf_config three_outputs_config
  ∧ length (sorted_offsets three_outputs_config) = GPIO_V2_LINES_MAX
  ∧ NoDup (offset <$> stored_output_values three_outputs_config).
Proof.
  apply (setters_keep_invariants (L := libc_insertion)
           [Global (OptDirection GPIOD_LINE_CONFIG_DIRECTION_OUTPUT);
            OutputValues [(2, 1); (4, 0); (7, 1)]%Z]
           three_outputs_config).
  vm_compute. reflexivity.
Defined.

Lemma blocks_never_hold_offsets_witness :
  num_offsets debounce_and_bias_block = 0
  ∧ secondary_offset_list debounce_and_bias_block = []
  ∧ set_secondary_mask debounce_and_bias_block [5%Z] = Some (Ok 0%Z).
Proof.
  apply (blocks_never_hold_offsets (L := libc_insertion)
           [ForOffset (OptDebouncePeriod 10000) 5;
            ForOffset (OptBias GPIOD_LINE_CONFIG_BIAS_PULL_UP) 5]
           debounce_and_bias_config debounce_and_bias_block [5%Z]).
  - vm_compute. reflexivity.
  - apply (bool_decide_unpack _). vm_compute. exact I.
Defined.

Lemma setter_call_only_adds_witness :
  num_secondary gpiod_line_config_new ≤ num_secondary one_output_config
    ≤ S (num_secondary gpiod_line_config_new)
  ∧ num_output_values gpiod_line_config_new
    ≤ num_output_values one_output_config
  ∧ (offset <$> stored_output_values gpiod_line_config_new)
      `prefix_of` (offset <$> stored_output_values one_output_config).
Proof.
  apply (setter_call_only_adds (L := libc_insertion)
           (OutputValue 7 1) gpiod_line_config_new
           one_output_config).
  vm_compute. reflexivity.
Defined.

Lemma set_secondary_mask_spec_witness :
  ((∀ o, o ∈ secondary_offset_list block_3_5 → o ∈ [5; 3; 1]%Z) →
   ∃ m, set_secondary_mask block_3_5 [5; 3; 1]%Z = Some (Ok m)
     ∧ ∀ k : nat,
         Z.testbit m (Z.of_nat k) = true
         ↔ ∃ o, o ∈ secondary_offset_list block_3_5
                ∧ find_bitmap_index o [5; 3; 1]%Z = Some k)
  ∧ ((∃ o, o ∈ secondary_offset_list block_3_5 ∧ o ∉ [5; 3; 1]%Z) →
     set_secondary_mask block_3_5 [5; 3; 1]%Z = Some (Fail EINVAL)).
Proof.
  apply (set_secondary_mask_spec block_3_5 [5; 3; 1]%Z).
  - vm_compute. lia.
  - simpl. lia.
Defined.

Lemma to_kernel_succeeds_iff_compilable_witness :
  ∃ r, gpiod_line_config_to_kernel (K := linux_uapi)
         (Some three_outputs_config) zero_kernel_config [2; 4; 7]%Z = Some r
    ∧ (ret r = 0%Z ∨ ret r = (-1)%Z)
    ∧ (ret r = 0%Z ↔ compilable three_outputs_config [2; 4; 7]%Z).
Proof.
  apply (to_kernel_succeeds_iff_compilable (K := linux_uapi)
           three_outputs_config zero_kernel_config [2; 4; 7]%Z).
  - wf_by_compute.
  - reflexivity.
Defined.

Lemma to_kernel_failure_keeps_header_witness :
  ∃ r, gpiod_line_config_to_kernel (K := linux_uapi)
         (Some three_outputs_config) zero_kernel_config [2; 4]%Z = Some r
    ∧ (ret r ≠ 0%Z →
       flags (cfgbuf r) = flags zero_kernel_config
       ∧ num_attrs (cfgbuf r) = num_attrs zero_kernel_config
       ∧ length (attrs (cfgbuf r)) = length (attrs zero_kernel_config))
    ∧ (too_complex three_outputs_config = true
       ∨ length [2; 4]%Z < num_output_values three_outputs_config →
       cfgbuf r = zero_kernel_config).
Proof.
  apply (to_kernel_failure_keeps_header (K := linux_uapi)
           three_outputs_config zero_kernel_config [2; 4]%Z).
  - wf_by_compute.
  - reflexivity.
Defined.

Lemma primary_debounce_attribute_witness :
  ∃ r a0 a, gpiod_line_config_to_kernel (K := linux_uapi)
              (Some (gpiod_line_config_set_debounce_period
                       gpiod_line_config_new 4294967301))
              zero_kernel_config [2; 4]%Z = Some r
    ∧ ret r = 0%Z
    ∧ attrs zero_kernel_config
        !! output_values_slot
             (gpiod_line_config_set_debounce_period
                gpiod_line_config_new 4294967301)
      = Some a0
    ∧ attrs (cfgbuf r)
        !! output_values_slot
             (gpiod_line_config_set_debounce_period
                gpiod_line_config_new 4294967301)
      = Some a
    ∧ id (attr a) = @GPIO_V2_LINE_ATTR_ID_DEBOUNCE linux_uapi
    ∧ debounce_period_us (attr a)
      = (debounce_period
           (primary (gpiod_line_config_set_debounce_period
                       gpiod_line_config_new 4294967301)) mod 2 ^ 32)%Z
    ∧ (attr_union (attr a) / 2 ^ 32 = attr_union (attr a0) / 2 ^ 32)%Z
    ∧ padding (attr a) = padding (attr a0)
    ∧ (∀ k : Z, Z.testbit (mask a) k = true ↔ (0 ≤ k < 64)%Z)
    ∧ first_secondary_slot
        (gpiod_line_config_set_debounce_period
           gpiod_line_config_new 4294967301)
      = S (output_values_slot
             (gpiod_line_config_set_debounce_period
                gpiod_line_config_new 4294967301)).
Proof.
  apply (primary_debounce_attribute (K := linux_uapi)
           (gpiod_line_config_set_debounce_period
              gpiod_line_config_new 4294967301)
           zero_kernel_config [2; 4]%Z).
  - wf_by_compute.
  - reflexivity.
  - (* the config meets every check of the compilation *)
    split; [reflexivity|]. split; [vm_compute; lia|].
    split; [vm_compute; lia|]. split.
    { intros ov Hov. vm_compute in Hov. by apply elem_of_nil in Hov. }
    split.
    { unfold recognized. vm_compute. tauto. }
    apply Forall_forall. intros s Hs. vm_compute in Hs.
    by apply elem_of_nil in Hs.
  - simpl. lia.
Defined.

(** The same input evaluated: the period 2^32 + 5 leaves 5 in the period
    member, under the mask of all 64 lines. *)
Example primary_debounce_evaluated :
  ((λ r, (ret r, num_attrs (cfgbuf r), attrs (cfgbuf r) !! 0)) <$>
     gpiod_line_config_to_kernel (K := linux_uapi)
       (Some (gpiod_line_config_set_debounce_period
                gpiod_line_config_new 4294967301))
       zero_kernel_config [2; 4]%Z)
  = Some (0%Z, 1%Z,
          Some (mk_config_attribute (mk_line_attribute 3 0 5)
                  18446744073709551615)).
Proof. by vm_compute. Qed.

(** ** The search of [gpiofind] *)

(** X18. Called without options, with one line name and a successful scan,
    [gpiofind] prints the first entry, in scan order, whose chip opens and
    has a line of that name, every entry before it having been passed over
    (no permission to open it, or no such line); it dies at the first entry
    that fails to open for another reason if no entry before it matched; and
    it exits with failure exactly when every entry is passed over. *)
Theorem gpiofind_first_match {name chip line : Type} (EACCES : Z)
    (gpiod_chip_open_by_name : name → Z + chip)
    (gpiod_chip_find_line_unique : chip → name → option line)
    (gpiod_chip_name : chip → name) (gpiod_line_offset : line → Z)
    (entries : list name) (line_name : name) :
  match gpiofind_main EACCES gpiod_chip_open_by_name
          gpiod_chip_find_line_unique gpiod_chip_name gpiod_line_offset
          [] [line_name] (Some entries) with
  | PrintedLine n off =>
      ∃ pre entry post ch l,
        entries = pre ++ entry :: post
        ∧ Forall (passed_over EACCES gpiod_chip_open_by_name
                    gpiod_chip_find_line_unique line_name) pre
        ∧ gpiod_chip_open_by_name entry = inr ch
        ∧ gpiod_chip_find_line_unique ch line_name = Some l
        ∧ n = gpiod_chip_name ch ∧ off = gpiod_line_offset l
  | DiedOpen entry =>
      ∃ pre post errno,
        entries = pre ++ entry :: post
        ∧ Forall (passed_over EACCES gpiod_chip_open_by_name
                    gpiod_chip_find_line_unique line_name) pre
        ∧ gpiod_chip_open_by_name entry = inl errno ∧ errno ≠ EACCES
  | ExitFailure =>
      Forall (passed_over EACCES gpiod_chip_open_by_name
                gpiod_chip_find_line_unique line_name) entries
  | _ => False
  end.
Proof.
  unfold gpiofind_main.
  induction entries as [|entry entries IH]; simpl; [done|].
  destruct (gpiod_chip_open_by_name entry) as [errno|ch] eqn:Hopen.
  - case_decide as He.
    + subst errno.
      destruct (gpiofind_search _ _ _ _ _ entries line_name) eqn:Hs;
        try done.
      * destruct IH as (pre & post & errno & -> & Hpre & Hopen' & Hne).
        exists (entry :: pre), post, errno. split; [done|].
        split; [|done]. apply Forall_cons. split; [by left|done].
      * destruct IH
          as (pre & e & post & ch & l & -> & Hpre & Ho & Hf & -> & ->).
        exists (entry :: pre), e, post, ch, l. split; [done|].
        split; [|done]. apply Forall_cons. split; [by left|done].
      * apply Forall_cons. split; [by left|done].
    + exists [], entries, errno. by repeat split.
  - destruct (gpiod_chip_find_line_unique ch line_name) as [l|] eqn:Hfind.
    + exists [], entry, entries, ch, l. by repeat split.
    + assert (passed_over EACCES gpiod_chip_open_by_name
                gpiod_chip_find_line_unique line_name entry) as Hskip.
      { right. by exists ch. }
      destruct (gpiofind_search _ _ _ _ _ entries line_name) eqn:Hs;
        try done.
      * destruct IH as (pre & post & errno & -> & Hpre & Hopen' & Hne).
        exists (entry :: pre), post, errno. split; [done|].
        split; [|done]. by apply Forall_cons.
      * destruct IH
          as (pre & e & post & ch' & l & -> & Hpre & Ho & Hf & -> & ->).
        exists (entry :: pre), e, post, ch', l. split; [done|].
        split; [|done]. by apply Forall_cons.
      * by apply Forall_cons.
Qed.
